(** * College admissions matcher: deferred acceptance, animation, sensitivity

    A shallow embedding of the matching core of [th2_Marek_Sipek.py]:
    [gale_shapley_matching], the animation state machine
    ([_animation_reset], [_animation_step], [_animation_run_step]) and the
    score-sensitivity helpers ([_run_adjusted_matching],
    [_count_matching_changes]).

    Python dictionaries are finite maps ([gmap string _]); lists are lists;
    Python integers are [Z]; the [float] factor of the sensitivity analysis
    is an IEEE 754 binary64 value ([spec_float] with precision 53).
    Exceptions are explicit: every operation that can raise returns a
    [result].  The [while] loop of the engine takes a fuel argument that
    bounds the number of queue pops.

    Around the core, the file embeds the animation window with its buttons
    and timers ([_animation_start], the panels of [_draw_animation_state]),
    the text and the charts of the sensitivity analysis
    ([_display_matching_changes], [update_charts]), and the ways data
    gets into the application: the two input forms, the sample data and
    the random generator, whose draws are read from a tape.

    The last part embeds the rounds of the rock-paper-scissors simulation
    of [th1_Marek_Sipek.py] ([update_strategies], [record_strategy_counts],
    [run_simulation]) on the graph the program has built. *)

From stdpp Require Import base strings list gmap fin_maps fin_sets pretty.

From Stdlib Require Import ZArith Lia Floats.SpecFloat Sorting.Sorted.

Local Open Scope Z_scope.

(** ** Exceptions *)

Inductive exn : Type := KeyError | IndexError | ValueError | OverflowError.

Inductive result (A : Type) : Type :=
  | Ok (a : A)
  | Raise (e : exn).

Arguments Ok {A} a.

Arguments Raise {A} e.

#[global] Instance result_ret : MRet result := λ A a, Ok a.

#[global] Instance result_bind : MBind result := λ A B f m,
  match m with Ok a => f a | Raise e => Raise e end.

(** [d[k]] on a dictionary. *)
Definition getitem {V} (d : gmap string V) (k : string) : result V :=
  match d !! k with Some v => Ok v | None => Raise KeyError end.

(** [l[i]] on a list, for a non-negative index. *)
Definition list_getitem {A} (l : list A) (i : nat) : result A :=
  match l !! i with Some v => Ok v | None => Raise IndexError end.

(** [l.remove(x)]: drops the first element equal to [x]. *)
Fixpoint list_remove_first `{EqDecision A} (x : A) (l : list A) : result (list A) :=
  match l with
  | [] => Raise ValueError
  | y :: l' => if decide (x = y) then Ok l'
               else l'' ← list_remove_first x l'; Ok (y :: l'')
  end.

(** ** The dataclasses *)

Module Student.

Record t : Type := mk { name : string; preferences : list string; score : Z }.

End Student.

Module School.

Record t : Type := mk { name : string; capacity : Z; accepted : list (string * Z) }.

Definition is_full (s : t) : bool :=
  bool_decide (capacity s ≤ Z.of_nat (length (accepted s))).

End School.

(** The part of [CollegeAdmissionsApp] the matching code reads and writes. *)
Record App : Type := mkApp {
  students : list Student.t;
  schools : gmap string School.t
}.

(** ** [sorted(l, key=lambda x: x[1], reverse=...)]

    Python's sort is stable, also with [reverse=True]: elements with equal
    keys keep their order in [l].  Insertion from the right is such a sort. *)

Definition key_le (reverse : bool) (x y : string * Z) : bool :=
  if reverse then bool_decide (y.2 ≤ x.2) else bool_decide (x.2 ≤ y.2).

Fixpoint sorted_insert (reverse : bool) (x : string * Z) (l : list (string * Z))
    : list (string * Z) :=
  match l with
  | [] => [x]
  | y :: l' => if key_le reverse x y then x :: y :: l'
               else y :: sorted_insert reverse x l'
  end.

Definition sorted (reverse : bool) (l : list (string * Z)) : list (string * Z) :=
  foldr (sorted_insert reverse) [] l.

(** ** The engine: [gale_shapley_matching] *)

(** The inner dictionaries [{"prefs": .., "score": ..}] and
    [{"capacity": .., "accepted": ..}]. *)
Record StudentEntry : Type := mkStudentEntry { prefs : list string; score : Z }.

Record SchoolEntry : Type := mkSchoolEntry {
  capacity : Z;
  accepted : list (string * Z)
}.

(** The locals of [gale_shapley_matching]. *)
Record MatchState : Type := mkMatchState {
  student_dict : gmap string StudentEntry;
  schools_dict : gmap string SchoolEntry;
  unmatched : list string;
  pref_index : gmap string nat
}.

(** [{student.name: {...} for student in self.students}]: a later student
    with the same name overwrites an earlier one. *)
Definition make_student_dict (l : list Student.t) : gmap string StudentEntry :=
  foldl (λ d s, <[Student.name s :=
                    mkStudentEntry (Student.preferences s) (Student.score s)]> d) ∅ l.

Definition make_schools_dict (m : gmap string School.t) : gmap string SchoolEntry :=
  (λ school, mkSchoolEntry (School.capacity school) []) <$> m.

Definition make_pref_index (l : list Student.t) : gmap string nat :=
  foldl (λ d s, <[Student.name s := 0%nat]> d) ∅ l.

Definition initial_state (app : App) : MatchState :=
  {| student_dict := make_student_dict (students app);
     schools_dict := make_schools_dict (schools app);
     unmatched := Student.name <$> students app;
     pref_index := make_pref_index (students app) |}.

(** Which branch one iteration of the loop took.  The engine keeps no such
    record; it is returned next to the new state so that properties of a
    run can speak about what happened in it. *)
Inductive Event : Type :=
  | NoPrefsLeft (student : string)
  | UnknownSchool (student school : string)
  | Accepted (student school : string)
  | Replaced (student school rejected : string)
  | Rejected (student school : string).

#[global] Instance Event_eq_dec : EqDecision Event.
Proof. solve_decision. Defined.

(** The body of the [while unmatched:] loop, from [unmatched.pop(0)] on. *)
Definition match_iteration (st : MatchState) : result (Event * MatchState) :=
  match unmatched st with
  | [] => Raise IndexError
  | student :: rest =>
    entry ← getitem (student_dict st) student;
    let student_prefs := prefs entry in
    i ← getitem (pref_index st) student;
    if bool_decide (length student_prefs ≤ i)%nat then
      Ok (NoPrefsLeft student,
          {| student_dict := student_dict st; schools_dict := schools_dict st;
             unmatched := rest; pref_index := pref_index st |})
    else
      school ← list_getitem student_prefs i;
      let pref_index' := <[student := S i]> (pref_index st) in
      match schools_dict st !! school with
      | None =>
        Ok (UnknownSchool student school,
            {| student_dict := student_dict st; schools_dict := schools_dict st;
               unmatched := rest ++ [student]; pref_index := pref_index' |})
      | Some school_data =>
        let student_score := score entry in
        if bool_decide (Z.of_nat (length (accepted school_data)) < capacity school_data) then
          Ok (Accepted student school,
              {| student_dict := student_dict st;
                 schools_dict :=
                   <[school := mkSchoolEntry (capacity school_data)
                       (accepted school_data ++ [(student, student_score)])]>
                     (schools_dict st);
                 unmatched := rest; pref_index := pref_index' |})
        else
          lowest ← list_getitem (sorted false (accepted school_data)) 0;
          if bool_decide (lowest.2 < student_score) then
            let rejected := lowest.1 in
            remaining ← list_remove_first lowest (accepted school_data);
            Ok (Replaced student school rejected,
                {| student_dict := student_dict st;
                   schools_dict :=
                     <[school := mkSchoolEntry (capacity school_data)
                         (remaining ++ [(student, student_score)])]>
                       (schools_dict st);
                   unmatched := rest ++ [rejected]; pref_index := pref_index' |})
          else
            Ok (Rejected student school,
                {| student_dict := student_dict st; schools_dict := schools_dict st;
                   unmatched := rest ++ [student]; pref_index := pref_index' |})
      end
  end.

(** [while unmatched: ...].  [None] means the fuel ran out before the queue
    was empty; each iteration (one pop) costs one unit. *)
Fixpoint match_loop (fuel : nat) (st : MatchState)
    : option (result (list Event * MatchState)) :=
  match unmatched st with
  | [] => Some (Ok ([], st))
  | _ :: _ =>
    match fuel with
    | O => None
    | S fuel' =>
      match match_iteration st with
      | Raise e => Some (Raise e)
      | Ok (ev, st') =>
        match match_loop fuel' st' with
        | Some (Ok (evs, st'')) => Some (Ok (ev :: evs, st''))
        | other => other
        end
      end
    end
  end.

(** The returned dictionary: per school, the accepted names by descending score. *)
Definition format_results (sd : gmap string SchoolEntry) : gmap string (list string) :=
  (λ data, (sorted true (accepted data)).*1) <$> sd.

Definition gale_shapley_matching (fuel : nat) (app : App)
    : option (result (gmap string (list string))) :=
  match match_loop fuel (initial_state app) with
  | None => None
  | Some (Raise e) => Some (Raise e)
  | Some (Ok (_, st)) => Some (Ok (format_results (schools_dict st)))
  end.

(** The number of pops of a finished run. *)
Definition pops (fuel : nat) (app : App) : option nat :=
  match match_loop fuel (initial_state app) with
  | Some (Ok (evs, _)) => Some (length evs)
  | _ => None
  end.

(** ** The animation state machine *)

(** An entry of [state["history"]]. *)
Record HistoryEntry : Type := mkHistoryEntry {
  h_student : string;
  h_school : string;
  h_action : option string;
  h_rejected : option string
}.

(** The lines written to the status text widget, one constructor per
    message template, with the values the template interpolates. *)
Inductive StatusLine : Type :=
  | LineInitialized
  | LineTotalStudents (n : nat)
  | LineTotalSchools (n : nat)
  | LinePressStart
  | LineComplete
  | LineNoMorePreferences (student : string)
  | LineApplies (step : nat) (student school : string)
  | LineNoSuchSchool (school : string)
  | LineHasSpace (school student : string)
  | LineFullButHigher (school student : string) (student_score : Z)
                      (rejected : string) (lowest_score : Z)
  | LineMustTryAnother (rejected : string)
  | LineNotHighEnough (school student : string) (student_score : Z).

(** The [animation_state] dictionary, without its ["speed"] entry (the
    delay of the timer), and the contents of the status widget. *)
Module Animation.

Record state : Type := mk {
  running : bool;
  step : nat;
  student_dict : gmap string StudentEntry;
  schools_dict : gmap string SchoolEntry;
  unmatched : list string;
  pref_index : gmap string nat;
  history : list HistoryEntry;
  current_student : option string;
  current_school : option string;
  status_text : list StatusLine
}.

End Animation.

(** [l[-1][field] = v], for a list that is not empty. *)
Definition update_last {A} (f : A → A) (l : list A) : list A :=
  match reverse l with
  | [] => l
  | x :: r => reverse (f x :: r)
  end.

Definition set_action (a : string) (h : HistoryEntry) : HistoryEntry :=
  mkHistoryEntry (h_student h) (h_school h) (Some a) (h_rejected h).

Definition set_rejected (r : string) (h : HistoryEntry) : HistoryEntry :=
  mkHistoryEntry (h_student h) (h_school h) (h_action h) (Some r).

Definition _animation_reset (app : App) (state : Animation.state) : Animation.state :=
  {| Animation.running := false;
     Animation.step := 0;
     Animation.student_dict := make_student_dict (students app);
     Animation.schools_dict := make_schools_dict (schools app);
     Animation.unmatched := Student.name <$> students app;
     Animation.pref_index := make_pref_index (students app);
     Animation.history := [];
     Animation.current_student := None;
     Animation.current_school := None;
     Animation.status_text :=
       [LineInitialized; LineTotalStudents (length (students app));
        LineTotalSchools (size (schools app)); LinePressStart] |}.

(** The dictionary [animate_matching] creates before it calls
    [_animation_reset]. *)
Definition blank_state : Animation.state :=
  Animation.mk false 0 ∅ ∅ [] ∅ [] None None [].

(** One call of [_animation_run_step].  Where the source, when
    [state["running"]] is set, asks the timer to call it again, the new
    state is returned; the drivers below make that next call. *)
Definition _animation_run_step (state : Animation.state) : result Animation.state :=
  match Animation.unmatched state with
  | [] =>
    Ok {| Animation.running := false;
          Animation.step := Animation.step state;
          Animation.student_dict := Animation.student_dict state;
          Animation.schools_dict := Animation.schools_dict state;
          Animation.unmatched := [];
          Animation.pref_index := Animation.pref_index state;
          Animation.history := Animation.history state;
          Animation.current_student := Animation.current_student state;
          Animation.current_school := Animation.current_school state;
          Animation.status_text := Animation.status_text state ++ [LineComplete] |}
  | student :: rest =>
    entry ← getitem (Animation.student_dict state) student;
    let student_prefs := prefs entry in
    i ← getitem (Animation.pref_index state) student;
    if bool_decide (length student_prefs ≤ i)%nat then
      Ok {| Animation.running := Animation.running state;
            Animation.step := Animation.step state;
            Animation.student_dict := Animation.student_dict state;
            Animation.schools_dict := Animation.schools_dict state;
            Animation.unmatched := rest;
            Animation.pref_index := Animation.pref_index state;
            Animation.history := Animation.history state;
            Animation.current_student := Some student;
            Animation.current_school := Animation.current_school state;
            Animation.status_text :=
              Animation.status_text state ++ [LineNoMorePreferences student] |}
    else
      school ← list_getitem student_prefs i;
      let pref_index' := <[student := S i]> (Animation.pref_index state) in
      let status1 :=
        Animation.status_text state
          ++ [LineApplies (Animation.step state + 1) student school] in
      let step' := (Animation.step state + 1)%nat in
      match Animation.schools_dict state !! school with
      | None =>
        Ok {| Animation.running := Animation.running state;
              Animation.step := step';
              Animation.student_dict := Animation.student_dict state;
              Animation.schools_dict := Animation.schools_dict state;
              Animation.unmatched := rest ++ [student];
              Animation.pref_index := pref_index';
              Animation.history := Animation.history state;
              Animation.current_student := Some student;
              Animation.current_school := Some school;
              Animation.status_text := status1 ++ [LineNoSuchSchool school] |}
      | Some school_data =>
        let student_score := score entry in
        let history1 :=
          Animation.history state ++ [mkHistoryEntry student school None None] in
        if bool_decide (Z.of_nat (length (accepted school_data)) < capacity school_data) then
          Ok {| Animation.running := Animation.running state;
                Animation.step := step';
                Animation.student_dict := Animation.student_dict state;
                Animation.schools_dict :=
                  <[school := mkSchoolEntry (capacity school_data)
                      (accepted school_data ++ [(student, student_score)])]>
                    (Animation.schools_dict state);
                Animation.unmatched := rest;
                Animation.pref_index := pref_index';
                Animation.history := update_last (set_action "accepted") history1;
                Animation.current_student := Some student;
                Animation.current_school := Some school;
                Animation.status_text := status1 ++ [LineHasSpace school student] |}
        else
          lowest ← list_getitem (sorted false (accepted school_data)) 0;
          if bool_decide (lowest.2 < student_score) then
            let rejected := lowest.1 in
            remaining ← list_remove_first lowest (accepted school_data);
            Ok {| Animation.running := Animation.running state;
                  Animation.step := step';
                  Animation.student_dict := Animation.student_dict state;
                  Animation.schools_dict :=
                    <[school := mkSchoolEntry (capacity school_data)
                        (remaining ++ [(student, student_score)])]>
                      (Animation.schools_dict state);
                  Animation.unmatched := rest ++ [rejected];
                  Animation.pref_index := pref_index';
                  Animation.history :=
                    update_last (set_rejected rejected)
                      (update_last (set_action "replaced") history1);
                  Animation.current_student := Some student;
                  Animation.current_school := Some school;
                  Animation.status_text :=
                    status1 ++ [LineFullButHigher school student student_score
                                  rejected lowest.2;
                                LineMustTryAnother rejected] |}
          else
            Ok {| Animation.running := Animation.running state;
                  Animation.step := step';
                  Animation.student_dict := Animation.student_dict state;
                  Animation.schools_dict := Animation.schools_dict state;
                  Animation.unmatched := rest ++ [student];
                  Animation.pref_index := pref_index';
                  Animation.history := update_last (set_action "rejected") history1;
                  Animation.current_student := Some student;
                  Animation.current_school := Some school;
                  Animation.status_text :=
                    status1 ++ [LineNotHighEnough school student student_score] |}
      end
  end.

(** The Step button. *)
Definition _animation_step (state : Animation.state) : result Animation.state :=
  _animation_run_step
    {| Animation.running := false;
       Animation.step := Animation.step state;
       Animation.student_dict := Animation.student_dict state;
       Animation.schools_dict := Animation.schools_dict state;
       Animation.unmatched := Animation.unmatched state;
       Animation.pref_index := Animation.pref_index state;
       Animation.history := Animation.history state;
       Animation.current_student := Animation.current_student state;
       Animation.current_school := Animation.current_school state;
       Animation.status_text := Animation.status_text state |}.

(** Pressing Step until the queue of unmatched students is empty. *)
Fixpoint drive_steps (fuel : nat) (state : Animation.state)
    : option (result Animation.state) :=
  match Animation.unmatched state with
  | [] => Some (Ok state)
  | _ :: _ =>
    match fuel with
    | O => None
    | S fuel' =>
      match _animation_step state with
      | Raise e => Some (Raise e)
      | Ok state' => drive_steps fuel' state'
      end
    end
  end.

(** ** Score sensitivity *)

(** Python floats are IEEE 754 binary64 numbers. *)
Definition float_mul : spec_float → spec_float → spec_float := SFmul 53 1024.

(** The conversion of an [int] operand of a float multiplication: round to
    nearest, ties to even; too large an integer raises. *)
Definition float_of_int (z : Z) : result spec_float :=
  match binary_normalize 53 1024 z 0 false with
  | S754_infinity _ => Raise OverflowError
  | f => Ok f
  end.

(** [int(x)] on a float: the integer part, toward zero. *)
Definition int_of_float (x : spec_float) : result Z :=
  match x with
  | S754_zero _ => Ok 0
  | S754_infinity _ => Raise OverflowError
  | S754_nan => Raise ValueError
  | S754_finite s m e =>
    let v := if s then Z.neg m else Z.pos m in
    Ok (if bool_decide (0 ≤ e) then v * 2 ^ e else Z.quot v (2 ^ (- e)))
  end.

(** [int(student.score * factor)]. *)
Definition adjusted_score (score : Z) (factor : spec_float) : result Z :=
  x ← float_of_int score;
  int_of_float (float_mul x factor).

(** The [for student in self.students] loop of [_run_adjusted_matching]. *)
Fixpoint adjust_students (factor : spec_float) (l : list Student.t)
    : result (list Student.t) :=
  match l with
  | [] => Ok []
  | student :: l' =>
    adjusted ← adjusted_score (Student.score student) factor;
    rest ← adjust_students factor l';
    Ok (Student.mk (Student.name student) (Student.preferences student) adjusted :: rest)
  end.

(** [_run_adjusted_matching]: the application object after the call, and
    what the call returned or raised. *)
Definition _run_adjusted_matching (fuel : nat) (factor : spec_float) (app : App)
    : option (App * result (gmap string (list string))) :=
  match adjust_students factor (students app) with
  | Raise e => Some (app, Raise e)
  | Ok adjusted_students =>
    let original_students := students app in
    let app' := mkApp adjusted_students (schools app) in
    match gale_shapley_matching fuel app' with
    | None => None
    | Some (Raise e) => Some (app', Raise e)
    | Some (Ok adjusted_matches) =>
      Some (mkApp original_students (schools app'), Ok adjusted_matches)
    end
  end.

(** [_count_matching_changes]. *)
Definition _count_matching_changes
    (original_matches adjusted_matches : gmap string (list string)) : nat :=
  foldr (λ school changes,
      let original_set : gset string :=
        list_to_set (default [] (original_matches !! school)) in
      let adjusted_set : gset string :=
        list_to_set (default [] (adjusted_matches !! school)) in
      (changes + size ((original_set ∖ adjusted_set) ∪ (adjusted_set ∖ original_set)))%nat)
    0%nat (elements (dom original_matches ∪ dom adjusted_matches)).

(** The floor of the exact product of an integer and a finite float: the
    adjusted score as the specification words it. *)
Definition floor_of_product (score : Z) (factor : spec_float) : option Z :=
  match factor with
  | S754_zero _ => Some 0
  | S754_finite s m e =>
    let v := score * (if s then Z.neg m else Z.pos m) in
    Some (if bool_decide (0 ≤ e) then v * 2 ^ e else v `div` 2 ^ (- e))
  | _ => None
  end.

(** * Runs, measures and invariants *)

Ltac unfold_bind := unfold mbind, result_bind, mret, result_ret in *.

(** ** One iteration, case by case *)

Definition with_queue (st : MatchState) (q : list string) (pi : gmap string nat)
    : MatchState :=
  {| student_dict := student_dict st; schools_dict := schools_dict st;
     unmatched := q; pref_index := pi |}.

Definition with_accepted (st : MatchState) (s : string) (d : SchoolEntry)
    (acc : list (string * Z)) (q : list string) (pi : gmap string nat) : MatchState :=
  {| student_dict := student_dict st;
     schools_dict := <[s := mkSchoolEntry (capacity d) acc]> (schools_dict st);
     unmatched := q; pref_index := pi |}.

Inductive iteration (st : MatchState) : Event → MatchState → Prop :=
  | iteration_no_prefs a q e i :
      unmatched st = a :: q → student_dict st !! a = Some e →
      pref_index st !! a = Some i → (length (prefs e) ≤ i)%nat →
      iteration st (NoPrefsLeft a) (with_queue st q (pref_index st))
  | iteration_unknown a q e i s :
      unmatched st = a :: q → student_dict st !! a = Some e →
      pref_index st !! a = Some i → prefs e !! i = Some s →
      schools_dict st !! s = None →
      iteration st (UnknownSchool a s)
        (with_queue st (q ++ [a]) (<[a := S i]> (pref_index st)))
  | iteration_accept a q e i s d :
      unmatched st = a :: q → student_dict st !! a = Some e →
      pref_index st !! a = Some i → prefs e !! i = Some s →
      schools_dict st !! s = Some d →
      Z.of_nat (length (accepted d)) < capacity d →
      iteration st (Accepted a s)
        (with_accepted st s d (accepted d ++ [(a, score e)]) q
           (<[a := S i]> (pref_index st)))
  | iteration_replace a q e i s d l1 low l2 :
      unmatched st = a :: q → student_dict st !! a = Some e →
      pref_index st !! a = Some i → prefs e !! i = Some s →
      schools_dict st !! s = Some d →
      capacity d ≤ Z.of_nat (length (accepted d)) →
      accepted d = l1 ++ low :: l2 →
      (∀ x, x ∈ l1 → low.2 < x.2) → (∀ x, x ∈ l2 → low.2 ≤ x.2) →
      low.2 < score e →
      iteration st (Replaced a s low.1)
        (with_accepted st s d ((l1 ++ l2) ++ [(a, score e)]) (q ++ [low.1])
           (<[a := S i]> (pref_index st)))
  | iteration_reject a q e i s d l1 low l2 :
      unmatched st = a :: q → student_dict st !! a = Some e →
      pref_index st !! a = Some i → prefs e !! i = Some s →
      schools_dict st !! s = Some d →
      capacity d ≤ Z.of_nat (length (accepted d)) →
      accepted d = l1 ++ low :: l2 →
      (∀ x, x ∈ l1 → low.2 < x.2) → (∀ x, x ∈ l2 → low.2 ≤ x.2) →
      score e ≤ low.2 →
      iteration st (Rejected a s)
        (with_queue st (q ++ [a]) (<[a := S i]> (pref_index st))).

(** ** Runs *)

Inductive steps : MatchState → list Event → MatchState → Prop :=
  | steps_nil st : steps st [] st
  | steps_cons st ev st1 evs st2 :
      match_iteration st = Ok (ev, st1) → steps st1 evs st2 →
      steps st (ev :: evs) st2.

(** The events of a finished run. *)
Definition trace (fuel : nat) (app : App) : option (list Event) :=
  match match_loop fuel (initial_state app) with
  | Some (Ok (evs, _)) => Some evs
  | _ => None
  end.

(** ** Termination: every pop consumes a preference or an applicant *)

Definition untried (st : MatchState) (ke : string * StudentEntry) : nat :=
  (length (prefs ke.2) - default 0 (pref_index st !! ke.1))%nat.

Definition measure (st : MatchState) : nat :=
  (length (unmatched st)
   + sum_list_with (untried st) (map_to_list (student_dict st)))%nat.

(** The bound on the number of pops: every applicant is popped once for
    each preference it has and once more to be dropped. *)
Definition pop_bound (app : App) : nat :=
  (length (students app)
   + sum_list_with (λ s, length (Student.preferences s)) (students app))%nat.

(** The number of preference entries of the input. *)
Definition preference_total (app : App) : nat :=
  sum_list_with (λ s, length (Student.preferences s)) (students app).

(** ** Well-typed input and the states of a run *)

(** What the input forms check before they add a student or a school:
    the names of the students differ and capacities are positive.  (School
    names are the keys of a dictionary, hence differ.) *)
Definition well_typed (app : App) : Prop :=
  NoDup (Student.name <$> students app)
  ∧ map_Forall (λ _ school, 0 < School.capacity school) (schools app).

#[global] Instance well_typed_dec app : Decision (well_typed app).
Proof. unfold well_typed. apply _. Defined.

Record consistent (app : App) (st : MatchState) : Prop := {
  cons_students : student_dict st = make_student_dict (students app);
  cons_schools : ∀ s,
    capacity <$> schools_dict st !! s = School.capacity <$> schools app !! s;
  cons_queue : ∀ a, a ∈ unmatched st →
    is_Some (student_dict st !! a) ∧ is_Some (pref_index st !! a);
  cons_accepted : ∀ s d a sc,
    schools_dict st !! s = Some d → (a, sc) ∈ accepted d →
    ∃ e, student_dict st !! a = Some e ∧ score e = sc ∧ s ∈ prefs e
         ∧ is_Some (pref_index st !! a);
  cons_capacity : ∀ s d,
    schools_dict st !! s = Some d → Z.of_nat (length (accepted d)) ≤ capacity d
}.

(** ** No applicant is in two places *)

Record distinct (st : MatchState) : Prop := {
  dist_queue : NoDup (unmatched st);
  dist_accepted : ∀ s d, schools_dict st !! s = Some d → NoDup (accepted d).*1;
  dist_queue_accepted : ∀ s d a,
    schools_dict st !! s = Some d → a ∈ (accepted d).*1 → a ∉ unmatched st;
  dist_schools : ∀ s1 s2 d1 d2 a,
    s1 ≠ s2 → schools_dict st !! s1 = Some d1 → schools_dict st !! s2 = Some d2 →
    a ∈ (accepted d1).*1 → a ∉ (accepted d2).*1
}.

(** ** Stability: what a school turned away is no better than what it holds *)

(** [b] applied to [s] and was rejected by it, or was admitted and later
    replaced there. *)
Definition turned_away (evs : list Event) (s b : string) : Prop :=
  Rejected b s ∈ evs ∨ ∃ a, Replaced a s b ∈ evs.

Definition stable_so_far (evs : list Event) (st : MatchState) : Prop :=
  ∀ s d b eb,
    schools_dict st !! s = Some d → turned_away evs s b →
    student_dict st !! b = Some eb →
    capacity d ≤ Z.of_nat (length (accepted d))
    ∧ ∀ x, x ∈ accepted d → score eb ≤ x.2.

(** ** A dropped applicant stays out *)

Definition admits (ev : Event) (a : string) : Prop :=
  match ev with
  | Accepted a' _ | Replaced a' _ _ => a' = a
  | _ => False
  end.

Definition absent (a : string) (st : MatchState) : Prop :=
  (a ∉ unmatched st)
  ∧ (∀ s d, schools_dict st !! s = Some d → a ∉ (accepted d).*1).

(** ** The animation performs the iterations of the engine *)

(** The four entries of the animation state that are the locals of the engine. *)
Definition engine_state (state : Animation.state) : MatchState :=
  {| student_dict := Animation.student_dict state;
     schools_dict := Animation.schools_dict state;
     unmatched := Animation.unmatched state;
     pref_index := Animation.pref_index state |}.

(** What the status text gains in a step that records nothing. *)
Definition reported_only (state state' : Animation.state) (ev : Event) : Prop :=
  match ev with
  | NoPrefsLeft a =>
    Animation.status_text state'
    = Animation.status_text state ++ [LineNoMorePreferences a]
  | UnknownSchool a s =>
    Animation.status_text state'
    = Animation.status_text state
      ++ [LineApplies (Animation.step state + 1) a s; LineNoSuchSchool s]
  | _ => True
  end.

(** The history entries an iteration of each kind leaves. *)
Definition recorded (ev : Event) : list HistoryEntry :=
  match ev with
  | NoPrefsLeft _ | UnknownSchool _ _ => []
  | Accepted a s => [mkHistoryEntry a s (Some "accepted"%string) None]
  | Replaced a s r => [mkHistoryEntry a s (Some "replaced"%string) (Some r)]
  | Rejected a s => [mkHistoryEntry a s (Some "rejected"%string) None]
  end.

(** ** What the students have tried *)

(** [a] is in the accepted list of school [s]. *)
Definition accepted_at (st : MatchState) (a s : string) : Prop :=
  ∃ d, schools_dict st !! s = Some d ∧ a ∈ (accepted d).*1.

(** Where the students are and what they have tried, after the
    iterations [evs]. *)
Record progress (evs : list Event) (st : MatchState) : Prop := {
  tried_before : ∀ a e i k s,
    student_dict st !! a = Some e → pref_index st !! a = Some i →
    (k < i)%nat → prefs e !! k = Some s → is_Some (schools_dict st !! s) →
    accepted_at st a s ∨ turned_away evs s a;
  accepted_last : ∀ a s e i,
    accepted_at st a s → student_dict st !! a = Some e →
    pref_index st !! a = Some i →
    ∃ j, i = S j ∧ prefs e !! j = Some s;
  placed : ∀ a e i,
    student_dict st !! a = Some e → pref_index st !! a = Some i →
    a ∈ unmatched st ∨ (∃ s, accepted_at st a s) ∨ (length (prefs e) ≤ i)%nat
}.

(** [a] is assigned to [s] in a returned allocation. *)
Definition assigned (alloc : gmap string (list string)) (a s : string) : Prop :=
  ∃ names, alloc !! s = Some names ∧ a ∈ names.

(** ** [_display_matching_changes] *)

(** The lines [_display_matching_changes] writes; a line that joins the
    names of a set carries the set. *)
Inductive ChangeLine : Type :=
  | LineChangesFor (school : string)
  | LineRemoved (removed : gset string)
  | LineAdded (added : gset string)
  | LineBlank
  | LineNoChanges.

(** The body of the [for school in ...] loop: the flag and the text so far. *)
Definition display_school (original_matches adjusted_matches : gmap string (list string))
    (acc : bool * list ChangeLine) (school : string) : bool * list ChangeLine :=
  let original_set : gset string :=
    list_to_set (default [] (original_matches !! school)) in
  let adjusted_set : gset string :=
    list_to_set (default [] (adjusted_matches !! school)) in
  if bool_decide (original_set ≠ adjusted_set) then
    let removed := original_set ∖ adjusted_set in
    let added := adjusted_set ∖ original_set in
    (true,
     acc.2 ++ [LineChangesFor school]
       ++ (if bool_decide (removed ≠ ∅) then [LineRemoved removed] else [])
       ++ (if bool_decide (added ≠ ∅) then [LineAdded added] else [])
       ++ [LineBlank])
  else acc.

(** The schools are visited in the order in which the union of the two key
    sets enumerates them. *)
Definition _display_matching_changes
    (original_matches adjusted_matches : gmap string (list string))
    : list ChangeLine :=
  let '(changes_found, text) :=
    foldl (display_school original_matches adjusted_matches) (false, [])
      (elements (dom original_matches ∪ dom adjusted_matches)) in
  if changes_found then text else text ++ [LineNoChanges].

(** The names a line reports as removed or added. *)
Definition reported_changes (line : ChangeLine) : nat :=
  match line with
  | LineRemoved x | LineAdded x => size x
  | _ => 0%nat
  end.

(** The admitted set of a school in an allocation, empty for a school
    that is no key. *)
Definition admitted_set (matches : gmap string (list string)) (school : string)
    : gset string :=
  list_to_set (default [] (matches !! school)).

(** The number of names in exactly one of the two admitted sets of a school. *)
Definition sym_diff_size (o a : gmap string (list string)) (school : string) : nat :=
  size ((admitted_set o school ∖ admitted_set a school)
        ∪ (admitted_set a school ∖ admitted_set o school)).

(** ** The animation window: its buttons and its timer *)

(** [state["running"] = b]. *)
Definition with_running (b : bool) (state : Animation.state) : Animation.state :=
  {| Animation.running := b;
     Animation.step := Animation.step state;
     Animation.student_dict := Animation.student_dict state;
     Animation.schools_dict := Animation.schools_dict state;
     Animation.unmatched := Animation.unmatched state;
     Animation.pref_index := Animation.pref_index state;
     Animation.history := Animation.history state;
     Animation.current_student := Animation.current_student state;
     Animation.current_school := Animation.current_school state;
     Animation.status_text := Animation.status_text state |}.

(** The animation window: the state dictionary and the number of calls of
    [_animation_run_step] that [canvas.after] has been asked for and that
    have not been made yet. *)
Record Window : Type := mkWindow {
  w_state : Animation.state;
  pending : nat
}.

(** Whether a call of [_animation_run_step] ends with [canvas.after]: the
    return of the empty queue does not, every other return does when the
    flag is set (no branch with a queue changes the flag). *)
Definition schedules_next (state : Animation.state) : bool :=
  match Animation.unmatched state with
  | [] => false
  | _ :: _ => Animation.running state
  end.

(** [_animation_run_step] with its effect on the canvas' timers. *)
Definition run_step_on_canvas (w : Window) : result Window :=
  state' ← _animation_run_step (w_state w);
  Ok (mkWindow state'
        (pending w + (if schedules_next (w_state w) then 1 else 0))%nat).

(** The Start button. *)
Definition _animation_start (w : Window) : result Window :=
  let w' := mkWindow (with_running (negb (Animation.running (w_state w)))
                        (w_state w)) (pending w) in
  if Animation.running (w_state w') then run_step_on_canvas w' else Ok w'.

(** What happens in the window: a button is pressed, or a timer of the
    canvas fires and makes the call it was asked for. *)
Inductive UiEvent : Type :=
  | PressStart
  | PressStep
  | PressReset
  | TimerFires.

(** The Reset button reads the students and schools of the application;
    it cancels no timer. *)
Definition handle (app : App) (w : Window) (ev : UiEvent) : result Window :=
  match ev with
  | PressStart => _animation_start w
  | PressStep => run_step_on_canvas (mkWindow (with_running false (w_state w)) (pending w))
  | PressReset => Ok (mkWindow (_animation_reset app (w_state w)) (pending w))
  | TimerFires =>
    match pending w with
    | O => Ok w
    | S n => run_step_on_canvas (mkWindow (w_state w) n)
    end
  end.

Fixpoint handle_all (app : App) (w : Window) (evs : list UiEvent) : result Window :=
  match evs with
  | [] => Ok w
  | ev :: evs' => w' ← handle app w ev; handle_all app w' evs'
  end.

(** The window as [animate_matching] opens it. *)
Definition opened (app : App) : Window :=
  mkWindow (_animation_reset app blank_state) 0.



(** The window is where a run of the engine on the application's data
    gets to after the events [trace]. *)
Record on_run (app : App) (trace : list Event) (w : Window) : Prop := {
  run_steps : steps (initial_state app) trace (engine_state (w_state w));
  run_history : Animation.history (w_state w) = mjoin (recorded <$> trace);
  run_timer : Animation.running (w_state w) = true → (0 < pending w)%nat
}.

(** ** The panels of [_draw_animation_state] *)

(** The name a history entry adds to [rejected_students]. *)
Definition replaced_name (entry : HistoryEntry) : option string :=
  if bool_decide (h_action entry = Some "replaced"%string)
  then h_rejected entry else None.

(** The names listed under "Rejected Students". *)
Definition rejected_students (state : Animation.state) : gset string :=
  list_to_set (omap replaced_name (Animation.history state))
  ∖ list_to_set (Animation.unmatched state).

(** ** Runs on students that are ranked alike *)

(** The pair of a name with the score that [sd] files under the name. *)
Definition rescore (sd : gmap string StudentEntry) (p : string * Z) : string * Z :=
  (p.1, default 0 (score <$> sd !! p.1)).

Definition rescore_school (sd : gmap string StudentEntry) (d : SchoolEntry)
    : SchoolEntry :=
  mkSchoolEntry (capacity d) (rescore sd <$> accepted d).

(** Two student dictionaries with the same names and preference lists
    whose scores compare alike. *)
Record same_ranking (sd sd' : gmap string StudentEntry) : Prop := {
  sr_prefs : ∀ a, prefs <$> sd' !! a = prefs <$> sd !! a;
  sr_order : ∀ a b ea eb ea' eb',
    sd !! a = Some ea → sd !! b = Some eb →
    sd' !! a = Some ea' → sd' !! b = Some eb' →
    (score ea ≤ score eb ↔ score ea' ≤ score eb')
}.

(** [p] pairs a name of [sd] with its score. *)
Definition known_pair (sd : gmap string StudentEntry) (p : string * Z) : Prop :=
  ∃ e, sd !! p.1 = Some e ∧ score e = p.2.

(** [st'] is the state of the run on [sd'] that goes with the state [st]
    of the run on [sd]. *)
Record rescored (sd sd' : gmap string StudentEntry) (st st' : MatchState)
    : Prop := {
  rs_students : student_dict st = sd;
  rs_students' : student_dict st' = sd';
  rs_queue : unmatched st' = unmatched st;
  rs_index : pref_index st' = pref_index st;
  rs_schools : schools_dict st' = rescore_school sd' <$> schools_dict st;
  rs_accepted : ∀ s d p,
    schools_dict st !! s = Some d → p ∈ accepted d → known_pair sd p
}.

(** Two lists of students that agree, position by position, on names and
    preferences, and whose scores compare alike. *)
Definition ranked_alike (l l' : list Student.t) : Prop :=
  Forall2 (λ s s', Student.name s' = Student.name s
                   ∧ Student.preferences s' = Student.preferences s) l l'
  ∧ ∀ i j s1 s2 s1' s2',
      l !! i = Some s1 → l !! j = Some s2 →
      l' !! i = Some s1' → l' !! j = Some s2' →
      (Student.score s1 ≤ Student.score s2
       ↔ Student.score s1' ≤ Student.score s2').

(** ** The charts of the sensitivity analysis: [update_charts] *)

(** The two accumulators of [update_charts]. *)
Record Charts : Type := mkCharts {
  change_counts : list nat;
  school_allocations : gmap string (list nat)
}.

(** The body of [for school in self.schools]. *)
Definition store_allocation (adjusted_matches : gmap string (list string))
    (allocations : gmap string (list nat)) (school : string)
    : result (gmap string (list nat)) :=
  counts ← getitem allocations school;
  Ok (<[school := counts ++ [match adjusted_matches !! school with
                             | Some names => length names
                             | None => 0%nat
                             end]]> allocations).

Fixpoint store_allocations (adjusted_matches : gmap string (list string))
    (allocations : gmap string (list nat)) (keys : list string)
    : result (gmap string (list nat)) :=
  match keys with
  | [] => Ok allocations
  | school :: keys' =>
    allocations' ← store_allocation adjusted_matches allocations school;
    store_allocations adjusted_matches allocations' keys'
  end.

(** The loop [for factor in factors_to_analyze]: the application object
    after it, and the charts or the exception. *)
Fixpoint analyze_factors (fuel : nat)
    (original_matches : gmap string (list string))
    (factors : list spec_float) (app : App) (charts : Charts)
    : option (App * result Charts) :=
  match factors with
  | [] => Some (app, Ok charts)
  | factor :: factors' =>
    match _run_adjusted_matching fuel factor app with
    | None => None
    | Some (app', Raise e) => Some (app', Raise e)
    | Some (app', Ok adjusted_matches) =>
      let changes := _count_matching_changes original_matches adjusted_matches in
      match store_allocations adjusted_matches (school_allocations charts)
              (elements (dom (schools app'))) with
      | Raise e => Some (app', Raise e)
      | Ok allocations =>
        analyze_factors fuel original_matches factors' app'
          (mkCharts (change_counts charts ++ [changes]) allocations)
      end
    end
  end.

(** [update_charts], up to the plots. *)
Definition update_charts (fuel : nat)
    (original_matches : gmap string (list string))
    (factors_to_analyze : list spec_float) (app : App)
    : option (App * result Charts) :=
  analyze_factors fuel original_matches factors_to_analyze app
    (mkCharts [] ((λ _, []) <$> schools app)).

(** The charts after [n] factors. *)
Definition charted (app : App) (n : nat) (charts : Charts) : Prop :=
  length (change_counts charts) = n
  ∧ ∀ s, match schools app !! s with
         | Some school =>
           ∃ counts, school_allocations charts !! s = Some counts
             ∧ length counts = n
             ∧ Forall (λ c, Z.of_nat c ≤ School.capacity school) counts
         | None => school_allocations charts !! s = None
         end.

(** ** Applications, and the branches that are no errors *)

(** Some student applied to [s] during the iterations [evs]: the school
    accepted the student, took the student for another, or rejected the
    student. *)
Definition applied_to (evs : list Event) (s : string) : Prop :=
  ∃ a, Accepted a s ∈ evs ∨ (∃ r, Replaced a s r ∈ evs) ∨ Rejected a s ∈ evs.

(** What an iteration that found no preference left, or an unknown school,
    did to the state [st1] it started from. *)
Definition ordinary_branch (app : App) (st1 : MatchState) (ev : Event)
    (st2 : MatchState) : Prop :=
  match ev with
  | NoPrefsLeft a =>
    ∃ q e i,
      unmatched st1 = a :: q ∧ student_dict st1 !! a = Some e
      ∧ pref_index st1 !! a = Some i ∧ (length (prefs e) ≤ i)%nat
      ∧ st2 = {| student_dict := student_dict st1;
                 schools_dict := schools_dict st1;
                 unmatched := q; pref_index := pref_index st1 |}
  | UnknownSchool a s =>
    ∃ q e i,
      unmatched st1 = a :: q ∧ student_dict st1 !! a = Some e
      ∧ pref_index st1 !! a = Some i ∧ prefs e !! i = Some s
      ∧ (s ∉ dom (schools app))
      ∧ st2 = {| student_dict := student_dict st1;
                 schools_dict := schools_dict st1;
                 unmatched := q ++ [a];
                 pref_index := <[a := S i]> (pref_index st1) |}
  | _ => True
  end.

(** A school's accepted list is empty exactly as long as nobody has
    applied to the school. *)
Definition empty_until_applied (evs : list Event) (st : MatchState) : Prop :=
  ∀ s d, schools_dict st !! s = Some d →
    (accepted d = [] ↔ ¬ applied_to evs s).

(** * Entering and generating the data *)

(** ** The [random] module

    Every elementary choice of the [random] module reads the next cell of
    a tape of naturals, so that a tape fixes the outcome of every call and
    every outcome the module allows is the outcome on some tape. *)
Record Rng : Type := mkRng { tape : nat → nat; cursor : nat }.

(** Code that draws from the tape, may raise, and may run out of the fuel
    of a [while] loop ([None]). *)
Definition Gen (A : Type) : Type := Rng → option (result (A * Rng)).

Definition gen_ret {A} (x : A) : Gen A := λ r, Some (Ok (x, r)).

Definition gen_bind {A B} (m : Gen A) (k : A → Gen B) : Gen B := λ r,
  match m r with
  | None => None
  | Some (Raise e) => Some (Raise e)
  | Some (Ok (x, r')) => k x r'
  end.

Definition gen_raise {A} (e : exn) : Gen A := λ _, Some (Raise e).

(** The result of a loop with fuel, [None] when the fuel ran out. *)
Definition gen_fuel {A} (o : option A) : Gen A := λ r,
  match o with None => None | Some x => Some (Ok (x, r)) end.

(** A number below [bound]. *)
Definition draw (bound : nat) : Gen nat := λ r,
  Some (Ok ((tape r (cursor r) `mod` bound)%nat, mkRng (tape r) (S (cursor r)))).

(** [random.choice(seq)]: [IndexError] on an empty sequence. *)
Definition random_choice {A} (seq : list A) : Gen A :=
  match seq with
  | [] => gen_raise IndexError
  | _ :: _ =>
    gen_bind (draw (length seq)) (λ j,
      match seq !! j with
      | Some x => gen_ret x
      | None => gen_raise IndexError
      end)
  end.

(** [random.randint(a, b)]: [ValueError] on an empty range. *)
Definition random_randint (a b : Z) : Gen Z :=
  if bool_decide (b < a) then gen_raise ValueError
  else gen_bind (draw (Z.to_nat (b - a + 1))) (λ j, gen_ret (a + Z.of_nat j)).

(** [k] elements of distinct positions of [population], in the order of
    selection. *)
Fixpoint sample_from {A} (k : nat) (population : list A) : Gen (list A) :=
  match k with
  | O => gen_ret []
  | S k' =>
    gen_bind (draw (length population)) (λ j,
      match population !! j with
      | None => gen_raise IndexError
      | Some x =>
        gen_bind (sample_from k' (delete j population)) (λ rest,
          gen_ret (x :: rest))
      end)
  end.

(** [random.sample(population, k=k)]: [ValueError] when the sample is
    larger than the population or negative. *)
Definition random_sample {A} (population : list A) (k : Z) : Gen (list A) :=
  if bool_decide (k < 0 ∨ Z.of_nat (length population) < k)
  then gen_raise ValueError
  else sample_from (Z.to_nat k) population.

(** [for i in range(n)], for a body that does not read [i]. *)
Fixpoint for_range {X} (n : nat) (body : X → Gen X) (s : X) : Gen X :=
  match n with
  | O => gen_ret s
  | S n' => gen_bind (body s) (for_range n' body)
  end.

(** ** Random data *)

Definition school_prefixes : list string :=
  ["North"; "South"; "East"; "West"; "Central"; "Pacific";
   "Atlantic"; "Global"; "National"; "International"; "City";
   "Metro"; "Bay"; "River"; "Mountain"; "Valley"; "Lake"]%string.

Definition school_suffixes : list string :=
  ["University"; "College"; "Institute"; "Academy"; "School"]%string.

Definition first_names : list string :=
  ["Alex"; "Blake"; "Casey"; "Drew"; "Ellis"; "Francis"; "Gray"; "Harper";
   "Indigo"; "Jordan"; "Kennedy"; "Logan"; "Morgan"; "Noah"; "Parker"; "Quinn";
   "Riley"; "Sam"; "Taylor"; "Valerie"; "Wyatt"; "Xavier"; "Yael"; "Zion"]%string.

Definition last_names : list string :=
  ["Smith"; "Johnson"; "Williams"; "Brown"; "Jones"; "Miller"; "Davis"; "Garcia";
   "Rodriguez"; "Wilson"; "Martinez"; "Anderson"; "Taylor"]%string.

(** [f"{a} {b}"]. *)
Definition with_space (a b : string) : string := a +:+ " " +:+ b.

(** The loop that ensures a unique name:
    [while taken(name): name = f"{base} {attempt}"; attempt += 1]. *)
Fixpoint unique_name (fuel : nat) (taken : string → bool) (base name : string)
    (attempt : nat) : option string :=
  if taken name then
    match fuel with
    | O => None
    | S fuel' =>
      unique_name fuel' taken base (with_space base (pretty attempt)) (S attempt)
    end
  else Some name.

(** The body of the loop of [_generate_random_school_names], on
    [self.schools] and [school_names]. *)
Definition generate_school (fuel : nat) (num_students : Z)
    (acc : gmap string School.t * list string)
    : Gen (gmap string School.t * list string) :=
  let '(schools, school_names) := acc in
  gen_bind (random_choice school_prefixes) (λ prefix,
  gen_bind (random_choice school_suffixes) (λ suffix,
  let name := with_space prefix suffix in
  gen_bind (gen_fuel (unique_name fuel (λ n, bool_decide (n ∈ dom schools))
                        name name 1)) (λ name,
  gen_bind (random_randint 1 (2 `max` (num_students `div` 3))) (λ capacity,
  gen_ret (<[name := School.mk name capacity []]> schools,
           school_names ++ [name]))))).

Definition _generate_random_school_names (fuel : nat)
    (num_schools num_students : Z) (schools : gmap string School.t)
    : Gen (gmap string School.t * list string) :=
  for_range (Z.to_nat num_schools) (generate_school fuel num_students)
    (schools, []).

(** The body of the loop of [_generate_random_students], on [students]. *)
Definition generate_student (fuel : nat) (school_names : list string)
    (students : list Student.t) : Gen (list Student.t) :=
  gen_bind (random_choice first_names) (λ first_name,
  gen_bind (random_choice last_names) (λ last_name,
  let name := with_space first_name last_name in
  gen_bind (gen_fuel (unique_name fuel
                        (λ n, bool_decide (n ∈ Student.name <$> students))
                        name name 1)) (λ name,
  gen_bind (random_randint 50 100) (λ score,
  gen_bind (random_randint 1 5) (λ r,
  let num_prefs := Z.of_nat (length school_names) `min` r in
  gen_bind (random_sample school_names num_prefs) (λ preferences,
  gen_ret (students ++ [Student.mk name preferences score]))))))).

Definition _generate_random_students (fuel : nat) (num_students : Z)
    (school_names : list string) : Gen (list Student.t) :=
  for_range (Z.to_nat num_students) (generate_student fuel school_names) [].

(** [self.students = []; self.schools = {}]. *)
Definition _clear_data (app : App) : App := mkApp [] ∅.

(** [num_students] and [num_schools] are what the two dialogs return:
    [None] when the dialog is cancelled. *)
Definition generate_random_data (fuel : nat) (num_students num_schools : option Z)
    (app : App) : Gen App :=
  match num_students with
  | None | Some 0 => gen_ret app
  | Some num_students =>
    match num_schools with
    | None | Some 0 => gen_ret app
    | Some num_schools =>
      let app := _clear_data app in
      gen_bind (_generate_random_school_names fuel num_schools num_students
                  (schools app)) (λ '(schools, school_names),
      gen_bind (_generate_random_students fuel num_students school_names)
        (λ students, gen_ret (mkApp students schools)))
    end
  end.

(** What the dialogs of [generate_random_data] can return, given their
    [minvalue] and [maxvalue]. *)
Definition dialog_range (lo hi : Z) (answer : option Z) : Prop :=
  match answer with
  | None => True
  | Some n => lo ≤ n ≤ hi
  end.

(** ** The sample data *)

Definition load_sample_data (app : App) : App :=
  mkApp
    [Student.mk "Alice" ["MIT"; "Stanford"; "Harvard"]%string 95;
     Student.mk "Bob" ["Harvard"; "MIT"; "Stanford"]%string 88;
     Student.mk "Charlie" ["Stanford"; "Harvard"; "MIT"]%string 92;
     Student.mk "David" ["MIT"; "Harvard"; "Stanford"]%string 85;
     Student.mk "Eva" ["Harvard"; "Stanford"; "MIT"]%string 90;
     Student.mk "Frank" ["Stanford"; "MIT"; "Harvard"]%string 87;
     Student.mk "Grace" ["MIT"; "Stanford"; "Harvard"]%string 93;
     Student.mk "Hannah" ["Harvard"; "Stanford"; "MIT"]%string 89]
    {[ "MIT"%string := School.mk "MIT" 3 [];
       "Stanford"%string := School.mk "Stanford" 2 [];
       "Harvard"%string := School.mk "Harvard" 2 [] ]}.

Definition clear_all (app : App) : App := _clear_data app.

(** ** The input forms *)

(** The contents of the entry widgets. *)
Record StudentForm : Type := mkStudentForm {
  student_name : string;
  student_score : string;
  student_preferences : string
}.

Record SchoolForm : Type := mkSchoolForm {
  school_name : string;
  school_capacity : string
}.

(** The error boxes of the forms. *)
Inductive FormError : Type :=
  | NameAndPreferencesRequired
  | ScoreMustBeNumber
  | StudentExists (name : string)
  | SchoolNameRequired
  | CapacityMustBePositive
  | CapacityMustBeNumber
  | SchoolExists (name : string).

Section Forms.

(** The string methods the forms call: [s.strip()], [s.split(',')] and
    [int(s)], which is [None] when Python raises [ValueError]. *)
Variable py_strip : string → string.

Variable py_split : string → list string.

Variable py_int : string → option Z.

Definition _validate_student_input (form : StudentForm) (app : App)
    : FormError + (string * list string * Z) :=
  let name := py_strip (student_name form) in
  let score_str := py_strip (student_score form) in
  let preferences :=
    py_strip <$> filter (λ p, py_strip p ≠ ""%string)
                   (py_split (student_preferences form)) in
  if bool_decide (name = ""%string ∨ preferences = []) then
    inl NameAndPreferencesRequired
  else
    match py_int score_str with
    | None => inl ScoreMustBeNumber
    | Some score =>
      if bool_decide (Exists (λ student, Student.name student = name)
                        (students app))
      then inl (StudentExists name)
      else inr (name, preferences, score)
    end.

Definition _validate_school_input (form : SchoolForm) (app : App)
    : FormError + (string * Z) :=
  let name := py_strip (school_name form) in
  let capacity_str := py_strip (school_capacity form) in
  if bool_decide (name = ""%string) then inl SchoolNameRequired
  else
    match py_int capacity_str with
    | None => inl CapacityMustBeNumber
    | Some capacity =>
      if bool_decide (capacity ≤ 0) then inl CapacityMustBePositive
      else if bool_decide (name ∈ dom (schools app)) then inl (SchoolExists name)
      else inr (name, capacity)
    end.

Definition add_student (form : StudentForm) (app : App) : App :=
  match _validate_student_input form app with
  | inl _ => app
  | inr (name, preferences, score) =>
    mkApp (students app ++ [Student.mk name preferences score]) (schools app)
  end.

Definition add_school (form : SchoolForm) (app : App) : App :=
  match _validate_school_input form app with
  | inl _ => app
  | inr (name, capacity) =>
    mkApp (students app) (<[name := School.mk name capacity []]> (schools app))
  end.

(** What the user can do to the data of the main window. *)
Inductive Action : Type :=
  | AddStudent (form : StudentForm)
  | AddSchool (form : SchoolForm)
  | LoadSampleData
  | ClearAll
  | GenerateRandomData (num_students num_schools : option Z).

Definition perform (fuel : nat) (act : Action) (app : App) : Gen App :=
  match act with
  | AddStudent form => gen_ret (add_student form app)
  | AddSchool form => gen_ret (add_school form app)
  | LoadSampleData => gen_ret (load_sample_data app)
  | ClearAll => gen_ret (clear_all app)
  | GenerateRandomData num_students num_schools =>
    generate_random_data fuel num_students num_schools app
  end.

Fixpoint perform_all (fuel : nat) (acts : list Action) (app : App) : Gen App :=
  match acts with
  | [] => gen_ret app
  | act :: acts' => gen_bind (perform fuel act app) (perform_all fuel acts')
  end.

End Forms.

(** The dialogs of an action answer within their bounds. *)
Definition in_dialog_range (act : Action) : Prop :=
  match act with
  | GenerateRandomData num_students num_schools =>
    dialog_range 2 100 num_students ∧ dialog_range 2 20 num_schools
  | _ => True
  end.

(** The application as [__init__] leaves it. *)
Definition empty_app : App := mkApp [] ∅.

(** What the forms, the sample and the generator establish beyond
    [well_typed]: names are not empty, every student lists a preference,
    and a school is filed under its own name with nobody accepted. *)
Record entered (app : App) : Prop := {
  entered_well_typed : well_typed app;
  entered_students : ∀ student, student ∈ students app →
    Student.name student ≠ ""%string
    ∧ Student.preferences student ≠ []
    ∧ ∀ p, p ∈ Student.preferences student → p ≠ ""%string;
  entered_schools : ∀ key school, schools app !! key = Some school →
    School.name school = key ∧ key ≠ ""%string ∧ School.accepted school = []
}.

(** [run_matching]: the error box, or the allocation it displays. *)
Inductive MatchingOutcome : Type :=
  | NoStudentsOrSchools
  | Displayed (matches : gmap string (list string)).

Definition run_matching (fuel : nat) (app : App) : option (result MatchingOutcome) :=
  if bool_decide (students app = [] ∨ schools app = ∅) then
    Some (Ok NoStudentsOrSchools)
  else
    match gale_shapley_matching fuel app with
    | None => None
    | Some (Raise e) => Some (Raise e)
    | Some (Ok matches) => Some (Ok (Displayed matches))
    end.

(** What the loop of [_generate_random_school_names] has built after [j]
    rounds. *)
Definition schools_generated (num_students : Z) (j : nat)
    (acc : gmap string School.t * list string) : Prop :=
  length acc.2 = j ∧ NoDup acc.2 ∧ dom acc.1 = list_to_set acc.2
  ∧ ∀ key school, acc.1 !! key = Some school →
      School.name school = key ∧ key ≠ ""%string ∧ School.accepted school = []
      ∧ 1 ≤ School.capacity school ≤ 2 `max` (num_students `div` 3).

(** What the loop of [_generate_random_students] has built after [j]
    rounds. *)
Definition students_generated (school_names : list string) (j : nat)
    (students : list Student.t) : Prop :=
  length students = j ∧ NoDup (Student.name <$> students)
  ∧ ∀ student, student ∈ students →
      Student.name student ≠ ""%string
      ∧ 50 ≤ Student.score student ≤ 100
      ∧ Student.preferences student ⊆+ school_names
      ∧ (length (Student.preferences student) ≤ 5)%nat
      ∧ (school_names ≠ [] → Student.preferences student ≠ []).

(** * The strategic network simulation ([th1_Marek_Sipek.py])

    The rounds of the rock-paper-scissors simulation on the graph that
    [initialize_network] has stored.  The graph is what the code reads of
    it: its nodes and the neighbours of a node.  The draws of
    [random.choice] are read from the tape. *)

Record Graph : Type := mkGraph {
  nodes : list nat;
  neighbors : nat → list nat
}.

(** Code that cannot run out of fuel and draws nothing. *)
Definition gen_result {A} (x : result A) : Gen A := λ r,
  Some (match x with Ok a => Ok (a, r) | Raise e => Raise e end).

(** [for x in l], with the loop's variables in [s]. *)
Fixpoint for_each {X A} (l : list A) (body : X → A → Gen X) (s : X) : Gen X :=
  match l with
  | [] => gen_ret s
  | x :: l' => gen_bind (body s x) (for_each l' body)
  end.

Definition strategy_names : list string := ["rock"; "scissors"; "paper"]%string.

(** [{node: random.choice(["rock", "scissors", "paper"]) for node in
    self.graph.nodes}]. *)
Definition initialize_strategies (graph : Graph) : Gen (gmap nat string) :=
  for_each (nodes graph)
    (λ strategies node,
       gen_bind (random_choice strategy_names) (λ strategy,
       gen_ret (<[node := strategy]> strategies)))
    ∅.

Definition play_round (player1 player2 : string) : Z :=
  if bool_decide (player1 = player2) then 0
  else if bool_decide
            ((player1 = "rock"%string ∧ player2 = "scissors"%string)
             ∨ (player1 = "scissors"%string ∧ player2 = "paper"%string)
             ∨ (player1 = "paper"%string ∧ player2 = "rock"%string))
  then 1
  else -1.

(** [d[k]] on a dictionary with integer keys. *)
Definition getitem_nat {V} (d : gmap nat V) (k : nat) : result V :=
  match d !! k with Some v => Ok v | None => Raise KeyError end.

(** The body of the loop of [update_strategies]: it reads the strategies
    of the round before and writes to the copy. *)
Definition update_node (graph : Graph) (strategies : gmap nat string)
    (new_strategies : gmap nat string) (node : nat) : Gen (gmap nat string) :=
  match neighbors graph node with
  | [] => gen_ret new_strategies
  | _ :: _ =>
    gen_bind (random_choice (neighbors graph node)) (λ opponent,
    gen_bind (gen_result (getitem_nat strategies node)) (λ mine,
    gen_bind (gen_result (getitem_nat strategies opponent)) (λ theirs,
    if bool_decide (play_round mine theirs = -1)
    then gen_ret (<[node := theirs]> new_strategies)
    else gen_ret new_strategies)))
  end.

Definition update_strategies (graph : Graph) (strategies : gmap nat string)
    : Gen (gmap nat string) :=
  for_each (nodes graph) (update_node graph strategies) strategies.

(** [counts[strategy] += 1]. *)
Definition count_strategy (counts : gmap string nat) (strategy : string)
    : result (gmap string nat) :=
  n ← getitem counts strategy;
  Ok (<[strategy := (n + 1)%nat]> counts).

Fixpoint count_strategies (counts : gmap string nat) (values : list string)
    : result (gmap string nat) :=
  match values with
  | [] => Ok counts
  | strategy :: values' =>
    counts' ← count_strategy counts strategy;
    count_strategies counts' values'
  end.

(** [record_strategy_counts], for strategies that are set: the history
    with the new counts. *)
Definition record_strategy_counts (strategies : gmap nat string)
    (strategy_history : list (gmap string nat))
    : result (list (gmap string nat)) :=
  counts ← count_strategies
             {[ "rock"%string := 0%nat; "scissors"%string := 0%nat;
                "paper"%string := 0%nat ]}
             (map_to_list strategies).*2;
  Ok (strategy_history ++ [counts]).

(** [run_simulation] after [initialize_network]: the strategies and the
    history it leaves. *)
Definition run_simulation (graph : Graph) (rounds : nat)
    : Gen (gmap nat string * list (gmap string nat)) :=
  gen_bind (initialize_strategies graph) (λ strategies,
  gen_bind (gen_result (record_strategy_counts strategies [])) (λ history,
  for_range rounds
    (λ '(strategies, history),
       gen_bind (update_strategies graph strategies) (λ strategies',
       gen_bind (gen_result (record_strategy_counts strategies' history))
         (λ history', gen_ret (strategies', history'))))
    (strategies, history))).

(** Every neighbour of a node is a node. *)
Definition closed (graph : Graph) : Prop :=
  ∀ node opponent,
    node ∈ nodes graph → opponent ∈ neighbors graph node →
    opponent ∈ nodes graph.

(** The strategies are set on the nodes of the graph, to one of the three
    names. *)
Definition on_graph (graph : Graph) (strategies : gmap nat string) : Prop :=
  (∀ node, node ∈ nodes graph ↔ is_Some (strategies !! node))
  ∧ ∀ node strategy, strategies !! node = Some strategy →
      strategy ∈ strategy_names.

(** How many of [values] are [strategy]. *)
Definition tally (strategy : string) (values : list string) : nat :=
  length (filter (λ x, x = strategy) values).

(** What [update_strategies] does to a node: it keeps the strategy, or
    takes the strategy of a neighbour that has beaten it. *)
Definition imitates (graph : Graph) (strategies new_strategies : gmap nat string)
    : Prop :=
  ∀ node,
    new_strategies !! node = strategies !! node
    ∨ ∃ opponent mine theirs,
        opponent ∈ neighbors graph node
        ∧ strategies !! node = Some mine
        ∧ strategies !! opponent = Some theirs
        ∧ play_round mine theirs = -1
        ∧ new_strategies !! node = Some theirs.

(** The entry of the history for [strategies]: how many nodes play each of
    the three names. *)
Definition counts_of (strategies : gmap nat string) (counts : gmap string nat)
    : Prop :=
  ∀ s, counts !! s
       = if decide (s ∈ strategy_names)
         then Some (tally s (map_to_list strategies).*2) else None.

(** The rounds behind a history: one assignment of strategies per entry,
    each on the graph and counted by its entry, and no strategy played in
    a round that was not played in every round before it. *)
Record played (graph : Graph) (states : list (gmap nat string))
    (history : list (gmap string nat)) : Prop := {
  played_on_graph : Forall (on_graph graph) states;
  played_counts : Forall2 counts_of states history;
  played_values : ∀ i j mi mj s,
    (i ≤ j)%nat → states !! i = Some mi → states !! j = Some mj →
    s ∈ (map_to_list mj).*2 → s ∈ (map_to_list mi).*2
}.

(** Two players that face each other. *)
Definition two_players : Graph :=
  mkGraph [0%nat; 1%nat] (λ node, match node with O => [1%nat] | _ => [0%nat] end).

(** * Scenarios *)

(** Scenarios 1 to 3 of the specification. *)
Definition scenario1 : App :=
  mkApp [Student.mk "A" ["X"%string; "Y"%string] 95;
         Student.mk "B" ["X"%string; "Y"%string] 80]
        {[ "X"%string := School.mk "X" 1 []; "Y"%string := School.mk "Y" 1 [] ]}.

Definition scenario2 : App :=
  mkApp [Student.mk "A" ["X"%string] 70; Student.mk "B" ["X"%string] 90]
        {[ "X"%string := School.mk "X" 1 [] ]}.

Definition scenario3 : App :=
  mkApp [Student.mk "C" ["Ghost"%string; "Y"%string] 50]
        {[ "Y"%string := School.mk "Y" 1 [] ]}.

Definition float_one : spec_float := S754_finite false 4503599627370496 (-52).

Definition float_half : spec_float := S754_finite false 4503599627370496 (-53).

Definition big_scores : App :=
  mkApp [Student.mk "A" ["X"%string] (2 ^ 53); Student.mk "B" ["X"%string] (2 ^ 53 + 1)]
        {[ "X"%string := School.mk "X" 1 [] ]}.

Definition negative_score : App :=
  mkApp [Student.mk "A" ["X"%string] (-3)] {[ "X"%string := School.mk "X" 1 [] ]}.

(** Scenario 2: the run, and the state after its first iteration. *)
Definition scenario2_trace : list Event :=
  [Accepted "A" "X"; Replaced "B" "X" "A"; NoPrefsLeft "A"].

Definition scenario2_final : MatchState :=
  {| student_dict := make_student_dict (students scenario2);
     schools_dict := {[ "X"%string := mkSchoolEntry 1 [("B"%string, 90)] ]};
     unmatched := [];
     pref_index := {[ "A"%string := 1%nat; "B"%string := 1%nat ]} |}.

Definition scenario2_after_A : MatchState :=
  {| student_dict := make_student_dict (students scenario2);
     schools_dict := {[ "X"%string := mkSchoolEntry 1 [("A"%string, 70)] ]};
     unmatched := ["B"%string];
     pref_index := {[ "A"%string := 1%nat; "B"%string := 0%nat ]} |}.

Definition scenario3_after_ghost : Animation.state :=
  {| Animation.running := false;
     Animation.step := 1;
     Animation.student_dict := make_student_dict (students scenario3);
     Animation.schools_dict := make_schools_dict (schools scenario3);
     Animation.unmatched := ["C"%string];
     Animation.pref_index := {[ "C"%string := 1%nat ]};
     Animation.history := [];
     Animation.current_student := Some "C"%string;
     Animation.current_school := Some "Ghost"%string;
     Animation.status_text :=
       [LineInitialized; LineTotalStudents 1; LineTotalSchools 1; LinePressStart;
        LineApplies 1 "C" "Ghost"; LineNoSuchSchool "Ghost"] |}.

(** A school with two places and two applicants, the lower score first. *)
Definition two_places : App :=
  mkApp [Student.mk "A" ["X"%string] 70; Student.mk "B" ["X"%string] 90]
        {[ "X"%string := School.mk "X" 2 [] ]}.

(** A student who lists two schools and is admitted by the first. *)
Definition first_choice : App :=
  mkApp [Student.mk "A" ["X"%string; "Y"%string] 70]
        {[ "X"%string := School.mk "X" 1 []; "Y"%string := School.mk "Y" 1 [] ]}.

(** C names an unknown school and then a school that D fills. *)
Definition ghost_then_full : App :=
  mkApp [Student.mk "C" ["Ghost"%string; "Y"%string] 50;
         Student.mk "D" ["Y"%string] 60]
        {[ "Y"%string := School.mk "Y" 1 [] ]}.

(** * Lemmas and theorems *)

(** ** Exceptions and list helpers *)

Lemma bind_Ok {A B} (m : result A) (f : A → result B) (b : B) :
  (m ≫= f) = Ok b → ∃ a, m = Ok a ∧ f a = Ok b.
Proof. unfold_bind. destruct m; [eauto | discriminate]. Qed.

Lemma getitem_Ok {V} (d : gmap string V) k v : getitem d k = Ok v ↔ d !! k = Some v.
Proof. unfold getitem. destruct (d !! k); split; congruence. Qed.

Lemma list_getitem_Ok {A} (l : list A) i v : list_getitem l i = Ok v ↔ l !! i = Some v.
Proof. unfold list_getitem. destruct (l !! i); split; congruence. Qed.

Lemma list_remove_first_split `{EqDecision A} (x : A) (l1 l2 : list A) :
  x ∉ l1 → list_remove_first x (l1 ++ x :: l2) = Ok (l1 ++ l2).
Proof.
  induction l1 as [|y l1 IH]; intros Hx; simpl.
  - by rewrite decide_True.
  - apply not_elem_of_cons in Hx as [Hne Hx].
    rewrite decide_False by done. rewrite IH by done. reflexivity.
Qed.

(** ** Sorting *)

Lemma sorted_insert_Permutation r x l : sorted_insert r x l ≡ₚ x :: l.
Proof.
  induction l as [|y l IH]; simpl; [done|].
  destruct (key_le r x y); [done|]. rewrite IH. apply Permutation_swap.
Qed.

Lemma sorted_Permutation r l : sorted r l ≡ₚ l.
Proof.
  induction l as [|x l IH]; simpl; [done|].
  rewrite sorted_insert_Permutation. by rewrite IH.
Qed.

(** The head of the ascending sort is the first element, in list order,
    among those of minimal score. *)
Lemma sorted_head_first_min l low t :
  sorted false l = low :: t →
  ∃ l1 l2, l = l1 ++ low :: l2
    ∧ (∀ x, x ∈ l1 → low.2 < x.2) ∧ (∀ x, x ∈ l2 → low.2 ≤ x.2).
Proof.
  revert low t. induction l as [|x l IH]; intros low t; simpl; [discriminate|].
  destruct (sorted false l) as [|low' t'] eqn:Hs; simpl.
  - intros [= <- <-]. assert (l = []) as ->.
    { apply Permutation_nil_r. by rewrite <- Hs, sorted_Permutation. }
    exists [], []. split; [done|]. split; intros y Hy; by apply elem_of_nil in Hy.
  - destruct (IH _ _ eq_refl) as (l1 & l2 & -> & H1 & H2).
    unfold key_le. case_bool_decide as Hle; intros [= <- <-].
    + exists [], (l1 ++ low' :: l2). split; [done|].
      split; [intros y Hy; by apply elem_of_nil in Hy|].
      intros y Hy. apply elem_of_app in Hy as [Hy|Hy].
      * specialize (H1 _ Hy). lia.
      * apply elem_of_cons in Hy as [->|Hy]; [lia|]. specialize (H2 _ Hy). lia.
    + exists (x :: l1), l2. split; [done|]. split; [|done].
      intros y Hy. apply elem_of_cons in Hy as [->|Hy]; [lia|]. by apply H1.
Qed.

Lemma sorted_nonempty r l : l ≠ [] → ∃ x t, sorted r l = x :: t.
Proof.
  intros Hl. destruct (sorted r l) as [|x t] eqn:Hs; [|eauto].
  destruct Hl. apply Permutation_nil_r. by rewrite <- Hs, sorted_Permutation.
Qed.

(** ** The dictionaries built from the input *)

Lemma make_student_dict_snoc l s :
  make_student_dict (l ++ [s]) =
  <[Student.name s := mkStudentEntry (Student.preferences s) (Student.score s)]>
    (make_student_dict l).
Proof. unfold make_student_dict. by rewrite foldl_snoc. Qed.

Lemma make_pref_index_snoc l s :
  make_pref_index (l ++ [s]) = <[Student.name s := 0%nat]> (make_pref_index l).
Proof. unfold make_pref_index. by rewrite foldl_snoc. Qed.

Lemma make_student_dict_lookup l n e :
  make_student_dict l !! n = Some e →
  ∃ s, s ∈ l ∧ Student.name s = n
     ∧ e = mkStudentEntry (Student.preferences s) (Student.score s).
Proof.
  induction l as [|s l IH] using rev_ind.
  { unfold make_student_dict. simpl. by rewrite lookup_empty. }
  rewrite make_student_dict_snoc.
  destruct (decide (Student.name s = n)) as [Heq|Hne].
  - rewrite <- Heq, lookup_insert_eq. intros [= <-].
    exists s. rewrite elem_of_app, list_elem_of_singleton. eauto.
  - rewrite lookup_insert_ne by done. intros (s' & ? & ? & ?)%IH.
    exists s'. rewrite elem_of_app. eauto.
Qed.

Lemma make_student_dict_elem l s :
  s ∈ l → is_Some (make_student_dict l !! Student.name s).
Proof.
  induction l as [|s' l IH] using rev_ind; [by intros ?%elem_of_nil|].
  rewrite make_student_dict_snoc, elem_of_app, list_elem_of_singleton.
  destruct (decide (Student.name s' = Student.name s)) as [Heq|Hne].
  - rewrite Heq, lookup_insert_eq. eauto.
  - rewrite lookup_insert_ne by done. intros [?| ->]; [eauto | done].
Qed.

Lemma make_student_dict_NoDup l s :
  NoDup (Student.name <$> l) → s ∈ l →
  make_student_dict l !! Student.name s
  = Some (mkStudentEntry (Student.preferences s) (Student.score s)).
Proof.
  induction l as [|s' l IH] using rev_ind; [by intros _ ?%elem_of_nil|].
  rewrite fmap_app, NoDup_app. simpl. intros (Hl & Hdisj & _).
  rewrite make_student_dict_snoc, elem_of_app, list_elem_of_singleton.
  intros [Hs| ->]; [|by rewrite lookup_insert_eq].
  rewrite lookup_insert_ne; [by apply IH|].
  intros Heq. apply (Hdisj (Student.name s)).
  - apply list_elem_of_fmap. eauto.
  - rewrite Heq. apply list_elem_of_singleton. done.
Qed.

Lemma make_pref_index_lookup l n :
  make_pref_index l !! n = if decide (n ∈ Student.name <$> l) then Some 0%nat else None.
Proof.
  induction l as [|s l IH] using rev_ind.
  { unfold make_pref_index. simpl. by rewrite lookup_empty. }
  rewrite make_pref_index_snoc, fmap_app. simpl.
  destruct (decide (Student.name s = n)) as [Heq|Hne].
  - rewrite <- Heq, lookup_insert_eq. rewrite decide_True; [done|].
    rewrite elem_of_app, list_elem_of_singleton. auto.
  - rewrite lookup_insert_ne by done. rewrite IH.
    repeat case_decide; try done.
    + exfalso. rewrite elem_of_app in *. tauto.
    + exfalso. rewrite elem_of_app, list_elem_of_singleton in *.
      intuition congruence.
Qed.

(** ** One iteration, case by case *)

Lemma first_min_not_before (l1 : list (string * Z)) low :
  (∀ x, x ∈ l1 → low.2 < x.2) → low ∉ l1.
Proof. intros H Hin. specialize (H _ Hin). lia. Qed.

Lemma match_iteration_spec st ev st' :
  match_iteration st = Ok (ev, st') → iteration st ev st'.
Proof.
  unfold match_iteration. destruct (unmatched st) as [|a q] eqn:Hq; [discriminate|].
  intros (e & He%getitem_Ok & H)%bind_Ok.
  apply bind_Ok in H as (i & Hi%getitem_Ok & H).
  case_bool_decide as Hlen.
  { injection H as <- <-. by eapply iteration_no_prefs. }
  apply bind_Ok in H as (s & Hs%list_getitem_Ok & H).
  destruct (schools_dict st !! s) as [d|] eqn:Hd.
  2:{ injection H as <- <-. by eapply iteration_unknown. }
  case_bool_decide as Hcap.
  { injection H as <- <-. by eapply iteration_accept. }
  apply bind_Ok in H as (low & Hlow%list_getitem_Ok & H).
  destruct (sorted false (accepted d)) as [|low' t] eqn:Hsorted; [discriminate|].
  injection Hlow as ->.
  destruct (sorted_head_first_min _ _ _ Hsorted) as (l1 & l2 & Hacc & H1 & H2).
  case_bool_decide as Hlt.
  - apply bind_Ok in H as (rem & Hrem & H).
    rewrite Hacc, list_remove_first_split in Hrem
      by by apply first_min_not_before.
    injection Hrem as <-. injection H as <- <-.
    eapply iteration_replace; eauto; lia.
  - injection H as <- <-. eapply iteration_reject; eauto; lia.
Qed.

(** ** Runs and the loop *)

Lemma steps_app st1 evs1 st2 evs2 st3 :
  steps st1 evs1 st2 → steps st2 evs2 st3 → steps st1 (evs1 ++ evs2) st3.
Proof. induction 1; simpl; [done|]. intros. eapply steps_cons; eauto. Qed.

Lemma steps_app_inv st1 evs1 evs2 st3 :
  steps st1 (evs1 ++ evs2) st3 →
  ∃ st2, steps st1 evs1 st2 ∧ steps st2 evs2 st3.
Proof.
  revert st1. induction evs1 as [|ev evs1 IH]; simpl; intros st1 H.
  - exists st1. split; [constructor | done].
  - inversion H as [|? ? st' ? ? Hit Hrest]; subst.
    destruct (IH _ Hrest) as (st2 & ? & ?).
    exists st2. split; [by eapply steps_cons | done].
Qed.

Lemma match_loop_steps fuel st evs st' :
  match_loop fuel st = Some (Ok (evs, st')) →
  steps st evs st' ∧ unmatched st' = [] ∧ (length evs ≤ fuel)%nat.
Proof.
  revert st evs. induction fuel as [|fuel IH]; intros st evs; simpl.
  - destruct (unmatched st) eqn:Hq; [|discriminate].
    intros [= <- <-]. split; [constructor | by split].
  - destruct (unmatched st) eqn:Hq.
    { intros [= <- <-]. split; [constructor | split; [done | simpl; lia]]. }
    destruct (match_iteration st) as [[ev st1]|] eqn:Hit; [|discriminate].
    destruct (match_loop fuel st1) as [[[evs1 st2]|]|] eqn:Hloop; try discriminate.
    intros [= <- <-]. destruct (IH _ _ Hloop) as (? & ? & ?).
    split; [by eapply steps_cons | split; [done | simpl; lia]].
Qed.

Lemma steps_match_loop st evs st' fuel :
  steps st evs st' → unmatched st' = [] → (length evs ≤ fuel)%nat →
  match_loop fuel st = Some (Ok (evs, st')).
Proof.
  intros H Hq. revert fuel.
  induction H as [st|st ev st1 evs st2 Hit Hrest IH]; intros fuel Hlen.
  - destruct fuel; simpl; by rewrite Hq.
  - destruct fuel as [|fuel]; simpl in *; [lia|].
    destruct (unmatched st) eqn:Hst.
    { unfold match_iteration in Hit. by rewrite Hst in Hit. }
    rewrite Hit. rewrite IH; [done | done | lia].
Qed.

(** ** Termination *)

Lemma sum_list_with_ext_in {A} (f g : A → nat) (l : list A) :
  (∀ x, x ∈ l → f x = g x) → sum_list_with f l = sum_list_with g l.
Proof.
  induction l as [|x l IH]; intros H; simpl; [done|].
  rewrite (H x), IH; [done | | by left]. intros y Hy. apply H. by right.
Qed.

Lemma sum_list_with_le_in {A} (f g : A → nat) (l : list A) :
  (∀ x, x ∈ l → (f x ≤ g x)%nat) → (sum_list_with f l ≤ sum_list_with g l)%nat.
Proof.
  induction l as [|x l IH]; intros H; simpl; [done|].
  assert (f x ≤ g x)%nat by (apply H; by left).
  assert (sum_list_with f l ≤ sum_list_with g l)%nat; [|lia].
  apply IH. intros y Hy. apply H. by right.
Qed.

Lemma untried_advance (m : gmap string StudentEntry) st st' a e i :
  pref_index st' = <[a := S i]> (pref_index st) →
  m !! a = Some e → pref_index st !! a = Some i → (i < length (prefs e))%nat →
  (sum_list_with (untried st') (map_to_list m) + 1
   = sum_list_with (untried st) (map_to_list m))%nat.
Proof.
  intros Hpi He Hi Hlt.
  rewrite <- (map_to_list_delete m a e He). simpl.
  rewrite (sum_list_with_ext_in (untried st') (untried st)).
  - unfold untried at 1 3. simpl. rewrite Hpi, lookup_insert_eq, Hi. simpl. lia.
  - intros [k x] [Hne _]%elem_of_map_to_list%lookup_delete_Some.
    unfold untried. simpl. by rewrite Hpi, lookup_insert_ne.
Qed.

Lemma iteration_measure st ev st' :
  iteration st ev st' → (measure st' < measure st)%nat.
Proof.
  destruct 1 as [a q e i Hq He Hi Hlen | a q e i s Hq He Hi Hs Hd
    | a q e i s d Hq He Hi Hs Hd Hcap
    | a q e i s d l1 low l2 Hq He Hi Hs Hd Hcap Hacc H1 H2 Hlt
    | a q e i s d l1 low l2 Hq He Hi Hs Hd Hcap Hacc H1 H2 Hlt];
    unfold measure; rewrite Hq; simpl.
  - rewrite (sum_list_with_ext_in _ (untried st)) by done. lia.
  - apply lookup_lt_Some in Hs.
    rewrite <- (untried_advance (student_dict st) st
      (with_queue st (q ++ [a]) (<[a:=S i]> (pref_index st))) a e i) by done.
    simpl. rewrite length_app. simpl. lia.
  - apply lookup_lt_Some in Hs.
    rewrite <- (untried_advance (student_dict st) st
      (with_accepted st s d (accepted d ++ [(a, score e)]) q
         (<[a:=S i]> (pref_index st))) a e i) by done.
    simpl. lia.
  - apply lookup_lt_Some in Hs.
    rewrite <- (untried_advance (student_dict st) st
      (with_accepted st s d ((l1 ++ l2) ++ [(a, score e)]) (q ++ [low.1])
         (<[a:=S i]> (pref_index st))) a e i) by done.
    simpl. rewrite length_app. simpl. lia.
  - apply lookup_lt_Some in Hs.
    rewrite <- (untried_advance (student_dict st) st
      (with_queue st (q ++ [a]) (<[a:=S i]> (pref_index st))) a e i) by done.
    simpl. rewrite length_app. simpl. lia.
Qed.

Lemma match_loop_terminates fuel st :
  (measure st ≤ fuel)%nat → is_Some (match_loop fuel st).
Proof.
  revert st. induction fuel as [|fuel IH]; intros st Hm; simpl.
  - destruct (unmatched st) eqn:Hq; [eauto|].
    unfold measure in Hm. rewrite Hq in Hm. simpl in Hm. lia.
  - destruct (unmatched st) eqn:Hq; [eauto|].
    destruct (match_iteration st) as [[ev st1]|] eqn:Hit; [|eauto].
    apply match_iteration_spec, iteration_measure in Hit.
    destruct (IH st1) as [[[evs st2]|] ->]; [lia|eauto..].
Qed.

Lemma sum_map_to_list_insert_le {V} (f : string * V → nat) (m : gmap string V) k v :
  (sum_list_with f (map_to_list (<[k:=v]> m))
   ≤ f (k, v) + sum_list_with f (map_to_list m))%nat.
Proof.
  destruct (m !! k) as [x|] eqn:Hk.
  - rewrite <- insert_delete_eq.
    rewrite map_to_list_insert by apply lookup_delete_eq.
    rewrite <- (map_to_list_delete m k x Hk). simpl. lia.
  - rewrite map_to_list_insert by done. simpl. lia.
Qed.

Lemma initial_measure app : (measure (initial_state app) ≤ pop_bound app)%nat.
Proof.
  unfold measure, pop_bound. simpl. rewrite length_fmap.
  apply Nat.add_le_mono_l.
  etrans; [apply (sum_list_with_le_in _ (λ ke, length (prefs ke.2)))|].
  { intros ke _. unfold untried. lia. }
  induction (students app) as [|s l IH] using rev_ind.
  { unfold make_student_dict. simpl. by rewrite map_to_list_empty. }
  rewrite make_student_dict_snoc, sum_list_with_app. simpl.
  etrans; [apply sum_map_to_list_insert_le|]. simpl. lia.
Qed.

Lemma match_loop_mono fuel fuel' st evs st' :
  match_loop fuel st = Some (Ok (evs, st')) → (fuel ≤ fuel')%nat →
  match_loop fuel' st = Some (Ok (evs, st')).
Proof.
  intros (Hsteps & Hq & Hlen)%match_loop_steps Hle.
  apply steps_match_loop; [done | done | lia].
Qed.

(** ** The states of a run are consistent with the input *)

Lemma with_accepted_lookup (sd : gmap string SchoolEntry) s c acc s' d' :
  <[s := mkSchoolEntry c acc]> sd !! s' = Some d' →
  (s' = s ∧ d' = mkSchoolEntry c acc) ∨ (s' ≠ s ∧ sd !! s' = Some d').
Proof.
  rewrite lookup_insert_Some. intros [[<- <-]|[? ?]]; [left | right]; auto.
Qed.

Lemma consistent_initial app : well_typed app → consistent app (initial_state app).
Proof.
  intros [_ Hpos]. split; simpl.
  - done.
  - intros s. unfold make_schools_dict. rewrite lookup_fmap.
    by destruct (schools app !! s).
  - intros a (stu & -> & Hstu)%list_elem_of_fmap. split.
    + by apply make_student_dict_elem.
    + rewrite make_pref_index_lookup, decide_True; [eauto|].
      apply list_elem_of_fmap. eauto.
  - intros s d a sc. unfold make_schools_dict. rewrite lookup_fmap.
    destruct (schools app !! s); simpl; [|done].
    intros [= <-]. simpl. by intros ?%elem_of_nil.
  - intros s d. unfold make_schools_dict. rewrite lookup_fmap.
    destruct (schools app !! s) as [school|] eqn:Hs; simpl; [|done].
    intros [= <-]. simpl. specialize (Hpos s school Hs). simpl in Hpos. lia.
Qed.

Lemma consistent_capacity_positive app st s d :
  well_typed app → consistent app st → schools_dict st !! s = Some d → 0 < capacity d.
Proof.
  intros [_ Hcap] Hc Hd. pose proof (cons_schools _ _ Hc s) as Hs.
  rewrite Hd in Hs. simpl in Hs.
  destruct (schools app !! s) as [school|] eqn:Hschool; [|done].
  injection Hs as ->. by apply (Hcap s school).
Qed.

Lemma is_Some_insert_keep (m : gmap string nat) a v b :
  is_Some (m !! b) → is_Some (<[a:=v]> m !! b).
Proof. rewrite lookup_insert_is_Some. destruct (decide (a = b)); auto. Qed.

Lemma consistent_iteration app st ev st' :
  consistent app st → iteration st ev st' → consistent app st'.
Proof.
  intros [Hsd Hsch Hqu Hacc Hcap].
  assert (Hkeep : ∀ a v s d b sc,
    schools_dict st !! s = Some d → (b, sc) ∈ accepted d →
    ∃ e, student_dict st !! b = Some e ∧ score e = sc ∧ s ∈ prefs e
         ∧ is_Some (<[a:=v]> (pref_index st) !! b)).
  { intros a v s d b sc Hd Hb.
    destruct (Hacc _ _ _ _ Hd Hb) as (eb & ? & ? & ? & ?).
    exists eb. repeat split; try done. by apply is_Some_insert_keep. }
  destruct 1 as [a q e i Hq He Hi Hlen | a q e i s Hq He Hi Hs Hd
    | a q e i s d Hq He Hi Hs Hd Hlt
    | a q e i s d l1 low l2 Hq He Hi Hs Hd Hfull Hsplit H1 H2 Hlt
    | a q e i s d l1 low l2 Hq He Hi Hs Hd Hfull Hsplit H1 H2 Hlt].
  - split; simpl; try done.
    intros b Hb. apply Hqu. rewrite Hq. by right.
  - split; simpl; try done; [|by eauto].
    intros b Hb.
    apply elem_of_app in Hb as [Hb|Hb%list_elem_of_singleton].
    + destruct (Hqu b) as [? ?]; [rewrite Hq; by right|].
      split; [done | by apply is_Some_insert_keep].
    + subst b. split; [eauto|]. rewrite lookup_insert_eq. eauto.
  - split; simpl; try done.
    + intros s'. destruct (decide (s = s')) as [<-|Hne].
      * rewrite lookup_insert_eq. simpl. rewrite <- Hsch, Hd. done.
      * by rewrite lookup_insert_ne.
    + intros b Hb.
      destruct (Hqu b) as [? ?]; [rewrite Hq; by right|].
      split; [done | by apply is_Some_insert_keep].
    + intros s' d' b sc [[-> ->]|[Hne Hd']]%with_accepted_lookup Hb; [|by eauto].
      simpl in Hb.
      apply elem_of_app in Hb as [Hb|Hb%list_elem_of_singleton]; [by eauto|].
      injection Hb as -> ->. exists e.
      repeat split; [done | | ].
      * eapply list_elem_of_lookup_2. done.
      * rewrite lookup_insert_eq. eauto.
    + intros s' d' [[-> ->]|[Hne Hd']]%with_accepted_lookup; simpl.
      * rewrite length_app. simpl. lia.
      * by apply (Hcap s').
  - assert (Hlow : low ∈ accepted d).
    { rewrite Hsplit, elem_of_app. right. by left. }
    split; simpl; try done.
    + intros s'. destruct (decide (s = s')) as [<-|Hne].
      * rewrite lookup_insert_eq. simpl. rewrite <- Hsch, Hd. done.
      * by rewrite lookup_insert_ne.
    + intros b Hb.
      apply elem_of_app in Hb as [Hb|Hb%list_elem_of_singleton].
      * destruct (Hqu b) as [? ?]; [rewrite Hq; by right|].
        split; [done | by apply is_Some_insert_keep].
      * subst b. destruct low as [b sc].
        destruct (Hacc _ _ _ _ Hd Hlow) as (eb & ? & ? & ? & ?). simpl.
        split; [eauto | by apply is_Some_insert_keep].
    + intros s' d' b sc [[-> ->]|[Hne Hd']]%with_accepted_lookup Hb; [|by eauto].
      simpl in Hb.
      apply elem_of_app in Hb as [Hb|Hb%list_elem_of_singleton].
      * apply (Hkeep _ _ s d); [done|].
        rewrite Hsplit. rewrite !elem_of_app in *. rewrite elem_of_cons. tauto.
      * injection Hb as -> ->. exists e.
        repeat split; [done | | ].
        -- eapply list_elem_of_lookup_2. done.
        -- rewrite lookup_insert_eq. eauto.
    + intros s' d' [[-> ->]|[Hne Hd']]%with_accepted_lookup; simpl.
      * pose proof (Hcap _ _ Hd) as Hle. rewrite Hsplit in Hle.
        rewrite !length_app in *. simpl in *. lia.
      * by apply (Hcap s').
  - split; simpl; try done; [|by eauto].
    intros b Hb.
    apply elem_of_app in Hb as [Hb|Hb%list_elem_of_singleton].
    + destruct (Hqu b) as [? ?]; [rewrite Hq; by right|].
      split; [done | by apply is_Some_insert_keep].
    + subst b. split; [eauto|]. rewrite lookup_insert_eq. eauto.
Qed.

(** For well-typed input no iteration raises. *)
Lemma match_iteration_total app st :
  well_typed app → consistent app st → unmatched st ≠ [] →
  ∃ ev st', match_iteration st = Ok (ev, st').
Proof.
  intros Hwt Hc Hne. unfold match_iteration.
  destruct (unmatched st) as [|a q] eqn:Hq; [done|].
  destruct (cons_queue _ _ Hc a) as [[e He] [i Hi]]; [rewrite Hq; by left|].
  unfold getitem. rewrite He, Hi. unfold_bind. cbn.
  case_bool_decide as Hlen; [eauto|].
  destruct (lookup_lt_is_Some_2 (prefs e) i) as [s Hs]; [lia|].
  unfold list_getitem. rewrite Hs.
  destruct (schools_dict st !! s) as [d|] eqn:Hd; [|eauto].
  case_bool_decide as Hcap; [eauto|].
  pose proof (consistent_capacity_positive _ _ _ _ Hwt Hc Hd) as Hpos.
  destruct (sorted_nonempty false (accepted d)) as (low & t & Hsorted).
  { intros Hnil. rewrite Hnil in Hcap. simpl in Hcap. lia. }
  rewrite Hsorted. simpl.
  destruct (sorted_head_first_min _ _ _ Hsorted) as (l1 & l2 & Hacc & H1 & H2).
  case_bool_decide; [|eauto].
  rewrite Hacc, list_remove_first_split by by apply first_min_not_before.
  eauto.
Qed.

Lemma consistent_steps app st evs st' :
  consistent app st → steps st evs st' → consistent app st'.
Proof.
  intros Hc Hsteps. induction Hsteps as [|st ev st1 evs st2 Hit _ IH]; [done|].
  apply IH. eapply consistent_iteration; [done|]. by apply match_iteration_spec.
Qed.

Lemma match_loop_no_raise app fuel st e :
  well_typed app → consistent app st → match_loop fuel st ≠ Some (Raise e).
Proof.
  intros Hwt. revert st.
  induction fuel as [|fuel IH]; intros st Hc; simpl;
    destruct (unmatched st) eqn:Hq; try done.
  destruct (match_iteration_total app st) as (ev & st1 & Hit); [done..| |].
  { by rewrite Hq. }
  rewrite Hit. specialize (IH st1).
  destruct (match_loop fuel st1) as [[[evs st2]|e']|]; try done.
  intros [= ->]. apply IH; [|done].
  eapply consistent_iteration; [done|]. by apply match_iteration_spec.
Qed.

(** The engine finishes, without raising, within [pop_bound] pops. *)
Lemma match_loop_finishes app fuel :
  well_typed app → (pop_bound app ≤ fuel)%nat →
  ∃ evs st, match_loop fuel (initial_state app) = Some (Ok (evs, st)).
Proof.
  intros Hwt Hfuel.
  destruct (match_loop_terminates fuel (initial_state app)) as [[[evs st]|e] Hr].
  - pose proof (initial_measure app). lia.
  - eauto.
  - exfalso. eapply match_loop_no_raise; [done | | done]. by apply consistent_initial.
Qed.

(** ** No applicant is in two places *)

Lemma distinct_initial app : well_typed app → distinct (initial_state app).
Proof.
  intros [Hnd _]. split; simpl; [done|..].
  - intros s d. unfold make_schools_dict. rewrite lookup_fmap.
    destruct (schools app !! s); simpl; [|done]. intros [= <-]. simpl. constructor.
  - intros s d a. unfold make_schools_dict. rewrite lookup_fmap.
    destruct (schools app !! s); simpl; [|done].
    intros [= <-]. simpl. by intros ?%elem_of_nil.
  - intros s1 s2 d1 d2 a _. unfold make_schools_dict. rewrite lookup_fmap.
    destruct (schools app !! s1); simpl; [|done].
    intros [= <-]. simpl. by intros _ ?%elem_of_nil.
Qed.

Lemma distinct_with_queue st q' pi :
  distinct st → NoDup q' → (∀ x, x ∈ q' → x ∈ unmatched st) →
  distinct (with_queue st q' pi).
Proof.
  intros [Hq Hacc Hqa Hsch] Hnd Hsub. split; simpl; [done | done | | done].
  intros s d a Hd Ha Hin. by apply (Hqa s d a Hd Ha), Hsub.
Qed.

Lemma distinct_with_accepted st s d acc' q' pi :
  distinct st → schools_dict st !! s = Some d →
  NoDup q' → NoDup acc'.*1 → (∀ x, x ∈ acc'.*1 → x ∉ q') →
  (∀ x, x ∈ acc'.*1 → x ∈ (accepted d).*1 ∨ x ∈ unmatched st) →
  (∀ x, x ∈ q' → x ∈ unmatched st ∨ x ∈ (accepted d).*1) →
  distinct (with_accepted st s d acc' q' pi).
Proof.
  intros [Hq Hacc Hqa Hsch] Hd Hndq Hnda Hdisj Hfrom Hqfrom.
  split; simpl; [done|..].
  - intros s' d' [[-> ->]|[Hne Hd']]%with_accepted_lookup; [done|]. by eapply Hacc.
  - intros s' d' a [[-> ->]|[Hne Hd']]%with_accepted_lookup Ha; simpl in *.
    + by apply Hdisj.
    + intros [Hin|Hin]%Hqfrom.
      * by apply (Hqa s' d' a).
      * by apply (Hsch s' s d' d a).
  - intros s1 s2 d1 d2 a Hne
      [[-> ->]|[Hne1 Hd1]]%with_accepted_lookup
      [[-> ->]|[Hne2 Hd2]]%with_accepted_lookup Ha; simpl in *; [done|..].
    + destruct (Hfrom _ Ha) as [Hin|Hin].
      * by apply (Hsch s s2 d d2 a).
      * intros Hin2. by apply (Hqa s2 d2 a).
    + intros [Hin|Hin]%Hfrom.
      * by apply (Hsch s1 s d1 d a).
      * by apply (Hqa s1 d1 a).
    + by apply (Hsch s1 s2 d1 d2 a).
Qed.

Lemma NoDup_snoc (l : list string) x : NoDup l → x ∉ l → NoDup (l ++ [x]).
Proof.
  intros Hl Hx. apply NoDup_app. split; [done|]. split; [|apply NoDup_singleton].
  intros y Hy ->%list_elem_of_singleton. done.
Qed.

Lemma distinct_iteration st ev st' :
  distinct st → iteration st ev st' → distinct st'.
Proof.
  intros Hdist.
  destruct 1 as [a q e i Hq He Hi Hlen | a q e i s Hq He Hi Hs Hd
    | a q e i s d Hq He Hi Hs Hd Hlt
    | a q e i s d l1 low l2 Hq He Hi Hs Hd Hfull Hsplit H1 H2 Hlt
    | a q e i s d l1 low l2 Hq He Hi Hs Hd Hfull Hsplit H1 H2 Hlt];
    pose proof (dist_queue _ Hdist) as Hndq; rewrite Hq in Hndq;
    apply NoDup_cons in Hndq as [Haq Hndq].
  - apply distinct_with_queue; [done | done |].
    intros x Hx. rewrite Hq. by right.
  - apply distinct_with_queue; [done | by apply NoDup_snoc |].
    intros x Hx. rewrite Hq. apply elem_of_app in Hx as [?|?%list_elem_of_singleton].
    + by right.
    + subst. by left.
  - assert (Ha : a ∉ (accepted d).*1).
    { intros Hin. apply (dist_queue_accepted _ Hdist s d a Hd Hin). rewrite Hq. by left. }
    apply distinct_with_accepted; try done.
    + rewrite fmap_app. apply NoDup_snoc; [by eapply dist_accepted | done].
    + intros x. rewrite fmap_app, elem_of_app. simpl.
      intros [Hx| ->%list_elem_of_singleton]; [|done].
      intros Hxq. apply (dist_queue_accepted _ Hdist s d x Hd Hx). rewrite Hq. by right.
    + intros x. rewrite fmap_app, elem_of_app. simpl.
      intros [Hx| ->%list_elem_of_singleton]; [by left|]. right. rewrite Hq. by left.
    + intros x Hx. left. rewrite Hq. by right.
  - assert (Ha : a ∉ (accepted d).*1).
    { intros Hin. apply (dist_queue_accepted _ Hdist s d a Hd Hin). rewrite Hq. by left. }
    pose proof (dist_accepted _ Hdist s d Hd) as Hnd.
    rewrite Hsplit, fmap_app, fmap_cons in Hnd, Ha.
    assert (Hperm : l1.*1 ++ low.1 :: l2.*1 ≡ₚ low.1 :: (l1 ++ l2).*1).
    { rewrite fmap_app. symmetry. apply Permutation_middle. }
    rewrite Hperm in Hnd, Ha. apply NoDup_cons in Hnd as [Hlow Hnd].
    apply not_elem_of_cons in Ha as [Hne Ha].
    assert (Hlowq : low.1 ∉ a :: q).
    { rewrite <- Hq. apply (dist_queue_accepted _ Hdist s d); [done|].
      rewrite Hsplit, fmap_app, fmap_cons, Hperm. by left. }
    apply not_elem_of_cons in Hlowq as [_ Hlowq].
    assert (Hsub : ∀ x, x ∈ (l1 ++ l2).*1 → x ∈ (accepted d).*1).
    { intros x Hx. rewrite Hsplit, fmap_app, fmap_cons, Hperm. by right. }
    apply distinct_with_accepted; try done.
    + by apply NoDup_snoc.
    + rewrite fmap_app. by apply NoDup_snoc.
    + intros x. rewrite fmap_app, !elem_of_app. simpl.
      rewrite !list_elem_of_singleton.
      intros [Hx| ->] [Hxq| ->]; try done.
      apply (dist_queue_accepted _ Hdist s d x Hd); [by apply Hsub|].
      rewrite Hq. by right.
    + intros x. rewrite fmap_app, elem_of_app. simpl.
      intros [Hx| ->%list_elem_of_singleton]; [left; by apply Hsub|].
      right. rewrite Hq. by left.
    + intros x. rewrite elem_of_app, list_elem_of_singleton. intros [Hx| ->].
      * left. rewrite Hq. by right.
      * right. rewrite Hsplit, fmap_app, fmap_cons, Hperm. by left.
  - apply distinct_with_queue; [done | by apply NoDup_snoc |].
    intros x Hx. rewrite Hq. apply elem_of_app in Hx as [?|?%list_elem_of_singleton].
    + by right.
    + subst. by left.
Qed.

Lemma distinct_steps st evs st' : distinct st → steps st evs st' → distinct st'.
Proof.
  intros Hd Hsteps. induction Hsteps as [|st ev st1 evs st2 Hit _ IH]; [done|].
  apply IH. eapply distinct_iteration; [done|]. by apply match_iteration_spec.
Qed.

(** ** What a school turned away is no better than what it holds *)

Lemma turned_away_snoc evs ev s b :
  turned_away (evs ++ [ev]) s b ↔
  turned_away evs s b ∨ ev = Rejected b s ∨ ∃ a, ev = Replaced a s b.
Proof.
  unfold turned_away. rewrite elem_of_app, list_elem_of_singleton. split.
  - intros [[?|?]|(a & [?|?%list_elem_of_singleton]%elem_of_app)]; eauto.
  - intros [[?|(a & ?)]|[?|(a & ?)]]; eauto.
    + right. exists a. rewrite elem_of_app. auto.
    + right. exists a. rewrite elem_of_app, list_elem_of_singleton. auto.
Qed.

Lemma stable_iteration app evs st ev st' :
  consistent app st → stable_so_far evs st → iteration st ev st' →
  stable_so_far (evs ++ [ev]) st'.
Proof.
  intros Hc Hst.
  destruct 1 as [a q e i Hq He Hi Hlen | a q e i s Hq He Hi Hs Hd
    | a q e i s d Hq He Hi Hs Hd Hlt
    | a q e i s d l1 low l2 Hq He Hi Hs Hd Hfull Hsplit H1 H2 Hlt
    | a q e i s d l1 low l2 Hq He Hi Hs Hd Hfull Hsplit H1 H2 Hlt];
    intros s' d' b eb; simpl; rewrite turned_away_snoc.
  - intros Hd' [Hb|[?|[? ?]]] Heb; try done. by eapply Hst.
  - intros Hd' [Hb|[?|[? ?]]] Heb; try done. by eapply Hst.
  - intros [[-> ->]|[Hne Hd']]%with_accepted_lookup [Hb|[?|[? ?]]] Heb; try done.
    + destruct (Hst _ _ _ _ Hd Hb Heb) as [Hge _]. lia.
    + by eapply Hst.
  - intros [[-> ->]|[Hne Hd']]%with_accepted_lookup [Hb|[?|[a' Hev]]] Heb;
      try done; simpl.
    + destruct (Hst _ _ _ _ Hd Hb Heb) as [Hge Hall].
      split.
      { rewrite Hsplit in Hge. rewrite !length_app in *. simpl in *. lia. }
      assert (score eb ≤ low.2).
      { apply Hall. rewrite Hsplit, elem_of_app. right. by left. }
      intros x [Hx| ->%list_elem_of_singleton]%elem_of_app; [|simpl; lia].
      apply Hall. rewrite Hsplit. rewrite !elem_of_app in *. rewrite elem_of_cons. tauto.
    + injection Hev as <- <-.
      assert (Hlow : (low.1, low.2) ∈ accepted d).
      { rewrite Hsplit, elem_of_app. right. destruct low. by left. }
      destruct (cons_accepted _ _ Hc _ _ _ _ Hd Hlow) as (e' & He' & Hsc & _).
      rewrite Heb in He'. injection He' as <-.
      split.
      { rewrite Hsplit in Hfull. rewrite !length_app in *. simpl in *. lia. }
      intros x [[Hx|Hx]%elem_of_app| ->%list_elem_of_singleton]%elem_of_app.
      * specialize (H1 _ Hx). lia.
      * specialize (H2 _ Hx). lia.
      * simpl. lia.
    + by eapply Hst.
    + injection Hev as -> ->. done.
  - intros Hd' [Hb|[Hev|[? ?]]] Heb; try done; [by eapply Hst|].
    injection Hev as <- <-. rewrite Hd in Hd'. injection Hd' as <-.
    rewrite He in Heb. injection Heb as <-.
    split; [done|]. rewrite Hsplit.
    intros x [Hx|[->|Hx]%elem_of_cons]%elem_of_app.
    + specialize (H1 _ Hx). lia.
    + done.
    + specialize (H2 _ Hx). lia.
Qed.

Lemma stable_steps app st evs st' :
  steps st evs st' → ∀ pre,
  consistent app st → stable_so_far pre st → stable_so_far (pre ++ evs) st'.
Proof.
  induction 1 as [st|st ev st1 evs st2 Hit _ IH]; intros pre Hc Hst.
  - by rewrite app_nil_r.
  - apply match_iteration_spec in Hit.
    replace (pre ++ ev :: evs) with ((pre ++ [ev]) ++ evs)
      by by rewrite <- app_assoc.
    apply IH; [by eapply consistent_iteration | by eapply stable_iteration].
Qed.

Lemma stable_initial st : stable_so_far [] st.
Proof. intros s d b eb _ [?%elem_of_nil|[a ?%elem_of_nil]]; done. Qed.

(** ** A dropped applicant stays out *)

Lemma absent_iteration a st ev st' :
  absent a st → iteration st ev st' → absent a st' ∧ ¬ admits ev a.
Proof.
  intros [Hq Hacc].
  destruct 1 as [a0 q e i Hq0 He Hi Hlen | a0 q e i s Hq0 He Hi Hs Hd
    | a0 q e i s d Hq0 He Hi Hs Hd Hlt
    | a0 q e i s d l1 low l2 Hq0 He Hi Hs Hd Hfull Hsplit H1 H2 Hlt
    | a0 q e i s d l1 low l2 Hq0 He Hi Hs Hd Hfull Hsplit H1 H2 Hlt];
    rewrite Hq0 in Hq; apply not_elem_of_cons in Hq as [Hne Hq];
    (split; [split|simpl; first [tauto | congruence]]); simpl; try done.
  - rewrite elem_of_app, list_elem_of_singleton. tauto.
  - intros s' d' [[-> ->]|[Hne' Hd']]%with_accepted_lookup; simpl.
    + rewrite fmap_app, elem_of_app. simpl. rewrite list_elem_of_singleton.
      specialize (Hacc _ _ Hd). tauto.
    + by eapply Hacc.
  - rewrite elem_of_app, list_elem_of_singleton.
    intros [?| ->]; [done|]. apply (Hacc _ _ Hd).
    rewrite Hsplit, fmap_app, elem_of_app. right. by left.
  - intros s' d' [[-> ->]|[Hne' Hd']]%with_accepted_lookup; simpl.
    + specialize (Hacc _ _ Hd). rewrite Hsplit in Hacc.
      rewrite !fmap_app, !elem_of_app in *. simpl in *.
      rewrite elem_of_cons in Hacc. rewrite list_elem_of_singleton. tauto.
    + by eapply Hacc.
  - rewrite elem_of_app, list_elem_of_singleton. tauto.
Qed.

Lemma absent_steps a st evs st' :
  absent a st → steps st evs st' →
  absent a st' ∧ ∀ ev, ev ∈ evs → ¬ admits ev a.
Proof.
  intros Ha Hsteps. induction Hsteps as [st|st ev st1 evs st2 Hit _ IH].
  - split; [done|]. by intros ev ?%elem_of_nil.
  - apply match_iteration_spec in Hit.
    destruct (absent_iteration _ _ _ _ Ha Hit) as [Ha1 Hev].
    destruct (IH Ha1) as [Ha2 Hevs]. split; [done|].
    intros ev' [->|?]%elem_of_cons; auto.
Qed.

Lemma dropped_absent a st st' :
  distinct st → iteration st (NoPrefsLeft a) st' → absent a st'.
Proof.
  intros Hd Hit. inversion Hit as [a0 q e i Hq He Hi Hlen| | | |]; subst.
  pose proof (dist_queue _ Hd) as Hnd. rewrite Hq in Hnd.
  apply NoDup_cons in Hnd as [Haq _]. split; simpl; [done|].
  intros s d Hs Hin. apply (dist_queue_accepted _ Hd s d a Hs Hin).
  rewrite Hq. by left.
Qed.

(** ** The animation performs the iterations of the engine *)

Lemma update_last_snoc {A} (f : A → A) (l : list A) x :
  update_last f (l ++ [x]) = l ++ [f x].
Proof.
  unfold update_last. rewrite reverse_snoc. simpl.
  by rewrite reverse_cons, reverse_involutive.
Qed.

Lemma animation_run_step_sim state :
  Animation.unmatched state ≠ [] →
  match _animation_run_step state with
  | Ok state' =>
    ∃ ev, match_iteration (engine_state state) = Ok (ev, engine_state state')
          ∧ Animation.history state' = Animation.history state ++ recorded ev
          ∧ reported_only state state' ev
  | Raise e => match_iteration (engine_state state) = Raise e
  end.
Proof.
  intros Hne. unfold _animation_run_step, match_iteration. simpl.
  destruct (Animation.unmatched state) as [|a q] eqn:Hq; [done|].
  unfold getitem.
  destruct (Animation.student_dict state !! a) as [e|]; [|done].
  destruct (Animation.pref_index state !! a) as [i|]; [|done].
  unfold_bind. cbn.
  case_bool_decide.
  { eexists. split; [done|]. simpl. by rewrite app_nil_r. }
  destruct (list_getitem (prefs e) i) as [s|]; [|done].
  destruct (Animation.schools_dict state !! s) as [d|].
  2:{ eexists. split; [done|]. simpl. by rewrite app_nil_r, <- app_assoc. }
  case_bool_decide.
  { eexists. split; [done|]. simpl. by rewrite update_last_snoc. }
  destruct (list_getitem (sorted false (accepted d)) 0) as [low|]; [|done].
  case_bool_decide.
  - destruct (list_remove_first low (accepted d)) as [rem|]; [|done].
    eexists. split; [done|]. simpl. by rewrite !update_last_snoc.
  - eexists. split; [done|]. simpl. by rewrite update_last_snoc.
Qed.

Lemma animation_step_sim state :
  Animation.unmatched state ≠ [] →
  match _animation_step state with
  | Ok state' =>
    ∃ ev, match_iteration (engine_state state) = Ok (ev, engine_state state')
          ∧ Animation.history state' = Animation.history state ++ recorded ev
          ∧ reported_only state state' ev
  | Raise e => match_iteration (engine_state state) = Raise e
  end.
Proof.
  intros Hne. unfold _animation_step.
  match goal with
  | |- context [_animation_run_step ?s] =>
    pose proof (animation_run_step_sim s Hne) as Hsim;
    destruct (_animation_run_step s) as [state'|e]; [|exact Hsim]
  end.
  destruct Hsim as (ev & Hit & Hhist & Hrep). exists ev.
  split; [exact Hit|]. split; [exact Hhist|]. by destruct ev.
Qed.

Lemma drive_steps_sim fuel state :
  match match_loop fuel (engine_state state) with
  | None => drive_steps fuel state = None
  | Some (Raise e) => drive_steps fuel state = Some (Raise e)
  | Some (Ok (evs, st)) =>
    ∃ state', drive_steps fuel state = Some (Ok state') ∧ engine_state state' = st
              ∧ Animation.history state'
                = Animation.history state ++ mjoin (recorded <$> evs)
  end.
Proof.
  revert state. induction fuel as [|fuel IH]; intros state; simpl.
  - destruct (Animation.unmatched state); [|done].
    exists state. simpl. by rewrite app_nil_r.
  - destruct (Animation.unmatched state) as [|a q] eqn:Hq.
    { exists state. simpl. by rewrite app_nil_r. }
    pose proof (animation_step_sim state) as Hsim. rewrite Hq in Hsim.
    specialize (Hsim ltac:(done)).
    destruct (_animation_step state) as [state1|e].
    + destruct Hsim as (ev & -> & Hhist & _). specialize (IH state1).
      destruct (match_loop fuel (engine_state state1)) as [[[evs st]|e]|]; try done.
      destruct IH as (state' & ? & ? & Hhist').
      exists state'. split; [done|]. split; [done|].
      rewrite Hhist', Hhist. simpl. by rewrite app_assoc.
    + by rewrite Hsim.
Qed.

(** ** The scenarios are well typed *)

Lemma scenario2_well_typed : well_typed scenario2.
Proof. apply (bool_decide_unpack _). by vm_compute. Qed.

Lemma scenario3_well_typed : well_typed scenario3.
Proof. apply (bool_decide_unpack _). by vm_compute. Qed.

(** ** Capacity *)

(** C2: in every state a run reaches from the initial one (after each
    iteration of the loop, whichever branch it took, and in the final
    state), no school holds more accepted pairs than its capacity. *)
Theorem capacity_invariant (app : App) (evs : list Event) (st : MatchState) :
  well_typed app → steps (initial_state app) evs st →
  ∀ s d, schools_dict st !! s = Some d →
    Z.of_nat (length (accepted d)) ≤ capacity d
    ∧ School.capacity <$> schools app !! s = Some (capacity d).
Proof.
  intros Hwt Hsteps s d Hd.
  assert (Hc : consistent app st).
  { eapply consistent_steps; [|done]. by apply consistent_initial. }
  split; [by eapply cons_capacity|].
  rewrite <- (cons_schools _ _ Hc s), Hd. done.
Qed.

Lemma scenario2_run :
  match_loop 3 (initial_state scenario2) = Some (Ok (scenario2_trace, scenario2_final)).
Proof. vm_compute. reflexivity. Qed.

Lemma capacity_invariant_witness :
  well_typed scenario2
  ∧ steps (initial_state scenario2) scenario2_trace scenario2_final
  ∧ ∀ s d, schools_dict scenario2_final !! s = Some d →
      Z.of_nat (length (accepted d)) ≤ capacity d
      ∧ School.capacity <$> schools scenario2 !! s = Some (capacity d).
Proof.
  split; [exact scenario2_well_typed|].
  split; [exact (proj1 (match_loop_steps _ _ _ _ scenario2_run))|].
  exact (capacity_invariant scenario2 scenario2_trace scenario2_final
           scenario2_well_typed (proj1 (match_loop_steps _ _ _ _ scenario2_run))).
Defined.

(** ** The number of pops *)

(** C4, as it stands, fails on Scenario 2: the run pops three times (A, B,
    and A again to be dropped) while the two preference lists hold two
    entries in all. *)
Lemma pops_exceed_preference_total :
  pops 3 scenario2 = Some 3%nat ∧ preference_total scenario2 = 2%nat
  ∧ ¬ (3 ≤ preference_total scenario2)%nat.
Proof.
  split; [vm_compute; reflexivity|]. split; [vm_compute; reflexivity|].
  vm_compute. lia.
Qed.

(** C4, amended: for well-typed input the loop ends, without raising, and
    the number of pops is at most the number of preference entries plus the
    number of applicants: an applicant is popped once per preference it
    tries and once more to be dropped. *)
Theorem engine_terminates_within_bound (app : App) (fuel : nat) :
  well_typed app → (pop_bound app ≤ fuel)%nat →
  ∃ evs st,
    match_loop fuel (initial_state app) = Some (Ok (evs, st))
    ∧ unmatched st = []
    ∧ pops fuel app = Some (length evs)
    ∧ (length evs ≤ preference_total app + length (students app))%nat.
Proof.
  intros Hwt Hfuel.
  destruct (match_loop_finishes app (pop_bound app) Hwt) as (evs & st & Hloop);
    [done|].
  destruct (match_loop_steps _ _ _ _ Hloop) as (_ & Hq & Hlen).
  pose proof (match_loop_mono _ fuel _ _ _ Hloop Hfuel) as Hloop'.
  exists evs, st. split; [done|]. split; [done|]. split.
  - unfold pops. by rewrite Hloop'.
  - unfold pop_bound, preference_total in *. lia.
Qed.

Lemma engine_terminates_within_bound_witness :
  well_typed scenario2 ∧ (pop_bound scenario2 ≤ 4)%nat
  ∧ ∃ evs st,
    match_loop 4 (initial_state scenario2) = Some (Ok (evs, st))
    ∧ unmatched st = []
    ∧ pops 4 scenario2 = Some (length evs)
    ∧ (length evs ≤ preference_total scenario2 + length (students scenario2))%nat.
Proof.
  split; [exact scenario2_well_typed|]. split; [vm_compute; lia|].
  apply (engine_terminates_within_bound scenario2 4);
    [exact scenario2_well_typed | vm_compute; lia].
Defined.

(** ** The shape of the returned allocation *)

Lemma consistent_dom app st :
  consistent app st → dom (schools_dict st) = dom (schools app).
Proof.
  intros Hc. apply set_eq. intros s. rewrite !elem_of_dom.
  rewrite <- (fmap_is_Some capacity), <- (fmap_is_Some School.capacity).
  by rewrite (cons_schools _ _ Hc s).
Qed.

(** ** Stability *)

(** C5: for well-typed input the engine finishes, and in its final state
    every school whose accepted list is as long as its capacity holds only
    students whose score is at least the score of every student that school
    rejected or replaced during the run. *)
Theorem no_blocking_improvement (app : App) (fuel : nat) :
  well_typed app → (pop_bound app ≤ fuel)%nat →
  ∃ evs st,
    match_loop fuel (initial_state app) = Some (Ok (evs, st))
    ∧ ∀ s d admitted other,
        schools_dict st !! s = Some d →
        Z.of_nat (length (accepted d)) = capacity d →
        admitted ∈ students app → other ∈ students app →
        Student.name admitted ∈ (accepted d).*1 →
        turned_away evs s (Student.name other) →
        Student.score other ≤ Student.score admitted.
Proof.
  intros Hwt Hfuel.
  destruct (match_loop_finishes app fuel Hwt Hfuel) as (evs & st & Hloop).
  destruct (match_loop_steps _ _ _ _ Hloop) as (Hsteps & _ & _).
  exists evs, st. split; [done|].
  intros s d sa sb Hd _ Hsa Hsb Hin Haway.
  assert (Hc : consistent app st).
  { eapply consistent_steps; [|done]. by apply consistent_initial. }
  assert (Hst : stable_so_far evs st).
  { apply (stable_steps app _ _ _ Hsteps []);
      [by apply consistent_initial | apply stable_initial]. }
  destruct Hwt as [Hnd _].
  apply list_elem_of_fmap in Hin as ([a sc] & Ha & Hpair). simpl in Ha.
  destruct (cons_accepted _ _ Hc s d a sc Hd Hpair) as (e & He & Hsc & _).
  rewrite (cons_students _ _ Hc), <- Ha in He.
  rewrite (make_student_dict_NoDup _ _ Hnd Hsa) in He. injection He as <-.
  simpl in Hsc.
  destruct (Hst s d (Student.name sb)
    (mkStudentEntry (Student.preferences sb) (Student.score sb)) Hd Haway)
    as [_ Hall].
  { rewrite (cons_students _ _ Hc). by apply make_student_dict_NoDup. }
  specialize (Hall _ Hpair). simpl in Hall. lia.
Qed.

Lemma no_blocking_improvement_witness :
  well_typed scenario2 ∧ (pop_bound scenario2 ≤ 4)%nat
  ∧ match_loop 4 (initial_state scenario2)
    = Some (Ok (scenario2_trace, scenario2_final))
  ∧ schools_dict scenario2_final !! "X"%string
    = Some (mkSchoolEntry 1 [("B"%string, 90)])
  ∧ turned_away scenario2_trace "X" "A"
  ∧ Student.score (Student.mk "A" ["X"%string] 70)
    ≤ Student.score (Student.mk "B" ["X"%string] 90).
Proof.
  assert (Hrun : match_loop 4 (initial_state scenario2)
                 = Some (Ok (scenario2_trace, scenario2_final))).
  { vm_compute. reflexivity. }
  assert (Haway : turned_away scenario2_trace "X" "A").
  { right. exists "B"%string. right. left. }
  split; [exact scenario2_well_typed|]. split; [vm_compute; lia|].
  split; [exact Hrun|]. split; [reflexivity|]. split; [exact Haway|].
  destruct (no_blocking_improvement scenario2 4 scenario2_well_typed
              ltac:(vm_compute; lia)) as (evs & st & Hloop & Hstable).
  rewrite Hrun in Hloop. injection Hloop as <- <-.
  apply (Hstable "X"%string (mkSchoolEntry 1 [("B"%string, 90)])).
  - reflexivity.
  - reflexivity.
  - right. left.
  - left.
  - left.
  - exact Haway.
Defined.

(** ** Applying to a full school *)

(** C6: when the popped student [a] applies to a known school whose
    accepted list is at capacity, let [low] be the first accepted pair, in
    list order, among those of minimal score.  If [a]'s score is greater
    than that of [low], [low] is removed, [a]'s pair is appended, and the
    replaced student goes to the tail of the queue with its preference
    index as it was; otherwise [a] goes to the tail of the queue and the
    accepted list stays.  In Scenario 2, A is accepted, B replaces A, A is
    dropped with no preference left, and the result is X -> [B]. *)
Theorem full_school_rule (app : App) (evs : list Event) (st : MatchState)
    (a : string) (q : list string) (e : StudentEntry) (i : nat) (s : string)
    (d : SchoolEntry) :
  well_typed app → steps (initial_state app) evs st →
  unmatched st = a :: q → student_dict st !! a = Some e →
  pref_index st !! a = Some i → prefs e !! i = Some s →
  schools_dict st !! s = Some d →
  capacity d ≤ Z.of_nat (length (accepted d)) →
  (∃ l1 low l2,
    accepted d = l1 ++ low :: l2
    ∧ (∀ x, x ∈ l1 → low.2 < x.2) ∧ (∀ x, x ∈ l2 → low.2 ≤ x.2)
    ∧ (low.2 < score e →
       match_iteration st
       = Ok (Replaced a s low.1,
             {| student_dict := student_dict st;
                schools_dict :=
                  <[s := mkSchoolEntry (capacity d) ((l1 ++ l2) ++ [(a, score e)])]>
                    (schools_dict st);
                unmatched := q ++ [low.1];
                pref_index := <[a := S i]> (pref_index st) |})
       ∧ <[a := S i]> (pref_index st) !! low.1 = pref_index st !! low.1)
    ∧ (score e ≤ low.2 →
       match_iteration st
       = Ok (Rejected a s,
             {| student_dict := student_dict st;
                schools_dict := schools_dict st;
                unmatched := q ++ [a];
                pref_index := <[a := S i]> (pref_index st) |})))
  ∧ trace 3 scenario2
    = Some [Accepted "A" "X"; Replaced "B" "X" "A"; NoPrefsLeft "A"]
  ∧ gale_shapley_matching 3 scenario2
    = Some (Ok {[ "X"%string := ["B"%string] ]}).
Proof.
  intros Hwt Hsteps Hq He Hi Hs Hd Hfull.
  split; [|split; vm_compute; reflexivity].
  assert (Hc : consistent app st).
  { eapply consistent_steps; [|done]. by apply consistent_initial. }
  assert (Hdist : distinct st).
  { eapply distinct_steps; [|done]. by apply distinct_initial. }
  destruct (match_iteration_total app st Hwt Hc) as (ev & st' & Hit).
  { by rewrite Hq. }
  pose proof (match_iteration_spec _ _ _ Hit) as Hspec.
  assert (Hother : ∀ low : string * Z,
    low ∈ accepted d → <[a := S i]> (pref_index st) !! low.1 = pref_index st !! low.1).
  { intros low Hlow. apply lookup_insert_ne. intros ->.
    apply (dist_queue_accepted _ Hdist s d low.1 Hd).
    - apply list_elem_of_fmap. eauto.
    - rewrite Hq. by left. }
  inversion Hspec as [a0 q0 e0 i0 Hq0 He0 Hi0 Hlen
    | a0 q0 e0 i0 s0 Hq0 He0 Hi0 Hs0 Hd0
    | a0 q0 e0 i0 s0 d0 Hq0 He0 Hi0 Hs0 Hd0 Hlt
    | a0 q0 e0 i0 s0 d0 l1 low l2 Hq0 He0 Hi0 Hs0 Hd0 Hfull0 Hsplit H1 H2 Hlt
    | a0 q0 e0 i0 s0 d0 l1 low l2 Hq0 He0 Hi0 Hs0 Hd0 Hfull0 Hsplit H1 H2 Hlt];
    subst ev st'; rewrite Hq in Hq0; injection Hq0 as <- <-;
    rewrite He in He0; injection He0 as <-;
    rewrite Hi in Hi0; injection Hi0 as <-.
  - apply lookup_lt_Some in Hs. lia.
  - rewrite Hs in Hs0. injection Hs0 as <-. congruence.
  - rewrite Hs in Hs0. injection Hs0 as <-.
    rewrite Hd in Hd0. injection Hd0 as <-. lia.
  - rewrite Hs in Hs0. injection Hs0 as <-.
    rewrite Hd in Hd0. injection Hd0 as <-.
    exists l1, low, l2. split; [done|]. split; [done|]. split; [done|]. split.
    + intros _. split; [done|].
      apply Hother. rewrite Hsplit, elem_of_app. right. by left.
    + intros ?. lia.
  - rewrite Hs in Hs0. injection Hs0 as <-.
    rewrite Hd in Hd0. injection Hd0 as <-.
    exists l1, low, l2. split; [done|]. split; [done|]. split; [done|]. split.
    + intros ?. lia.
    + intros _. done.
Qed.

Lemma scenario2_first_step :
  steps (initial_state scenario2) [Accepted "A" "X"] scenario2_after_A.
Proof.
  eapply steps_cons; [|apply steps_nil]. vm_compute. reflexivity.
Qed.

Lemma full_school_rule_witness :
  well_typed scenario2
  ∧ steps (initial_state scenario2) [Accepted "A" "X"] scenario2_after_A
  ∧ (∃ l1 low l2,
      [("A"%string, 70)] = l1 ++ low :: l2
      ∧ (∀ x, x ∈ l1 → low.2 < x.2) ∧ (∀ x, x ∈ l2 → low.2 ≤ x.2)
      ∧ (low.2 < 90 →
         match_iteration scenario2_after_A
         = Ok (Replaced "B" "X" low.1,
               {| student_dict := student_dict scenario2_after_A;
                  schools_dict :=
                    <["X"%string := mkSchoolEntry 1 ((l1 ++ l2) ++ [("B"%string, 90)])]>
                      (schools_dict scenario2_after_A);
                  unmatched := [] ++ [low.1];
                  pref_index := <["B"%string := 1%nat]> (pref_index scenario2_after_A) |})
         ∧ <["B"%string := 1%nat]> (pref_index scenario2_after_A) !! low.1
           = pref_index scenario2_after_A !! low.1)
      ∧ (90 ≤ low.2 →
         match_iteration scenario2_after_A
         = Ok (Rejected "B" "X",
               {| student_dict := student_dict scenario2_after_A;
                  schools_dict := schools_dict scenario2_after_A;
                  unmatched := [] ++ ["B"%string];
                  pref_index := <["B"%string := 1%nat]> (pref_index scenario2_after_A) |})))
  ∧ trace 3 scenario2
    = Some [Accepted "A" "X"; Replaced "B" "X" "A"; NoPrefsLeft "A"]
  ∧ gale_shapley_matching 3 scenario2
    = Some (Ok {[ "X"%string := ["B"%string] ]}).
Proof.
  split; [exact scenario2_well_typed|]. split; [exact scenario2_first_step|].
  exact (full_school_rule scenario2 [Accepted "A" "X"] scenario2_after_A
           "B" [] (mkStudentEntry ["X"%string] 90) 0 "X"
           (mkSchoolEntry 1 [("A"%string, 70)])
           scenario2_well_typed scenario2_first_step
           eq_refl eq_refl eq_refl eq_refl eq_refl
           ltac:(vm_compute; discriminate)).
Defined.

(** ** Exhausted preferences, unknown schools, empty queue *)

Lemma match_iteration_no_prefs st a q e i :
  unmatched st = a :: q → student_dict st !! a = Some e →
  pref_index st !! a = Some i → (length (prefs e) ≤ i)%nat →
  match_iteration st
  = Ok (NoPrefsLeft a,
        {| student_dict := student_dict st; schools_dict := schools_dict st;
           unmatched := q; pref_index := pref_index st |}).
Proof.
  intros Hq He Hi Hlen. unfold match_iteration, getitem.
  rewrite Hq, He, Hi. unfold_bind. cbn. by rewrite bool_decide_true.
Qed.

Lemma match_iteration_unknown st a q e i s :
  unmatched st = a :: q → student_dict st !! a = Some e →
  pref_index st !! a = Some i → prefs e !! i = Some s →
  schools_dict st !! s = None →
  match_iteration st
  = Ok (UnknownSchool a s,
        {| student_dict := student_dict st; schools_dict := schools_dict st;
           unmatched := q ++ [a]; pref_index := <[a := S i]> (pref_index st) |}).
Proof.
  intros Hq He Hi Hs Hd. unfold match_iteration, getitem, list_getitem.
  rewrite Hq, He, Hi. unfold_bind. cbn.
  rewrite bool_decide_false by (apply lookup_lt_Some in Hs; lia).
  by rewrite Hs, Hd.
Qed.

Lemma match_loop_empty fuel st :
  unmatched st = [] → match_loop fuel st = Some (Ok ([], st)).
Proof. intros Hq. destruct fuel; simpl; by rewrite Hq. Qed.

(** ** What a step of the animation records *)

(** C3, as it stands, fails on Scenario 3: the step in which C applies to
    the unknown school Ghost succeeds and leaves the history empty; the
    unknown school is only reported in the status text. *)
Lemma unknown_school_leaves_no_record :
  ∃ state',
    _animation_step (_animation_reset scenario3 blank_state) = Ok state'
    ∧ Animation.history state' = []
    ∧ (¬ ∃ r, r ∈ Animation.history state'
              ∧ h_action r = Some "unknown-slot"%string)
    ∧ Animation.status_text state'
      = [LineInitialized; LineTotalStudents 1; LineTotalSchools 1; LinePressStart;
         LineApplies 1 "C" "Ghost"; LineNoSuchSchool "Ghost"].
Proof.
  exists scenario3_after_ghost. split; [vm_compute; reflexivity|].
  split; [reflexivity|]. split; [|reflexivity].
  intros (r & Hr & _). by apply elem_of_nil in Hr.
Qed.

(** C3, amended: a step that pops a student appends to the history exactly
    one entry, with action accepted, replaced (with the replaced student
    under rejected) or rejected, when the student applies to a known
    school, and none when the student has no preference left or names an
    unknown school; the step is the engine's iteration on the same state.
    In Scenario 3 the first step appends nothing, advances C's preference
    index and puts C back in the queue, and the second step records that Y
    accepted C. *)
Theorem step_records (state state' : Animation.state) :
  Animation.unmatched state ≠ [] → _animation_step state = Ok state' →
  (∃ ev,
    match_iteration (engine_state state) = Ok (ev, engine_state state')
    ∧ Animation.history state'
      = Animation.history state
        ++ match ev with
           | NoPrefsLeft _ | UnknownSchool _ _ => []
           | Accepted a s => [mkHistoryEntry a s (Some "accepted"%string) None]
           | Replaced a s r => [mkHistoryEntry a s (Some "replaced"%string) (Some r)]
           | Rejected a s => [mkHistoryEntry a s (Some "rejected"%string) None]
           end
    ∧ match ev with
      | NoPrefsLeft a =>
        Animation.status_text state'
        = Animation.status_text state ++ [LineNoMorePreferences a]
      | UnknownSchool a s =>
        Animation.status_text state'
        = Animation.status_text state
          ++ [LineApplies (Animation.step state + 1) a s; LineNoSuchSchool s]
      | _ => True
      end)
  ∧ ∃ state1 state2,
      _animation_step (_animation_reset scenario3 blank_state) = Ok state1
      ∧ Animation.history state1 = []
      ∧ Animation.unmatched state1 = ["C"%string]
      ∧ Animation.pref_index state1 !! "C"%string = Some 1%nat
      ∧ _animation_step state1 = Ok state2
      ∧ Animation.history state2
        = [mkHistoryEntry "C" "Y" (Some "accepted"%string) None]
      ∧ Animation.schools_dict state2 !! "Y"%string
        = Some (mkSchoolEntry 1 [("C"%string, 50)])
      ∧ Animation.unmatched state2 = [].
Proof.
  intros Hne Hstep. split.
  - pose proof (animation_step_sim state Hne) as Hsim. rewrite Hstep in Hsim.
    destruct Hsim as (ev & Hit & Hhist & Hrep). exists ev. split; [done|].
    rewrite Hhist. by destruct ev.
  - eexists. eexists. split; [vm_compute; reflexivity|].
    split; [reflexivity|]. split; [reflexivity|]. split; [reflexivity|].
    split; [vm_compute; reflexivity|]. split; [reflexivity|].
    split; reflexivity.
Qed.

Lemma scenario3_first_step :
  _animation_step (_animation_reset scenario3 blank_state) = Ok scenario3_after_ghost.
Proof. vm_compute. reflexivity. Qed.

Lemma step_records_witness :
  Animation.unmatched (_animation_reset scenario3 blank_state) ≠ []
  ∧ _animation_step (_animation_reset scenario3 blank_state) = Ok scenario3_after_ghost
  ∧ ∃ ev,
      match_iteration (engine_state (_animation_reset scenario3 blank_state))
      = Ok (ev, engine_state scenario3_after_ghost)
      ∧ Animation.history scenario3_after_ghost
        = Animation.history (_animation_reset scenario3 blank_state)
          ++ match ev with
             | NoPrefsLeft _ | UnknownSchool _ _ => []
             | Accepted a s => [mkHistoryEntry a s (Some "accepted"%string) None]
             | Replaced a s r => [mkHistoryEntry a s (Some "replaced"%string) (Some r)]
             | Rejected a s => [mkHistoryEntry a s (Some "rejected"%string) None]
             end
      ∧ match ev with
        | NoPrefsLeft a =>
          Animation.status_text scenario3_after_ghost
          = Animation.status_text (_animation_reset scenario3 blank_state)
            ++ [LineNoMorePreferences a]
        | UnknownSchool a s =>
          Animation.status_text scenario3_after_ghost
          = Animation.status_text (_animation_reset scenario3 blank_state)
            ++ [LineApplies
                  (Animation.step (_animation_reset scenario3 blank_state) + 1) a s;
                LineNoSuchSchool s]
        | _ => True
        end.
Proof.
  split; [discriminate|]. split; [exact scenario3_first_step|].
  exact (proj1 (step_records (_animation_reset scenario3 blank_state)
                  scenario3_after_ghost ltac:(discriminate) scenario3_first_step)).
Defined.

(** ** Adjusted scores *)

Lemma adjust_students_spec factor l adjusted :
  adjust_students factor l = Ok adjusted →
  Forall2 (λ s s',
      Student.name s' = Student.name s
      ∧ Student.preferences s' = Student.preferences s
      ∧ adjusted_score (Student.score s) factor = Ok (Student.score s'))
    l adjusted.
Proof.
  revert adjusted. induction l as [|s l IH]; intros adjusted; simpl.
  - intros [= <-]. constructor.
  - intros (k & Hk & H)%bind_Ok. apply bind_Ok in H as (rest & Hrest & H).
    injection H as <-. constructor; [by rewrite Hk | by apply IH].
Qed.

Lemma adjusted_names l adjusted :
  Forall2 (λ s s', Student.name s' = Student.name s) l adjusted →
  Student.name <$> adjusted = Student.name <$> l.
Proof. induction 1 as [|s s' l l' Hs _ IH]; csimpl; [done|]. by rewrite Hs, IH. Qed.

Lemma adjusted_preference_total l adjusted :
  Forall2 (λ s s', Student.preferences s' = Student.preferences s) l adjusted →
  sum_list_with (λ s, length (Student.preferences s)) adjusted
  = sum_list_with (λ s, length (Student.preferences s)) l.
Proof. induction 1 as [|s s' l l' Hs _ IH]; csimpl; [done|]. by rewrite Hs, IH. Qed.

(** [int] keeps the sign and floors the magnitude. *)
Lemma int_of_float_toward_zero s m e k :
  int_of_float (S754_finite s m e) = Ok k →
  (0 ≤ e → k = (if s then Z.neg m else Z.pos m) * 2 ^ e)
  ∧ (e < 0 → k = (if s then -1 else 1) * (Z.pos m `div` 2 ^ (- e))).
Proof.
  simpl. intros [= <-]. split; intros He.
  - by rewrite bool_decide_true.
  - rewrite bool_decide_false by lia.
    assert (0 < 2 ^ (- e)) by (apply Z.pow_pos_nonneg; lia).
    destruct s.
    + change (Z.neg m) with (- Z.pos m). rewrite Z.quot_opp_l by lia.
      rewrite Z.quot_div_nonneg by lia. lia.
    + rewrite Z.quot_div_nonneg by lia. lia.
Qed.

(** C7, as it stands, fails for a negative score: with factor 0.5 the
    score -3 becomes int(-1.5) = -1, while the floor of -1.5 is -2. *)
Lemma adjusted_score_is_not_floor :
  adjust_students float_half (students negative_score)
  = Ok [Student.mk "A" ["X"%string] (-1)]
  ∧ adjusted_score (-3) float_half = Ok (-1)
  ∧ floor_of_product (-3) float_half = Some (-2).
Proof. repeat split; vm_compute; reflexivity. Qed.

(** C7, amended: when every score converts (no overflow, no NaN), the
    analysis runs the engine on a list of copies, one per student and in
    the same order, each with the name and the preference list of its
    original and with score [int(score * factor)]: the double-precision
    product with its fractional part dropped, toward zero.  The students of
    the application are the original ones after the call, also when a
    conversion raises. *)
Theorem adjusted_matching_on_copies (fuel : nat) (factor : spec_float) (app : App) :
  well_typed app → (pop_bound app ≤ fuel)%nat →
  match adjust_students factor (students app) with
  | Ok adjusted =>
    Forall2 (λ s s',
        Student.name s' = Student.name s
        ∧ Student.preferences s' = Student.preferences s
        ∧ ∃ x, float_of_int (Student.score s) = Ok x
               ∧ int_of_float (float_mul x factor) = Ok (Student.score s'))
      (students app) adjusted
    ∧ ∃ matches,
        gale_shapley_matching fuel (mkApp adjusted (schools app)) = Some (Ok matches)
        ∧ _run_adjusted_matching fuel factor app = Some (app, Ok matches)
  | Raise e => _run_adjusted_matching fuel factor app = Some (app, Raise e)
  end
  ∧ ∀ s m e k, int_of_float (S754_finite s m e) = Ok k →
      (0 ≤ e → k = (if s then Z.neg m else Z.pos m) * 2 ^ e)
      ∧ (e < 0 → k = (if s then -1 else 1) * (Z.pos m `div` 2 ^ (- e))).
Proof.
  intros Hwt Hfuel. split; [|apply int_of_float_toward_zero].
  unfold _run_adjusted_matching.
  destruct (adjust_students factor (students app)) as [adjusted|e] eqn:Hadj; [|done].
  apply adjust_students_spec in Hadj.
  assert (Hnames : Student.name <$> adjusted = Student.name <$> students app).
  { apply adjusted_names. eapply Forall2_impl; [done|].
    by intros ? ? (? & ? & ?). }
  assert (Hprefs : sum_list_with (λ s, length (Student.preferences s)) adjusted
                   = sum_list_with (λ s, length (Student.preferences s)) (students app)).
  { apply adjusted_preference_total. eapply Forall2_impl; [done|].
    by intros ? ? (? & ? & ?). }
  assert (Hwt' : well_typed (mkApp adjusted (schools app))).
  { destruct Hwt as [Hnd Hcap]. split; simpl; [by rewrite Hnames | done]. }
  assert (Hfuel' : (pop_bound (mkApp adjusted (schools app)) ≤ fuel)%nat).
  { unfold pop_bound in *. simpl. rewrite Hprefs.
    rewrite <- (length_fmap Student.name adjusted), Hnames, length_fmap. done. }
  destruct (match_loop_finishes _ fuel Hwt' Hfuel') as (evs & st & Hloop).
  split.
  - eapply Forall2_impl; [done|]. intros s s' (? & ? & Hsc).
    split; [done|]. split; [done|].
    unfold adjusted_score in Hsc. by apply bind_Ok in Hsc.
  - exists (format_results (schools_dict st)).
    unfold gale_shapley_matching. rewrite Hloop. split; [done|].
    simpl. by destruct app.
Qed.

Lemma adjusted_matching_on_copies_witness :
  well_typed negative_score ∧ (pop_bound negative_score ≤ 2)%nat
  ∧ match adjust_students float_half (students negative_score) with
    | Ok adjusted =>
      Forall2 (λ s s',
          Student.name s' = Student.name s
          ∧ Student.preferences s' = Student.preferences s
          ∧ ∃ x, float_of_int (Student.score s) = Ok x
                 ∧ int_of_float (float_mul x float_half) = Ok (Student.score s'))
        (students negative_score) adjusted
      ∧ ∃ matches,
          gale_shapley_matching 2 (mkApp adjusted (schools negative_score))
          = Some (Ok matches)
          ∧ _run_adjusted_matching 2 float_half negative_score
            = Some (negative_score, Ok matches)
    | Raise e =>
      _run_adjusted_matching 2 float_half negative_score
      = Some (negative_score, Raise e)
    end.
Proof.
  assert (Hwt : well_typed negative_score).
  { apply (bool_decide_unpack _). by vm_compute. }
  split; [exact Hwt|]. split; [vm_compute; lia|].
  exact (proj1 (adjusted_matching_on_copies 2 float_half negative_score Hwt
                  ltac:(vm_compute; lia))).
Defined.

(** ** Factor 1.0 *)

(** C8 on the scores 2^53 and 2^53 + 1: the baseline admits B to X, but the run
    with factor 1.0 converts both scores to the same double, so B no longer
    replaces A; two memberships change. *)
Theorem factor_one_on_big_scores :
  gale_shapley_matching 4 big_scores = Some (Ok {[ "X"%string := ["B"%string] ]})
  ∧ adjust_students float_one (students big_scores)
    = Ok [Student.mk "A" ["X"%string] (2 ^ 53); Student.mk "B" ["X"%string] (2 ^ 53)]
  ∧ _run_adjusted_matching 4 float_one big_scores
    = Some (big_scores, Ok {[ "X"%string := ["A"%string] ]})
  ∧ _count_matching_changes {[ "X"%string := ["B"%string] ]}
      {[ "X"%string := ["A"%string] ]} = 2%nat.
Proof. repeat split; vm_compute; reflexivity. Qed.

(** ** Scores a double holds exactly *)

Lemma digits2_pos_size m : digits2_pos m = Pos.size m.
Proof. induction m; simpl; congruence. Qed.

Lemma digits2_pos_iter_xO m n :
  digits2_pos (Pos.iter xO m n) = (digits2_pos m + n)%positive.
Proof.
  induction n using Pos.peano_ind.
  - simpl. lia.
  - rewrite Pos.iter_succ. simpl. rewrite IHn. lia.
Qed.

Lemma Zpos_iter_xO m n : Z.pos (Pos.iter xO m n) = Z.pos m * 2 ^ Z.pos n.
Proof.
  induction n using Pos.peano_ind.
  - simpl. lia.
  - rewrite Pos.iter_succ, Pos2Z.inj_succ, Z.pow_succ_r by lia.
    rewrite Pos2Z.inj_xO, IHn. lia.
Qed.

Lemma digits2_pos_bound m k :
  0 ≤ k → Z.pos m < 2 ^ k → Z.pos (digits2_pos m) ≤ k.
Proof.
  intros Hk Hm. rewrite digits2_pos_size.
  pose proof (Pos.size_le m) as Hle.
  apply Pos2Z.pos_le_pos in Hle. rewrite Pos2Z.inj_pow in Hle.
  change (Z.pos 2) with 2 in Hle. rewrite (Pos2Z.inj_xO m) in Hle.
  destruct (Z_le_gt_dec (Z.pos (Pos.size m)) k) as [|Hgt]; [done|].
  assert (H : 2 ^ (k + 1) ≤ 2 ^ Z.pos (Pos.size m)) by (apply Z.pow_le_mono_r; lia).
  rewrite Z.pow_add_r, Z.pow_1_r in H by lia. lia.
Qed.

Lemma iter_shr_1_52 mz :
  iter_pos shr_1 52 (Build_shr_record (Z.pos (Pos.iter xO mz 52)) false false)
  = Build_shr_record (Z.pos mz) false false.
Proof. reflexivity. Qed.

Lemma mul_two_52 mz : (mz * 4503599627370496)%positive = Pos.iter xO mz 52.
Proof. rewrite Pos.mul_comm. reflexivity. Qed.

Lemma binary_round_aux_times_one sx mz ez :
  Z.pos (digits2_pos mz) = 53 → -1074 ≤ ez ≤ 971 →
  binary_round_aux 53 1024 sx (Z.pos (mz * 4503599627370496)) (ez + -52) loc_Exact
  = S754_finite sx mz ez.
Proof.
  intros Hd He. rewrite mul_two_52.
  assert (Hbig : Z.pos (digits2_pos (Pos.iter xO mz 52)) = 105).
  { rewrite digits2_pos_iter_xO, Pos2Z.inj_add, Hd. done. }
  pose proof (iter_shr_1_52 mz) as Hshift.
  remember (Pos.iter xO mz 52) as big eqn:Ebig. clear Ebig.
  unfold binary_round_aux, shr_fexp.
  change (Zdigits2 (Z.pos big)) with (Z.pos (digits2_pos big)). rewrite Hbig.
  unfold fexp, emin.
  replace (((105 + (ez + -52) - 53) `max` (3 - 1024 - 53)) - (ez + -52)) with 52 by lia.
  unfold shr at 1.
  change (shr_record_of_loc (Z.pos big) loc_Exact)
    with (Build_shr_record (Z.pos big) false false).
  rewrite Hshift.
  cbv beta iota zeta delta [shr_m loc_of_shr_record round_nearest_even Zdigits2 shr_record_of_loc].
  rewrite Hd.
  replace (((53 + (ez + -52 + 52) - 53) `max` (3 - 1024 - 53)) - (ez + -52 + 52)) with 0 by lia.
  cbv beta iota zeta delta [shr shr_m].
  replace (ez + -52 + 52) with ez by lia.
  assert ((ez <=? 1024 - 53) = true) as -> by (apply Z.leb_le; lia). done.
Qed.

Lemma binary_round_aux_exact sx mz ez :
  Z.pos (digits2_pos mz) = 53 → -1074 ≤ ez ≤ 971 →
  binary_round_aux 53 1024 sx (Z.pos mz) ez loc_Exact = S754_finite sx mz ez.
Proof.
  intros Hd He. unfold binary_round_aux, shr_fexp.
  change (Zdigits2 (Z.pos mz)) with (Z.pos (digits2_pos mz)). rewrite Hd.
  unfold fexp, emin.
  replace (((53 + ez - 53) `max` (3 - 1024 - 53)) - ez) with 0 by lia.
  cbv beta iota zeta delta [shr shr_m loc_of_shr_record round_nearest_even Zdigits2 shr_record_of_loc].
  rewrite Hd.
  replace (((53 + ez - 53) `max` (3 - 1024 - 53)) - ez) with 0 by lia.
  cbv beta iota zeta.
  assert ((ez <=? 1024 - 53) = true) as -> by (apply Z.leb_le; lia). done.
Qed.

(** Integers below 2^53 in magnitude convert to a double without loss. *)
Lemma binary_round_small sx m :
  Z.pos m < 2 ^ 53 →
  ∃ mz ez, binary_round 53 1024 sx m 0 = S754_finite sx mz ez
    ∧ Z.pos (digits2_pos mz) = 53 ∧ -52 ≤ ez ≤ 0
    ∧ Z.pos mz = Z.pos m * 2 ^ (- ez).
Proof.
  intros Hm. pose proof (digits2_pos_bound m 53 ltac:(lia) Hm) as Hd.
  unfold binary_round, shl_align, fexp, emin.
  replace ((Z.pos (digits2_pos m) + 0 - 53) `max` (3 - 1024 - 53))
    with (Z.pos (digits2_pos m) - 53) by lia.
  destruct (Z.pos (digits2_pos m) - 53 - 0) as [|p|p] eqn:Hp; [|lia|].
  - exists m, 0. rewrite binary_round_aux_exact by lia.
    replace (Z.pos (digits2_pos m) - 53) with 0 by lia.
    repeat split; lia.
  - exists (Pos.iter xO m p), (Z.pos (digits2_pos m) - 53).
    assert (Hdig : Z.pos (digits2_pos (Pos.iter xO m p)) = 53).
    { rewrite digits2_pos_iter_xO, Pos2Z.inj_add. lia. }
    rewrite binary_round_aux_exact by lia.
    split; [done|]. split; [done|]. split; [lia|].
    rewrite Zpos_iter_xO. f_equal. f_equal. lia.
Qed.

Lemma adjusted_score_one z :
  - 2 ^ 53 < z < 2 ^ 53 → adjusted_score z float_one = Ok z.
Proof.
  intros Hz. unfold adjusted_score, float_of_int, binary_normalize.
  destruct z as [|m|m].
  - reflexivity.
  - destruct (binary_round_small false m) as (mz & ez & -> & Hd & He & Hmz); [lia|].
    unfold_bind. cbv beta iota.
    unfold float_mul, float_one, SFmul.
    rewrite binary_round_aux_times_one by lia.
    unfold int_of_float. cbn [xorb]. f_equal.
    case_bool_decide.
    + assert (ez = 0) as -> by lia. change (- 0) with 0 in Hmz.
      rewrite Z.pow_0_r in *. lia.
    + rewrite Hmz, Z.quot_mul by lia. done.
  - destruct (binary_round_small true m) as (mz & ez & -> & Hd & He & Hmz); [lia|].
    unfold_bind. cbv beta iota.
    unfold float_mul, float_one, SFmul.
    rewrite binary_round_aux_times_one by lia.
    unfold int_of_float. cbn [xorb]. f_equal.
    case_bool_decide.
    + assert (ez = 0) as -> by lia. change (- 0) with 0 in Hmz.
      rewrite Z.pow_0_r in *. lia.
    + change (Z.neg mz) with (- Z.pos mz).
      rewrite Z.quot_opp_l, Hmz, Z.quot_mul by lia. done.
Qed.

Lemma adjust_students_one l :
  (∀ s, s ∈ l → - 2 ^ 53 < Student.score s < 2 ^ 53) →
  adjust_students float_one l = Ok l.
Proof.
  induction l as [|s l IH]; intros Hl; simpl; [done|].
  rewrite adjusted_score_one by (apply Hl; by left).
  unfold_bind. cbv beta iota. rewrite IH by (intros s' Hs'; apply Hl; by right).
  by destruct s.
Qed.

Lemma count_matching_changes_same (m : gmap string (list string)) :
  _count_matching_changes m m = 0%nat.
Proof.
  unfold _count_matching_changes.
  induction (elements (dom m ∪ dom m)) as [|school l IH]; simpl; [done|].
  rewrite IH. simpl.
  apply size_empty_iff, elem_of_equiv_empty. intros x.
  rewrite elem_of_union, !elem_of_difference. tauto.
Qed.

(** ** Factor 1.0 on scores a double holds exactly *)

(** X1: factor 1.0 on scores below 2^53 in magnitude: the analysis returns the
    baseline allocation, leaves the application as it was, and the count
    of changes against the baseline is 0. *)
Theorem factor_one_small_scores (app : App) (fuel : nat) :
  well_typed app → (pop_bound app ≤ fuel)%nat →
  (∀ s, s ∈ students app → - 2 ^ 53 < Student.score s < 2 ^ 53) →
  ∃ baseline,
    gale_shapley_matching fuel app = Some (Ok baseline)
    ∧ _run_adjusted_matching fuel float_one app = Some (app, Ok baseline)
    ∧ _count_matching_changes baseline baseline = 0%nat.
Proof.
  intros Hwt Hfuel Hsmall.
  destruct (match_loop_finishes app fuel Hwt Hfuel) as (evs & st & Hloop).
  exists (format_results (schools_dict st)).
  assert (Hbase : gale_shapley_matching fuel app
                  = Some (Ok (format_results (schools_dict st)))).
  { unfold gale_shapley_matching. by rewrite Hloop. }
  split; [done|]. split; [|apply count_matching_changes_same].
  unfold _run_adjusted_matching. rewrite adjust_students_one by done.
  replace (mkApp (students app) (schools app)) with app by by destruct app.
  rewrite Hbase. simpl. by destruct app.
Qed.

Lemma factor_one_small_scores_witness :
  well_typed scenario2 ∧ (pop_bound scenario2 ≤ 4)%nat
  ∧ ∃ baseline,
    gale_shapley_matching 4 scenario2 = Some (Ok baseline)
    ∧ _run_adjusted_matching 4 float_one scenario2 = Some (scenario2, Ok baseline)
    ∧ _count_matching_changes baseline baseline = 0%nat.
Proof.
  split; [exact scenario2_well_typed|]. split; [vm_compute; lia|].
  apply (factor_one_small_scores scenario2 4);
    [exact scenario2_well_typed | vm_compute; lia |].
  intros s Hs. simpl in Hs.
  apply elem_of_cons in Hs as [->|Hs]; [simpl; lia|].
  apply elem_of_cons in Hs as [->|Hs]; [simpl; lia|].
  by apply elem_of_nil in Hs.
Defined.

(** ** Queue and accepted lists *)

(** X2: in every state of a run on well-typed input, no student is twice in
    the queue or twice in an accepted list, none is both queued and
    accepted, and none is accepted by two schools. *)
Theorem exclusive_placement (app : App) (evs : list Event) (st : MatchState) :
  well_typed app → steps (initial_state app) evs st →
  NoDup (unmatched st)
  ∧ (∀ s d, schools_dict st !! s = Some d →
       NoDup (accepted d).*1 ∧ ∀ a, a ∈ (accepted d).*1 → a ∉ unmatched st)
  ∧ (∀ s1 s2 d1 d2 a, s1 ≠ s2 →
       schools_dict st !! s1 = Some d1 → schools_dict st !! s2 = Some d2 →
       a ∈ (accepted d1).*1 → a ∉ (accepted d2).*1).
Proof.
  intros Hwt Hsteps.
  assert (Hd : distinct st).
  { eapply distinct_steps; [|done]. by apply distinct_initial. }
  destruct Hd as [Hq Hacc Hqa Hsch]. split; [done|]. split; [|done].
  intros s d Hs. split; [by eapply Hacc|]. intros a. by eapply Hqa.
Qed.

Lemma exclusive_placement_witness :
  well_typed scenario2
  ∧ steps (initial_state scenario2) [Accepted "A" "X"] scenario2_after_A
  ∧ NoDup (unmatched scenario2_after_A)
  ∧ (∀ s d, schools_dict scenario2_after_A !! s = Some d →
       NoDup (accepted d).*1
       ∧ ∀ a, a ∈ (accepted d).*1 → a ∉ unmatched scenario2_after_A)
  ∧ (∀ s1 s2 d1 d2 a, s1 ≠ s2 →
       schools_dict scenario2_after_A !! s1 = Some d1 →
       schools_dict scenario2_after_A !! s2 = Some d2 →
       a ∈ (accepted d1).*1 → a ∉ (accepted d2).*1).
Proof.
  split; [exact scenario2_well_typed|]. split; [exact scenario2_first_step|].
  exact (exclusive_placement scenario2 [Accepted "A" "X"] scenario2_after_A
           scenario2_well_typed scenario2_first_step).
Defined.

(** ** Preference indices only grow *)

Lemma iteration_pref_index st ev st' a i :
  iteration st ev st' → pref_index st !! a = Some i →
  ∃ j, pref_index st' !! a = Some j ∧ (i ≤ j)%nat.
Proof.
  destruct 1 as [a0 q e i0 Hq He Hi Hlen | a0 q e i0 s Hq He Hi Hs Hd
    | a0 q e i0 s d Hq He Hi Hs Hd Hlt
    | a0 q e i0 s d l1 low l2 Hq He Hi Hs Hd Hfull Hsplit H1 H2 Hlt
    | a0 q e i0 s d l1 low l2 Hq He Hi Hs Hd Hfull Hsplit H1 H2 Hlt];
    intros Ha; simpl; [by eauto|..];
    (destruct (decide (a0 = a)) as [->|Hne];
     [rewrite lookup_insert_eq; rewrite Hi in Ha; injection Ha as <-;
      exists (S i0); split; [done|lia]
     |rewrite lookup_insert_ne by done; eauto]).
Qed.

(** X3: over a run, the preference index of a student never decreases. *)
Theorem pref_index_monotone (st : MatchState) (evs : list Event) (st' : MatchState)
    (a : string) (i : nat) :
  steps st evs st' → pref_index st !! a = Some i →
  ∃ j, pref_index st' !! a = Some j ∧ (i ≤ j)%nat.
Proof.
  intros Hsteps. revert i.
  induction Hsteps as [st|st ev st1 evs st2 Hit _ IH]; intros i Hi; [by eauto|].
  apply match_iteration_spec in Hit.
  destruct (iteration_pref_index _ _ _ _ _ Hit Hi) as (j & Hj & Hij).
  destruct (IH _ Hj) as (k & Hk & Hjk). exists k. split; [done|lia].
Qed.

Lemma pref_index_monotone_witness :
  steps (initial_state scenario2) scenario2_trace scenario2_final
  ∧ pref_index (initial_state scenario2) !! "A"%string = Some 0%nat
  ∧ ∃ j, pref_index scenario2_final !! "A"%string = Some j ∧ (0 ≤ j)%nat.
Proof.
  split; [exact (proj1 (match_loop_steps _ _ _ _ scenario2_run))|].
  split; [reflexivity|].
  exact (pref_index_monotone (initial_state scenario2) scenario2_trace
           scenario2_final "A" 0
           (proj1 (match_loop_steps _ _ _ _ scenario2_run)) eq_refl).
Defined.

(** ** Scenario 1 *)

(** Scenario 1: A (95) and B (80) both prefer X to Y, each school has one
    place; the engine returns X -> [A], Y -> [B]. *)
Lemma scenario1_allocation :
  gale_shapley_matching 6 scenario1
  = Some (Ok {[ "X"%string := ["A"%string]; "Y"%string := ["B"%string] ]})
  ∧ trace 6 scenario1
    = Some [Accepted "A" "X"; Rejected "B" "X"; Accepted "B" "Y"].
Proof. split; vm_compute; reflexivity. Qed.

(** ** Progress of a run *)


Lemma turned_away_mono evs ev s b :
  turned_away evs s b → turned_away (evs ++ [ev]) s b.
Proof. rewrite turned_away_snoc. auto. Qed.

Lemma iteration_schools_dom st ev st' s :
  iteration st ev st' →
  is_Some (schools_dict st' !! s) ↔ is_Some (schools_dict st !! s).
Proof.
  destruct 1; simpl; try done;
    (rewrite lookup_insert_is_Some; split;
     [intros [Heq|[_ ?]]; [subst; eauto | done]
     |intros ?; destruct (decide (s0 = s)); auto]).
Qed.

Lemma iteration_student_dict st ev st' :
  iteration st ev st' → student_dict st' = student_dict st.
Proof. by destruct 1. Qed.

(** An accepted student stays accepted unless this iteration replaces it. *)
Lemma iteration_accepted_kept st ev st' a s :
  iteration st ev st' → accepted_at st a s →
  accepted_at st' a s ∨ ∃ a0, ev = Replaced a0 s a.
Proof.
  intros Hit (d & Hd & Ha).
  destruct Hit as [a0 q e i Hq He Hi Hlen | a0 q e i s0 Hq He Hi Hs Hd0
    | a0 q e i s0 d0 Hq He Hi Hs Hd0 Hlt
    | a0 q e i s0 d0 l1 low l2 Hq He Hi Hs Hd0 Hfull Hsplit H1 H2 Hlt
    | a0 q e i s0 d0 l1 low l2 Hq He Hi Hs Hd0 Hfull Hsplit H1 H2 Hlt].
  - left. by exists d.
  - left. by exists d.
  - left. destruct (decide (s0 = s)) as [->|Hne].
    + rewrite Hd in Hd0. injection Hd0 as <-.
      eexists. simpl. rewrite lookup_insert_eq. split; [done|]. simpl.
      rewrite fmap_app, elem_of_app. by left.
    + exists d. simpl. by rewrite lookup_insert_ne.
  - destruct (decide (s0 = s)) as [->|Hne].
    + rewrite Hd in Hd0. injection Hd0 as <-.
      rewrite Hsplit, fmap_app, fmap_cons, elem_of_app, elem_of_cons in Ha.
      destruct (decide (a = low.1)) as [->|Hlow]; [right; eauto|].
      left. eexists. simpl. rewrite lookup_insert_eq. split; [done|]. simpl.
      rewrite !fmap_app, !elem_of_app. left. tauto.
    + left. exists d. simpl. by rewrite lookup_insert_ne.
  - left. by exists d.
Qed.

(** Who is accepted after an iteration was accepted before or is the
    student that applied. *)
Lemma iteration_accepted_from st ev st' a s :
  iteration st ev st' → accepted_at st' a s →
  accepted_at st a s ∨ ev = Accepted a s ∨ ∃ r, ev = Replaced a s r.
Proof.
  intros Hit (d & Hd & Ha).
  destruct Hit as [a0 q e i Hq He Hi Hlen | a0 q e i s0 Hq He Hi Hs Hd0
    | a0 q e i s0 d0 Hq He Hi Hs Hd0 Hlt
    | a0 q e i s0 d0 l1 low l2 Hq He Hi Hs Hd0 Hfull Hsplit H1 H2 Hlt
    | a0 q e i s0 d0 l1 low l2 Hq He Hi Hs Hd0 Hfull Hsplit H1 H2 Hlt];
    simpl in Hd.
  - left. by exists d.
  - left. by exists d.
  - apply with_accepted_lookup in Hd as [[-> ->]|[Hne Hd]].
    + simpl in Ha. rewrite fmap_app, elem_of_app in Ha.
      destruct Ha as [Ha|Ha%list_elem_of_singleton].
      * left. by exists d0.
      * simpl in Ha. subst. auto.
    + left. by exists d.
  - apply with_accepted_lookup in Hd as [[-> ->]|[Hne Hd]].
    + simpl in Ha. rewrite !fmap_app, !elem_of_app in Ha.
      destruct Ha as [Ha|Ha%list_elem_of_singleton].
      * left. exists d0. split; [done|].
        rewrite Hsplit, fmap_app, fmap_cons, elem_of_app, elem_of_cons. tauto.
      * simpl in Ha. subst. eauto.
    + left. by exists d.
  - left. by exists d.
Qed.

(** What an iteration does to the queue and to the preference index. *)
Lemma iteration_summary st ev st' :
  iteration st ev st' →
  ∃ a0 q e0 i0,
    unmatched st = a0 :: q ∧ student_dict st !! a0 = Some e0
    ∧ pref_index st !! a0 = Some i0
    ∧ ((ev = NoPrefsLeft a0 ∧ (length (prefs e0) ≤ i0)%nat
        ∧ pref_index st' = pref_index st ∧ unmatched st' = q)
       ∨ ∃ s0, prefs e0 !! i0 = Some s0
           ∧ pref_index st' = <[a0 := S i0]> (pref_index st)
           ∧ ((ev = UnknownSchool a0 s0 ∧ schools_dict st !! s0 = None
               ∧ unmatched st' = q ++ [a0])
              ∨ (ev = Accepted a0 s0 ∧ accepted_at st' a0 s0 ∧ unmatched st' = q)
              ∨ (∃ r, ev = Replaced a0 s0 r ∧ accepted_at st' a0 s0
                      ∧ unmatched st' = q ++ [r])
              ∨ (ev = Rejected a0 s0 ∧ is_Some (schools_dict st !! s0)
                 ∧ unmatched st' = q ++ [a0]))).
Proof.
  destruct 1 as [a0 q e i Hq He Hi Hlen | a0 q e i s0 Hq He Hi Hs Hd0
    | a0 q e i s0 d0 Hq He Hi Hs Hd0 Hlt
    | a0 q e i s0 d0 l1 low l2 Hq He Hi Hs Hd0 Hfull Hsplit H1 H2 Hlt
    | a0 q e i s0 d0 l1 low l2 Hq He Hi Hs Hd0 Hfull Hsplit H1 H2 Hlt];
    exists a0, q, e, i; (split; [done|]); (split; [done|]); (split; [done|]).
  - left. done.
  - right. exists s0. split; [done|]. split; [done|]. left. done.
  - right. exists s0. split; [done|]. split; [done|]. right. left.
    split; [done|]. split; [|done].
    eexists. simpl. rewrite lookup_insert_eq. split; [done|]. simpl.
    rewrite fmap_app, elem_of_app. right. by left.
  - right. exists s0. split; [done|]. split; [done|]. right. right. left.
    exists low.1. split; [done|]. split; [|done].
    eexists. simpl. rewrite lookup_insert_eq. split; [done|]. simpl.
    rewrite fmap_app, elem_of_app. right. by left.
  - right. exists s0. split; [done|]. split; [done|]. right. right. right.
    split; [done|]. split; [eauto | done].
Qed.

Lemma progress_iteration evs st ev st' :
  distinct st → progress evs st → iteration st ev st' →
  progress (evs ++ [ev]) st'.
Proof.
  intros Hdist [Htried Hlast Hplaced] Hit.
  pose proof (iteration_student_dict _ _ _ Hit) as Hsd.
  destruct (iteration_summary _ _ _ Hit)
    as (a0 & q & e0 & i0 & Hq & He0 & Hi0 & Hcases).
  assert (Hqueued : ∀ s, ¬ accepted_at st a0 s).
  { intros s (d & Hd & Ha).
    apply (dist_queue_accepted _ Hdist s d a0 Hd Ha). rewrite Hq. by left. }
  assert (Hkept : ∀ a s, accepted_at st a s →
            accepted_at st' a s ∨ turned_away (evs ++ [ev]) s a).
  { intros a s Ha.
    destruct (iteration_accepted_kept _ _ _ a s Hit Ha) as [?|[r ->]]; [by left|].
    right. apply turned_away_snoc. eauto. }
  split.
  - (* tried_before *)
    intros a e i k s. rewrite Hsd. intros He Hi Hk Hs Hknown.
    apply (iteration_schools_dom _ _ _ s Hit) in Hknown.
    assert (Hold : ∀ i', pref_index st !! a = Some i' → (k < i')%nat →
              accepted_at st' a s ∨ turned_away (evs ++ [ev]) s a).
    { intros i' Hi' Hk'.
      destruct (Htried a e i' k s He Hi' Hk' Hs Hknown) as [Ha|Ha].
      - by apply Hkept.
      - right. by apply turned_away_mono. }
    destruct Hcases as [(-> & _ & Hpi & _)|(s0 & Hs0 & Hpi & Hev)].
    { rewrite Hpi in Hi. eauto. }
    rewrite Hpi in Hi. destruct (decide (a0 = a)) as [->|Hne].
    2:{ rewrite lookup_insert_ne in Hi by done. eauto. }
    rewrite lookup_insert_eq in Hi. injection Hi as <-.
    rewrite He0 in He. injection He as <-.
    destruct (decide (k = i0)) as [->|Hki]; [|apply (Hold i0); [done|lia]].
    rewrite Hs0 in Hs. injection Hs as <-.
    destruct Hev as [(-> & Hnone & _)|[(-> & Ha & _)|[(r & -> & Ha & _)|(-> & _ & _)]]].
    + rewrite Hnone in Hknown. by destruct Hknown.
    + by left.
    + by left.
    + right. apply turned_away_snoc. auto.
  - (* accepted_last *)
    intros a s e i Ha. rewrite Hsd. intros He Hi.
    destruct (iteration_accepted_from _ _ _ a s Hit Ha) as [Hold|Hnew].
    + assert (a ≠ a0) by (intros ->; by eapply Hqueued).
      assert (pref_index st !! a = Some i) as Hi'.
      { destruct Hcases as [(_ & _ & Hpi & _)|(s0 & _ & Hpi & _)];
          rewrite Hpi in Hi; [done|]. by rewrite lookup_insert_ne in Hi. }
      by eapply Hlast.
    + destruct Hcases as [(-> & _)|(s0 & Hs0 & Hpi & Hev)].
      { destruct Hnew as [?|[? ?]]; done. }
      assert (a = a0 ∧ s = s0) as [-> ->].
      { destruct Hev as [(-> & _)|[(-> & _)|[(r & -> & _)|(-> & _)]]];
          destruct Hnew as [Hn|[r' Hn]]; try done; by injection Hn. }
      rewrite Hpi, lookup_insert_eq in Hi. injection Hi as <-.
      rewrite He0 in He. injection He as <-. eauto.
  - (* placed *)
    intros a e i. rewrite Hsd. intros He Hi.
    destruct (decide (a = a0)) as [->|Hne].
    + rewrite He0 in He. injection He as <-.
      destruct Hcases as [(_ & Hlen & Hpi & _)|(s0 & Hs0 & Hpi & Hev)].
      { rewrite Hpi, Hi0 in Hi. injection Hi as <-. auto. }
      destruct Hev as [(_ & _ & ->)|[(_ & Ha & _)|[(r & _ & Ha & _)|(_ & _ & ->)]]].
      * left. rewrite elem_of_app, list_elem_of_singleton. auto.
      * right. left. eauto.
      * right. left. eauto.
      * left. rewrite elem_of_app, list_elem_of_singleton. auto.
    + assert (pref_index st !! a = Some i) as Hi'.
      { destruct Hcases as [(_ & _ & Hpi & _)|(s0 & _ & Hpi & _)];
          rewrite Hpi in Hi; [done|]. by rewrite lookup_insert_ne in Hi. }
      destruct (Hplaced a e i He Hi') as [Hin|[[s Ha]|Hlen]]; [| |auto].
      * left. rewrite Hq in Hin. apply elem_of_cons in Hin as [?|Hin]; [done|].
        destruct Hcases as [(_ & _ & _ & ->)|(s0 & _ & _ & Hev)]; [done|].
        destruct Hev as [(_ & _ & ->)|[(_ & _ & ->)|[(r & _ & _ & ->)|(_ & _ & ->)]]];
          try done; rewrite elem_of_app; auto.
      * destruct (iteration_accepted_kept _ _ _ a s Hit Ha) as [?|[r ->]];
          [right; left; eauto|].
        left. destruct Hcases as [(? & _)|(s0 & _ & _ & Hev)]; [done|].
        destruct Hev as [(? & _)|[(? & _)|[(r' & Hr & _ & ->)|(? & _)]]]; try done.
        injection Hr as -> -> ->.
        rewrite elem_of_app, list_elem_of_singleton. auto.
Qed.

Lemma progress_steps st evs st' :
  steps st evs st' → ∀ pre,
  distinct st → progress pre st → progress (pre ++ evs) st'.
Proof.
  induction 1 as [st|st ev st1 evs st2 Hit _ IH]; intros pre Hd Hp.
  - by rewrite app_nil_r.
  - apply match_iteration_spec in Hit.
    replace (pre ++ ev :: evs) with ((pre ++ [ev]) ++ evs)
      by by rewrite <- app_assoc.
    apply IH; [by eapply distinct_iteration | by eapply progress_iteration].
Qed.

Lemma progress_initial app : progress [] (initial_state app).
Proof.
  assert (Hnone : ∀ a s, ¬ accepted_at (initial_state app) a s).
  { intros a s (d & Hd & Ha). simpl in Hd. unfold make_schools_dict in Hd.
    rewrite lookup_fmap in Hd. destruct (schools app !! s); [|done].
    injection Hd as <-. simpl in Ha. by apply elem_of_nil in Ha. }
  split; simpl.
  - intros a e i k s _ Hi Hk. rewrite make_pref_index_lookup in Hi.
    case_decide; [|done]. injection Hi as <-. lia.
  - intros a s e i Ha. by destruct (Hnone a s).
  - intros a e i (stu & Hstu & <- & _)%make_student_dict_lookup _. left.
    apply list_elem_of_fmap. eauto.
Qed.

(** ** The descending sort *)

Lemma key_le_total r x y : key_le r x y = false → key_le r y x = true.
Proof.
  unfold key_le. destruct r; intros H%bool_decide_eq_false;
    apply bool_decide_eq_true; lia.
Qed.

Lemma sorted_insert_HdRel r a x l :
  key_le r a x = true → HdRel (λ u v, key_le r u v = true) a l →
  HdRel (λ u v, key_le r u v = true) a (sorted_insert r x l).
Proof.
  intros Hax Hl. destruct l as [|y l]; simpl; [by constructor|].
  destruct (key_le r x y); constructor; [done|]. by inversion Hl.
Qed.

Lemma sorted_insert_Sorted r x l :
  Sorted (λ u v, key_le r u v = true) l →
  Sorted (λ u v, key_le r u v = true) (sorted_insert r x l).
Proof.
  induction l as [|y l IH]; intros Hl; simpl.
  - constructor; constructor.
  - destruct (key_le r x y) eqn:Hxy.
    + constructor; [done|]. by constructor.
    + apply Sorted_inv in Hl as [Hl Hy]. constructor; [by apply IH|].
      apply sorted_insert_HdRel; [by apply key_le_total | done].
Qed.

Lemma sorted_Sorted r l : Sorted (λ u v, key_le r u v = true) (sorted r l).
Proof.
  induction l as [|x l IH]; simpl; [constructor|]. by apply sorted_insert_Sorted.
Qed.

Lemma Sorted_weaken {A} (R R' : A → A → Prop) (l : list A) :
  (∀ x y, R x y → R' x y) → Sorted R l → Sorted R' l.
Proof.
  intros HR. induction 1 as [|x l _ IH Hhd]; constructor; [done|].
  destruct Hhd; constructor. by apply HR.
Qed.

Lemma steps_pref_index_defined st evs st' a i :
  steps st evs st' → pref_index st !! a = Some i →
  is_Some (pref_index st' !! a).
Proof.
  intros Hsteps. revert i.
  induction Hsteps as [st|st ev st1 evs st2 Hit _ IH]; intros i Hi; [eauto|].
  apply match_iteration_spec in Hit.
  destruct (iteration_pref_index _ _ _ _ _ Hit Hi) as (j & Hj & _). eauto.
Qed.

Lemma format_results_lookup sd s names :
  format_results sd !! s = Some names →
  ∃ d, sd !! s = Some d ∧ names = (sorted true (accepted d)).*1
       ∧ names ≡ₚ (accepted d).*1.
Proof.
  unfold format_results. rewrite lookup_fmap.
  destruct (sd !! s) as [d|]; [|done]. intros [= <-].
  exists d. split; [done|]. split; [done|]. by rewrite sorted_Permutation.
Qed.

(** ** The returned allocation is a stable matching *)

Lemma run_invariants app fuel :
  well_typed app → (pop_bound app ≤ fuel)%nat →
  ∃ evs st,
    match_loop fuel (initial_state app) = Some (Ok (evs, st))
    ∧ steps (initial_state app) evs st
    ∧ unmatched st = [] ∧ consistent app st ∧ distinct st
    ∧ stable_so_far evs st ∧ progress evs st.
Proof.
  intros Hwt Hfuel.
  destruct (match_loop_finishes app fuel Hwt Hfuel) as (evs & st & Hloop).
  destruct (match_loop_steps _ _ _ _ Hloop) as (Hsteps & Hq & _).
  exists evs, st. split; [done|]. split; [done|]. split; [done|].
  split; [eapply consistent_steps; [by apply consistent_initial | done]|].
  split; [eapply distinct_steps; [by apply distinct_initial | done]|].
  split.
  - apply (stable_steps app _ _ _ Hsteps []);
      [by apply consistent_initial | apply stable_initial].
  - apply (progress_steps _ _ _ Hsteps []);
      [by apply distinct_initial | apply progress_initial].
Qed.

(** X4: the allocation the engine returns for well-typed input is a
    matching: a school's list names no student twice, is no longer than
    the school's capacity, lists its students by non-increasing score, and
    holds only input students that have the school in their preference
    list; no student is on the lists of two schools. *)
Theorem allocation_is_matching (app : App) (fuel : nat) :
  well_typed app → (pop_bound app ≤ fuel)%nat →
  ∃ alloc,
    gale_shapley_matching fuel app = Some (Ok alloc)
    ∧ (∀ s names, alloc !! s = Some names →
         NoDup names
         ∧ (∃ school, schools app !! s = Some school
              ∧ Z.of_nat (length names) ≤ School.capacity school)
         ∧ (∃ pairs, names = pairs.*1
              ∧ Sorted (λ x y : string * Z, y.2 ≤ x.2) pairs
              ∧ ∀ a sc, (a, sc) ∈ pairs →
                  ∃ stu, stu ∈ students app ∧ Student.name stu = a
                         ∧ Student.score stu = sc
                         ∧ s ∈ Student.preferences stu))
    ∧ (∀ s1 s2 a, s1 ≠ s2 → assigned alloc a s1 → ¬ assigned alloc a s2).
Proof.
  intros Hwt Hfuel.
  destruct (run_invariants app fuel Hwt Hfuel)
    as (evs & st & Hloop & _ & Hq & Hc & Hdist & _ & _).
  exists (format_results (schools_dict st)).
  split; [unfold gale_shapley_matching; by rewrite Hloop|]. split.
  - intros s names (d & Hd & -> & Hperm)%format_results_lookup.
    split; [rewrite Hperm; by eapply dist_accepted|]. split.
    + pose proof (cons_schools _ _ Hc s) as Hs. rewrite Hd in Hs. simpl in Hs.
      destruct (schools app !! s) as [school|]; [|done]. injection Hs as Hs.
      exists school. split; [done|]. rewrite <- Hs.
      rewrite length_fmap, (Permutation_length (sorted_Permutation true _)).
      by eapply cons_capacity.
    + exists (sorted true (accepted d)). split; [done|]. split.
      * eapply Sorted_weaken; [|apply (sorted_Sorted true)].
        intros x y. unfold key_le. by rewrite bool_decide_eq_true.
      * intros a sc Hin. rewrite sorted_Permutation in Hin.
        destruct (cons_accepted _ _ Hc s d a sc Hd Hin) as (e & He & Hsc & Hpref & _).
        rewrite (cons_students _ _ Hc) in He.
        apply make_student_dict_lookup in He as (stu & Hstu & Hname & ->).
        exists stu. by simpl in *.
  - intros s1 s2 a Hne (n1 & (d1 & Hd1 & _ & Hp1)%format_results_lookup & Ha1)
      (n2 & (d2 & Hd2 & _ & Hp2)%format_results_lookup & Ha2).
    rewrite Hp1 in Ha1. rewrite Hp2 in Ha2.
    by apply (dist_schools _ Hdist s1 s2 d1 d2 a).
Qed.

(** X5: the allocation is stable.  For every student and every known
    school on its preference list, the student is assigned to that school,
    or to a school it lists earlier, or else the school's list is as long
    as its capacity and names only students whose score is at least the
    student's. *)
Theorem allocation_is_stable (app : App) (fuel : nat) :
  well_typed app → (pop_bound app ≤ fuel)%nat →
  ∃ alloc,
    gale_shapley_matching fuel app = Some (Ok alloc)
    ∧ ∀ stu k s,
        stu ∈ students app → Student.preferences stu !! k = Some s →
        s ∈ dom (schools app) →
        assigned alloc (Student.name stu) s
        ∨ (∃ k' s', (k' < k)%nat ∧ Student.preferences stu !! k' = Some s'
                    ∧ assigned alloc (Student.name stu) s')
        ∨ (∃ names school,
             alloc !! s = Some names ∧ schools app !! s = Some school
             ∧ Z.of_nat (length names) = School.capacity school
             ∧ ∀ other, other ∈ students app → Student.name other ∈ names →
                 Student.score stu ≤ Student.score other).
Proof.
  intros Hwt Hfuel.
  destruct (run_invariants app fuel Hwt Hfuel)
    as (evs & st & Hloop & Hsteps & Hq & Hc & Hdist & Hstable & Hprog).
  exists (format_results (schools_dict st)).
  split; [unfold gale_shapley_matching; by rewrite Hloop|].
  intros stu k s Hstu Hk Hs. destruct Hwt as [Hnd Hpos].
  assert (He : student_dict st !! Student.name stu
               = Some (mkStudentEntry (Student.preferences stu) (Student.score stu))).
  { rewrite (cons_students _ _ Hc). by apply make_student_dict_NoDup. }
  destruct (steps_pref_index_defined _ _ _ (Student.name stu) 0%nat Hsteps)
    as [i Hi].
  { simpl. rewrite make_pref_index_lookup, decide_True; [done|].
    apply list_elem_of_fmap. eauto. }
  assert (Hassigned : ∀ a s', accepted_at st a s' →
            assigned (format_results (schools_dict st)) a s').
  { intros a s' (d & Hd & Ha). eexists. unfold format_results.
    rewrite lookup_fmap, Hd. split; [done|].
    by rewrite sorted_Permutation. }
  rewrite <- (consistent_dom _ _ Hc) in Hs. apply elem_of_dom in Hs as Hknown.
  destruct (decide (k < i)%nat) as [Hlt|Hge].
  - destruct (tried_before _ _ Hprog _ _ i k s He Hi Hlt Hk Hknown) as [Ha|Haway].
    { left. by apply Hassigned. }
    right. right. destruct Hknown as [d Hd].
    destruct (Hstable s d _ _ Hd Haway He) as [Hfull Hall].
    pose proof (cons_schools _ _ Hc s) as Hsch. rewrite Hd in Hsch. simpl in Hsch.
    destruct (schools app !! s) as [school|]; [|done]. injection Hsch as Hsch.
    exists ((sorted true (accepted d)).*1), school.
    split; [unfold format_results; by rewrite lookup_fmap, Hd|]. split; [done|].
    split.
    { rewrite length_fmap, (Permutation_length (sorted_Permutation true _)).
      pose proof (cons_capacity _ _ Hc s d Hd). lia. }
    intros other Hother Hin. rewrite sorted_Permutation in Hin.
    apply list_elem_of_fmap in Hin as ([a sc] & Ha & Hpair). simpl in Ha.
    destruct (cons_accepted _ _ Hc s d a sc Hd Hpair) as (e & He' & Hsc & _).
    rewrite (cons_students _ _ Hc), <- Ha in He'.
    rewrite (make_student_dict_NoDup _ _ Hnd Hother) in He'. injection He' as <-.
    specialize (Hall _ Hpair). simpl in *. lia.
  - destruct (placed _ _ Hprog _ _ i He Hi) as [Hin|[[s' Ha]|Hlen]].
    + rewrite Hq in Hin. by apply elem_of_nil in Hin.
    + right. left.
      destruct (accepted_last _ _ Hprog _ _ _ i Ha He Hi) as (j & -> & Hj).
      exists j, s'. split; [lia|]. split; [done|]. by apply Hassigned.
    + apply lookup_lt_Some in Hk. simpl in Hlen. lia.
Qed.

(** ** Counting and displaying changes *)

Lemma foldr_add_sum {A} (f : A → nat) (l : list A) :
  foldr (λ x acc, (acc + f x)%nat) 0%nat l = sum_list_with f l.
Proof. induction l as [|x l IH]; simpl; [done|]. rewrite IH. lia. Qed.

Lemma count_matching_changes_sum o a :
  _count_matching_changes o a
  = sum_list_with (sym_diff_size o a) (elements (dom o ∪ dom a)).
Proof. unfold _count_matching_changes. by rewrite <- foldr_add_sum. Qed.

Lemma sum_list_with_zero {A} (f : A → nat) (l : list A) :
  sum_list_with f l = 0%nat ↔ ∀ x, x ∈ l → f x = 0%nat.
Proof.
  induction l as [|x l IH]; simpl.
  - split; [by intros _ x ?%elem_of_nil | done].
  - rewrite Nat.eq_add_0, IH. split.
    + intros [Hx Hl] y [->|Hy]%elem_of_cons; auto.
    + intros H. split; [apply H; by left|]. intros y Hy. apply H. by right.
Qed.

Lemma sym_diff_size_zero o a school :
  sym_diff_size o a school = 0%nat
  ↔ admitted_set o school = admitted_set a school.
Proof.
  unfold sym_diff_size. rewrite size_empty_iff. split.
  - intros H. apply set_eq. intros x.
    pose proof (proj1 (elem_of_equiv_empty (C:=gset string) _) H x) as Hx.
    rewrite elem_of_union, !elem_of_difference in Hx.
    destruct (decide (x ∈ admitted_set o school));
      destruct (decide (x ∈ admitted_set a school)); tauto.
  - intros ->. apply elem_of_equiv_empty. intros x.
    rewrite elem_of_union, !elem_of_difference. tauto.
Qed.

Lemma admitted_set_not_key m school :
  school ∉ dom m → admitted_set m school = ∅.
Proof. intros H%not_elem_of_dom. unfold admitted_set. by rewrite H. Qed.

Lemma sym_diff_size_comm o a school :
  sym_diff_size o a school = sym_diff_size a o school.
Proof. unfold sym_diff_size. f_equal. apply (comm_L (∪)). Qed.

(** X6: the count of changes is symmetric in the two allocations, and it
    is 0 exactly when every school has the same set of admitted names in
    both (a school that is no key of an allocation counts as empty
    there). *)
Theorem count_matching_changes_metric (o a : gmap string (list string)) :
  _count_matching_changes o a = _count_matching_changes a o
  ∧ (_count_matching_changes o a = 0%nat
     ↔ ∀ school, admitted_set o school = admitted_set a school).
Proof.
  split.
  - rewrite !count_matching_changes_sum, (comm_L (∪) (dom a)).
    apply sum_list_with_ext_in. intros school _. apply sym_diff_size_comm.
  - rewrite count_matching_changes_sum, sum_list_with_zero. split.
    + intros H school.
      destruct (decide (school ∈ dom o ∪ dom a)) as [Hin|Hout].
      * apply sym_diff_size_zero, H, elem_of_elements, Hin.
      * rewrite !admitted_set_not_key; [done|set_solver..].
    + intros H school _. by apply sym_diff_size_zero.
Qed.

Lemma sym_diff_size_split o a school :
  sym_diff_size o a school
  = (size (admitted_set o school ∖ admitted_set a school)
     + size (admitted_set a school ∖ admitted_set o school))%nat.
Proof.
  unfold sym_diff_size. apply size_union. intros x.
  rewrite !elem_of_difference. tauto.
Qed.

Lemma display_school_spec o a acc school :
  let acc' := display_school o a acc school in
  acc'.1 = acc.1 || bool_decide (sym_diff_size o a school ≠ 0%nat)
  ∧ sum_list_with reported_changes acc'.2
    = (sum_list_with reported_changes acc.2 + sym_diff_size o a school)%nat
  ∧ (LineNoChanges ∈ acc'.2 → LineNoChanges ∈ acc.2)
  ∧ (sym_diff_size o a school = 0%nat → acc' = acc).
Proof.
  unfold display_school. fold (admitted_set o school) (admitted_set a school).
  case_bool_decide as Hne; simpl.
  - assert (sym_diff_size o a school ≠ 0%nat) as Hsz
      by by rewrite sym_diff_size_zero.
    rewrite (bool_decide_true _ Hsz), orb_true_r.
    split; [done|]. split; [|split; [|done]].
    + rewrite sym_diff_size_split, !sum_list_with_app.
      set (removed := admitted_set o school ∖ admitted_set a school).
      set (added := admitted_set a school ∖ admitted_set o school).
      assert (∀ (x : gset string) line,
        reported_changes line = size x →
        sum_list_with reported_changes
          (if bool_decide (x ≠ ∅) then [line] else []) = size x) as Hline.
      { intros x line Hl. case_bool_decide as Hx; simpl; [lia|].
        by rewrite Hx, size_empty. }
      cbn [sum_list_with reported_changes]. rewrite !sum_list_with_app.
      rewrite !Hline by done. simpl. lia.
    + rewrite elem_of_app, elem_of_cons, !elem_of_app.
      intros [?|[Hin|[Hin|[Hin|Hin]]]]; [done|..].
      * done.
      * case_bool_decide; [by apply list_elem_of_singleton in Hin
                          |by apply elem_of_nil in Hin].
      * case_bool_decide; [by apply list_elem_of_singleton in Hin
                          |by apply elem_of_nil in Hin].
      * by apply list_elem_of_singleton in Hin.
  - apply sym_diff_size_zero in Hne.
    rewrite Hne. rewrite bool_decide_false by lia. rewrite orb_false_r.
    split; [done|]. split; [lia|]. split; [done|]. by destruct acc.
Qed.

Lemma display_fold_spec o a l acc :
  let acc' := foldl (display_school o a) acc l in
  (acc'.1 = true ↔ acc.1 = true ∨ sum_list_with (sym_diff_size o a) l ≠ 0%nat)
  ∧ sum_list_with reported_changes acc'.2
    = (sum_list_with reported_changes acc.2 + sum_list_with (sym_diff_size o a) l)%nat
  ∧ (LineNoChanges ∈ acc'.2 → LineNoChanges ∈ acc.2)
  ∧ (sum_list_with (sym_diff_size o a) l = 0%nat → acc' = acc).
Proof.
  revert acc. induction l as [|school l IH]; intros acc; simpl.
  - split; [intuition lia|]. split; [lia|]. done.
  - destruct (display_school_spec o a acc school) as (Hb & Hsum & Hno & Hsame).
    destruct (IH (display_school o a acc school)) as (Hb' & Hsum' & Hno' & Hsame').
    split; [|split; [|split]].
    + rewrite Hb', Hb, orb_true_iff, bool_decide_eq_true.
      generalize (acc.1 = true). intros P. split; [intros [[?|?]|?]|intros [?|?]].
      * by left.
      * right. lia.
      * right. lia.
      * left. by left.
      * destruct (decide (sym_diff_size o a school = 0%nat)).
        -- right. lia.
        -- left. by right.
    + rewrite Hsum', Hsum. lia.
    + auto.
    + intros [H1 H2]%Nat.eq_add_0. rewrite Hsame' by done. by apply Hsame.
Qed.

Lemma display_count_spec (o a : gmap string (list string)) :
  sum_list_with reported_changes (_display_matching_changes o a)
  = _count_matching_changes o a
  ∧ (LineNoChanges ∈ _display_matching_changes o a
     ↔ _count_matching_changes o a = 0%nat)
  ∧ (_count_matching_changes o a = 0%nat
     → _display_matching_changes o a = [LineNoChanges]).
Proof.
  rewrite count_matching_changes_sum. unfold _display_matching_changes.
  destruct (display_fold_spec o a (elements (dom o ∪ dom a)) (false, []))
    as (Hb & Hsum & Hno & Hsame).
  destruct (foldl (display_school o a) (false, [])
              (elements (dom o ∪ dom a))) as [found text] eqn:Hfold.
  simpl in *. destruct found.
  - assert (sum_list_with (sym_diff_size o a) (elements (dom o ∪ dom a)) ≠ 0%nat)
      as Hnz by (destruct Hb as [[?|?] _]; done).
    split; [rewrite Hsum; lia|]. split; [|done].
    split; [|done]. intros Hin. apply Hno in Hin. by apply elem_of_nil in Hin.
  - assert (sum_list_with (sym_diff_size o a) (elements (dom o ∪ dom a)) = 0%nat)
      as Hz.
    { destruct (decide (sum_list_with (sym_diff_size o a)
                          (elements (dom o ∪ dom a)) = 0%nat)); [done|].
      destruct Hb as [_ Hb]. by discriminate Hb; auto. }
    specialize (Hsame Hz). injection Hsame as ->.
    split; [simpl; lia|]. split; [|done]. split; [done|].
    intros _. simpl. by left.
Qed.

(** X7: what [_display_matching_changes] writes agrees with
    [_count_matching_changes]: the names it reports as removed or added
    are as many as the count, and it writes the no-changes line exactly
    when the count is 0, in which case it writes nothing else. *)
Theorem display_agrees_with_count (o a : gmap string (list string)) :
  sum_list_with reported_changes (_display_matching_changes o a)
  = _count_matching_changes o a
  ∧ (LineNoChanges ∈ _display_matching_changes o a
     ↔ _count_matching_changes o a = 0%nat)
  ∧ (_count_matching_changes o a = 0%nat
     → _display_matching_changes o a = [LineNoChanges]).
Proof. apply display_count_spec. Qed.

(** ** The animation window follows the engine *)


Lemma steps_snoc st evs st1 ev st2 :
  steps st evs st1 → match_iteration st1 = Ok (ev, st2) →
  steps st (evs ++ [ev]) st2.
Proof.
  intros H Hit. eapply steps_app; [done|].
  eapply steps_cons; [done|constructor].
Qed.

Lemma animation_run_step_done state :
  Animation.unmatched state = [] →
  ∃ state', _animation_run_step state = Ok state'
    ∧ engine_state state' = engine_state state
    ∧ Animation.history state' = Animation.history state
    ∧ Animation.running state' = false.
Proof.
  intros Hq. unfold _animation_run_step. rewrite Hq.
  eexists. split; [done|]. unfold engine_state. simpl. by rewrite Hq.
Qed.

Lemma animation_run_step_running state state' :
  Animation.unmatched state ≠ [] →
  _animation_run_step state = Ok state' →
  Animation.running state' = Animation.running state.
Proof.
  intros Hne. unfold _animation_run_step.
  destruct (Animation.unmatched state) as [|a q]; [done|].
  unfold getitem.
  destruct (Animation.student_dict state !! a) as [e|]; [|done].
  destruct (Animation.pref_index state !! a) as [i|]; [|done].
  unfold_bind. cbn.
  case_bool_decide; [by intros [= <-]|].
  destruct (list_getitem (prefs e) i) as [s|]; [|done].
  destruct (Animation.schools_dict state !! s) as [d|]; [|by intros [= <-]].
  case_bool_decide; [by intros [= <-]|].
  destruct (list_getitem (sorted false (accepted d)) 0) as [low|]; [|done].
  case_bool_decide; [|by intros [= <-]].
  destruct (list_remove_first low (accepted d)) as [rem|]; [|done].
  by intros [= <-].
Qed.

(** A call of [_animation_run_step] in a window that is on a run of the
    engine: it does not raise and the window stays on the run. *)
Lemma run_step_on_canvas_on_run app trace w :
  well_typed app →
  steps (initial_state app) trace (engine_state (w_state w)) →
  Animation.history (w_state w) = mjoin (recorded <$> trace) →
  ∃ w' trace',
    run_step_on_canvas w = Ok w'
    ∧ steps (initial_state app) trace' (engine_state (w_state w'))
    ∧ Animation.history (w_state w') = mjoin (recorded <$> trace')
    ∧ (Animation.running (w_state w') = true → (0 < pending w')%nat)
    ∧ (Animation.unmatched (w_state w) = [] → trace' = trace)
    ∧ (Animation.unmatched (w_state w) ≠ [] →
       ∃ ev, trace' = trace ++ [ev]
         ∧ match_iteration (engine_state (w_state w))
           = Ok (ev, engine_state (w_state w'))
         ∧ Animation.running (w_state w') = Animation.running (w_state w)
         ∧ pending w'
           = (pending w + (if Animation.running (w_state w) then 1 else 0))%nat).
Proof.
  intros Hwt Hsteps Hhist. unfold run_step_on_canvas, schedules_next.
  destruct (Animation.unmatched (w_state w)) as [|a q] eqn:Hq.
  - destruct (animation_run_step_done _ Hq) as (state' & -> & Heng & Hh & Hrun).
    unfold_bind. cbn. exists (mkWindow state' (pending w + 0)), trace. simpl.
    split; [done|]. split; [by rewrite Heng|]. split; [by rewrite Hh|].
    split; [by rewrite Hrun|]. split; done.
  - assert (Animation.unmatched (w_state w) ≠ []) as Hne by by rewrite Hq.
    pose proof (animation_run_step_sim _ Hne) as Hsim.
    pose proof (animation_run_step_running (w_state w)) as Hrun.
    assert (consistent app (engine_state (w_state w))) as Hc.
    { eapply consistent_steps; [by apply consistent_initial|done]. }
    destruct (match_iteration_total app (engine_state (w_state w)) Hwt Hc Hne)
      as (ev0 & st0 & Hit0).
    destruct (_animation_run_step (w_state w)) as [state'|e].
    2:{ rewrite Hit0 in Hsim. done. }
    destruct Hsim as (ev & Hit & Hh & _). specialize (Hrun state' Hne eq_refl).
    unfold_bind. cbn.
    exists (mkWindow state'
              (pending w + (if Animation.running (w_state w) then 1 else 0))),
      (trace ++ [ev]).
    cbn [w_state pending].
    split; [done|]. split; [by eapply steps_snoc|].
    split.
    { rewrite Hh, Hhist, fmap_app, join_app. simpl. by rewrite app_nil_r. }
    split; [rewrite Hrun; intros ->; lia|]. split; [done|].
    intros _. exists ev. by rewrite Hrun.
Qed.

Lemma handle_on_run app trace w ev :
  well_typed app → on_run app trace w →
  ∃ w' trace', handle app w ev = Ok w' ∧ on_run app trace' w'.
Proof.
  intros Hwt [Hsteps Hhist Htimer]. destruct ev; simpl.
  - unfold _animation_start. simpl.
    destruct (Animation.running (w_state w)) eqn:Hrun; simpl.
    + eexists _, trace. split; [done|]. split; simpl; done.
    + destruct (run_step_on_canvas_on_run app trace
        (mkWindow (with_running true (w_state w)) (pending w)) Hwt Hsteps Hhist)
        as (w' & trace' & -> & ? & ? & ? & _).
      exists w', trace'. split; [done|]. by split.
  - destruct (run_step_on_canvas_on_run app trace
      (mkWindow (with_running false (w_state w)) (pending w)) Hwt Hsteps Hhist)
      as (w' & trace' & -> & ? & ? & ? & _).
    exists w', trace'. split; [done|]. by split.
  - eexists _, []. split; [done|]. split; simpl; [constructor|done|done].
  - destruct (pending w) as [|n] eqn:Hp.
    + exists w, trace. split; [done|]. split; [done|done|]. by rewrite Hp.
    + destruct (run_step_on_canvas_on_run app trace
        (mkWindow (w_state w) n) Hwt Hsteps Hhist)
        as (w' & trace' & -> & ? & ? & ? & _).
      exists w', trace'. split; [done|]. by split.
Qed.

Lemma handle_all_on_run app trace w evs :
  well_typed app → on_run app trace w →
  ∃ w' trace', handle_all app w evs = Ok w' ∧ on_run app trace' w'.
Proof.
  intros Hwt. revert trace w.
  induction evs as [|ev evs IH]; intros trace w Hon; simpl.
  - by exists w, trace.
  - destruct (handle_on_run app trace w ev Hwt Hon) as (w1 & trace1 & -> & Hon1).
    unfold_bind. cbn. by apply (IH trace1).
Qed.

Lemma opened_on_run app : on_run app [] (opened app).
Proof. split; simpl; [constructor|done|done]. Qed.





(** ** The panel of rejected students *)


Lemma replaced_names_of_trace (evs : list Event) (a : string) :
  a ∈ omap replaced_name (mjoin (recorded <$> evs))
  ↔ ∃ b s, Replaced b s a ∈ evs.
Proof.
  induction evs as [|ev evs IH]; simpl.
  - split; [by intros ?%elem_of_nil|by intros (? & ? & ?%elem_of_nil)].
  - rewrite omap_app, elem_of_app, IH. split.
    + intros [Hin|(b & s & Hin)].
      * destruct ev; simpl in Hin; try by apply elem_of_nil in Hin.
        all: unfold replaced_name in Hin; simpl in Hin;
          try by apply elem_of_nil in Hin.
        apply list_elem_of_singleton in Hin as ->.
        eexists _, _. by left.
      * exists b, s. by right.
    + intros (b & s & [<-|Hin]%elem_of_cons).
      * left. simpl. unfold replaced_name. simpl. by left.
      * right. eauto.
Qed.

Lemma replaced_is_known app st evs st' b s a :
  steps st evs st' → consistent app st → Replaced b s a ∈ evs →
  is_Some (student_dict st' !! a) ∧ is_Some (pref_index st' !! a).
Proof.
  intros Hsteps. induction Hsteps as [|st ev st1 evs st2 Hit Hrest IH];
    intros Hc Hin; [by apply elem_of_nil in Hin|].
  pose proof Hit as Hiter. apply match_iteration_spec in Hiter.
  apply elem_of_cons in Hin as [<-|Hin].
  - assert (is_Some (student_dict st !! a) ∧ is_Some (pref_index st !! a))
      as [Hs [i Hi]].
    { inversion Hiter as [| | |a0 q e i s0 d l1 low l2 Hq He Hi Hs Hd Hfull Hsplit|];
        subst.
      destruct low as [r sc].
      destruct (cons_accepted _ _ Hc s d r sc Hd) as (e' & He' & _ & _ & Hi').
      { rewrite Hsplit, elem_of_app, elem_of_cons. auto. }
      simpl. split; [eauto|done]. }
    assert (consistent app st2) as Hc2.
    { eapply consistent_steps; [exact Hc|]. by eapply steps_cons. }
    split.
    + by rewrite (cons_students _ _ Hc2), <- (cons_students _ _ Hc).
    + eapply steps_pref_index_defined; [|exact Hi]. by eapply steps_cons.
  - apply IH; [|done]. by eapply consistent_iteration.
Qed.

(** X10: the names the animation lists under "Rejected Students" are
    students who are not in the queue and who either hold a place at a
    school at that moment or have no preference left to try. *)
Theorem rejected_panel (app : App) (evs : list UiEvent) (w : Window) (a : string) :
  well_typed app →
  handle_all app (opened app) evs = Ok w →
  a ∈ rejected_students (w_state w) →
  (a ∉ Animation.unmatched (w_state w))
  ∧ ∃ stu i, stu ∈ students app ∧ Student.name stu = a
      ∧ Animation.pref_index (w_state w) !! a = Some i
      ∧ ((∃ s d, Animation.schools_dict (w_state w) !! s = Some d
                 ∧ a ∈ (accepted d).*1)
         ∨ (length (Student.preferences stu) ≤ i)%nat).
Proof.
  intros Hwt Hall Hin.
  destruct (handle_all_on_run app [] (opened app) evs Hwt (opened_on_run app))
    as (w' & trace & Hall' & [Hsteps Hhist _]).
  rewrite Hall in Hall'. injection Hall' as <-.
  unfold rejected_students in Hin. rewrite Hhist in Hin.
  apply elem_of_difference in Hin as [Hrep Hq].
  rewrite elem_of_list_to_set in Hrep, Hq.
  split; [done|].
  apply replaced_names_of_trace in Hrep as (b & s & Hrep).
  pose proof (consistent_initial app Hwt) as Hc0.
  destruct (replaced_is_known app _ _ _ b s a Hsteps Hc0 Hrep) as [[e He] [i Hi]].
  assert (consistent app (engine_state (w_state w))) as Hc
    by by eapply consistent_steps.
  pose proof (progress_steps _ _ _ Hsteps [] (distinct_initial app Hwt)
                (progress_initial app)) as Hp. simpl in Hp.
  pose proof He as He'. rewrite (cons_students _ _ Hc) in He'.
  apply make_student_dict_lookup in He' as (stu & Hstu & Hname & ->).
  exists stu, i. split; [done|]. split; [done|]. split; [done|].
  destruct (placed _ _ Hp a _ i He Hi) as [Hqueue|[(s' & d & Hd & Ha)|Hlen]].
  - done.
  - left. eauto.
  - by right.
Qed.

(** ** Only the ranking of the scores matters *)


Section Rescored.

Variables sd sd' : gmap string StudentEntry.

Hypothesis Hsr : same_ranking sd sd'.

Lemma known_pair_rescore p :
  known_pair sd p → ∃ e e', sd !! p.1 = Some e ∧ sd' !! p.1 = Some e'
    ∧ p.2 = score e ∧ rescore sd' p = (p.1, score e') ∧ prefs e' = prefs e.
Proof.
  intros (e & He & Hs). pose proof (sr_prefs _ _ Hsr p.1) as Hp.
  rewrite He in Hp. destruct (sd' !! p.1) as [e'|] eqn:He'; [|done].
  injection Hp as Hp. exists e, e'. unfold rescore. rewrite He'. done.
Qed.

Lemma key_le_rescore r p q :
  known_pair sd p → known_pair sd q →
  key_le r (rescore sd' p) (rescore sd' q) = key_le r p q.
Proof.
  intros (ep & ep' & Hp & Hp' & Hps & -> & _)%known_pair_rescore
         (eq & eq' & Hq & Hq' & Hqs & -> & _)%known_pair_rescore.
  unfold key_le. simpl. rewrite Hps, Hqs.
  destruct r; apply bool_decide_ext; symmetry; by eapply sr_order.
Qed.

Lemma sorted_insert_rescore r x l :
  known_pair sd x → Forall (known_pair sd) l →
  sorted_insert r (rescore sd' x) (rescore sd' <$> l)
  = rescore sd' <$> sorted_insert r x l.
Proof.
  intros Hx. induction 1 as [|y l Hy Hl IH]; csimpl; [done|].
  rewrite key_le_rescore by done. destruct (key_le r x y); csimpl; [done|].
  by rewrite IH.
Qed.

Lemma sorted_insert_known r x l :
  known_pair sd x → Forall (known_pair sd) l →
  Forall (known_pair sd) (sorted_insert r x l).
Proof.
  intros Hx Hl. rewrite sorted_insert_Permutation. by constructor.
Qed.

Lemma sorted_rescore r l :
  Forall (known_pair sd) l →
  sorted r (rescore sd' <$> l) = rescore sd' <$> sorted r l.
Proof.
  induction 1 as [|x l Hx Hl IH]; csimpl; [done|].
  unfold sorted in *. simpl. rewrite IH.
  apply sorted_insert_rescore; [done|].
  fold (sorted r l). by rewrite sorted_Permutation.
Qed.

Lemma rescore_inj p q :
  known_pair sd p → known_pair sd q → rescore sd' p = rescore sd' q → p = q.
Proof.
  intros (e & He & Hs) (e0 & He0 & Hs0) [= Hname _].
  destruct p as [a sc], q as [b sc0]. simpl in *. subst b.
  rewrite He in He0. injection He0 as <-. congruence.
Qed.

Lemma list_remove_first_rescore x l :
  known_pair sd x → Forall (known_pair sd) l →
  match list_remove_first x l with
  | Ok l1 => list_remove_first (rescore sd' x) (rescore sd' <$> l)
             = Ok (rescore sd' <$> l1)
             ∧ Forall (known_pair sd) l1
  | Raise e => list_remove_first (rescore sd' x) (rescore sd' <$> l) = Raise e
  end.
Proof.
  intros Hx. induction 1 as [|y l Hy Hl IH]; csimpl; [done|].
  destruct (decide (x = y)) as [->|Hne].
  - by rewrite decide_True.
  - rewrite decide_False by (intros ?%rescore_inj; done).
    destruct (list_remove_first x l) as [l1|e]; unfold_bind; cbn.
    + destruct IH as [-> Hl1]. split; [done|]. by constructor.
    + by rewrite IH.
Qed.

Lemma match_iteration_rescored st st' :
  rescored sd sd' st st' →
  match match_iteration st with
  | Ok (ev, st1) =>
    ∃ st1', match_iteration st' = Ok (ev, st1') ∧ rescored sd sd' st1 st1'
  | Raise e => match_iteration st' = Raise e
  end.
Proof.
  intros [Hsd Hsd' Hq Hpi Hsch Hacc]. unfold match_iteration.
  rewrite Hq, Hpi, Hsd, Hsd', Hsch.
  destruct (unmatched st) as [|a rest]; [done|]. unfold getitem.
  pose proof (sr_prefs _ _ Hsr a) as Hp.
  destruct (sd !! a) as [e|] eqn:He, (sd' !! a) as [e'|] eqn:He';
    try done. injection Hp as Hp.
  destruct (pref_index st !! a) as [i|]; [|done].
  unfold_bind. cbn. rewrite Hp.
  case_bool_decide.
  { eexists. split; [done|]. by split. }
  destruct (list_getitem (prefs e) i) as [s|]; [|done].
  rewrite lookup_fmap.
  destruct (schools_dict st !! s) as [d|] eqn:Hd; simpl.
  2:{ eexists. split; [done|]. by split. }
  assert (Forall (known_pair sd) (accepted d)) as Hknown.
  { apply Forall_forall. intros p Hin. by eapply Hacc. }
  assert (known_pair sd (a, score e)) as Ha by by exists e.
  assert (rescore sd' (a, score e) = (a, score e')) as Hra.
  { unfold rescore. simpl. by rewrite He'. }
  assert (∀ acc, Forall (known_pair sd) acc →
    rescored sd sd'
      {| student_dict := sd;
         schools_dict := <[s := mkSchoolEntry (capacity d) acc]> (schools_dict st);
         unmatched := unmatched st; pref_index := pref_index st |}
      {| student_dict := sd';
         schools_dict :=
           <[s := mkSchoolEntry (capacity d) (rescore sd' <$> acc)]>
             (rescore_school sd' <$> schools_dict st);
         unmatched := unmatched st; pref_index := pref_index st |}) as Hnew.
  { intros acc Hall. split; simpl; try done.
    - by rewrite fmap_insert.
    - intros s0 d0 p. destruct (decide (s = s0)) as [<-|Hne].
      + rewrite lookup_insert_eq. intros [= <-]. simpl.
        rewrite Forall_forall in Hall. apply Hall.
      + rewrite lookup_insert_ne by done. apply Hacc. }
  rewrite length_fmap. case_bool_decide.
  { eexists. split; [done|].
    specialize (Hnew (accepted d ++ [(a, score e)])).
    rewrite fmap_app in Hnew. simpl in Hnew. rewrite Hra in Hnew.
    destruct Hnew as [? ? ? ? Hs' Ha'];
      [apply Forall_app; split; [done|by constructor]|].
    split; simpl in *; done. }
  rewrite sorted_rescore by done. unfold list_getitem.
  rewrite list_lookup_fmap.
  destruct (sorted false (accepted d) !! 0%nat) as [low|] eqn:Hlow;
    simpl; [|done].
  assert (known_pair sd low) as Hklow.
  { apply list_elem_of_lookup_2 in Hlow. rewrite sorted_Permutation in Hlow.
    by eapply Hacc. }
  destruct (known_pair_rescore low Hklow)
    as (el & el' & Hel & Hel' & Hls & Hrl & _).
  rewrite Hrl. simpl.
  assert (low.2 < score e ↔ score el' < score e') as Hcmp.
  { rewrite Hls.
    pose proof (sr_order _ _ Hsr a low.1 e el e' el' He Hel He' Hel'). lia. }
  rewrite Hel'. cbn [fmap option_fmap option_map default].
  case_bool_decide as Hlt.
  - rewrite bool_decide_true by by apply Hcmp.
    pose proof (list_remove_first_rescore low (accepted d) Hklow Hknown) as Hrem.
    rewrite Hrl in Hrem.
    destruct (list_remove_first low (accepted d)) as [rem|ex].
    + destruct Hrem as [-> Hkrem]. eexists. split; [done|].
      specialize (Hnew (rem ++ [(a, score e)])).
      rewrite fmap_app in Hnew. simpl in Hnew. rewrite Hra in Hnew.
      destruct Hnew as [? ? ? ? Hs' Ha'];
        [apply Forall_app; split; [done|by constructor]|].
      split; simpl in *; done.
    + by rewrite Hrem.
  - rewrite bool_decide_false by (intros ?; by apply Hlt, Hcmp).
    eexists. split; [done|]. by split.
Qed.

Lemma match_loop_rescored fuel st st' :
  rescored sd sd' st st' →
  match match_loop fuel st with
  | None => match_loop fuel st' = None
  | Some (Raise e) => match_loop fuel st' = Some (Raise e)
  | Some (Ok (evs, st1)) =>
    ∃ st1', match_loop fuel st' = Some (Ok (evs, st1'))
            ∧ rescored sd sd' st1 st1'
  end.
Proof.
  revert st st'. induction fuel as [|fuel IH]; intros st st' Hrs; simpl;
    rewrite (rs_queue _ _ _ _ Hrs).
  - destruct (unmatched st); [|done]. by exists st'.
  - destruct (unmatched st); [by exists st'|].
    pose proof (match_iteration_rescored st st' Hrs) as Hit.
    destruct (match_iteration st) as [[ev st1]|e]; [|by rewrite Hit].
    destruct Hit as (st1' & -> & Hrs1). specialize (IH st1 st1' Hrs1).
    destruct (match_loop fuel st1) as [[[evs st2]|e]|].
    + destruct IH as (st2' & -> & Hrs2). by exists st2'.
    + by rewrite IH.
    + by rewrite IH.
Qed.

Lemma format_results_rescored st st' :
  rescored sd sd' st st' →
  format_results (schools_dict st') = format_results (schools_dict st).
Proof.
  intros [_ _ _ _ Hsch Hacc]. unfold format_results. rewrite Hsch.
  rewrite <- map_fmap_compose. apply map_fmap_ext. intros s d Hd. simpl.
  rewrite sorted_rescore.
  - rewrite <- list_fmap_compose. by apply list_fmap_ext.
  - apply Forall_forall. intros p Hp. by eapply Hacc.
Qed.

End Rescored.

Lemma student_dicts_alike_from (l l' : list Student.t)
    (acc acc' : gmap string StudentEntry) :
  Forall2 (λ s s', Student.name s' = Student.name s
                   ∧ Student.preferences s' = Student.preferences s) l l' →
  (∀ a, prefs <$> acc' !! a = prefs <$> acc !! a) →
  ∀ a,
    prefs <$> foldl (λ d s, <[Student.name s :=
                mkStudentEntry (Student.preferences s) (Student.score s)]> d)
              acc' l' !! a
    = prefs <$> foldl (λ d s, <[Student.name s :=
                mkStudentEntry (Student.preferences s) (Student.score s)]> d)
              acc l !! a.
Proof.
  intros H. revert acc acc'.
  induction H as [|s s' l l' [Hn Hp] _ IH]; intros acc acc' Hacc a; simpl;
    [done|].
  apply IH. intros b. rewrite Hn.
  destruct (decide (Student.name s = b)) as [<-|Hne].
  - rewrite !lookup_insert_eq. simpl. by rewrite Hp.
  - by rewrite !lookup_insert_ne.
Qed.

Lemma student_dicts_alike (l l' : list Student.t) :
  Forall2 (λ s s', Student.name s' = Student.name s
                   ∧ Student.preferences s' = Student.preferences s) l l' →
  ∀ a, prefs <$> make_student_dict l' !! a = prefs <$> make_student_dict l !! a.
Proof. intros H. by apply student_dicts_alike_from. Qed.

Lemma make_pref_index_names (l l' : list Student.t) :
  Student.name <$> l' = Student.name <$> l →
  make_pref_index l' = make_pref_index l.
Proof.
  intros Hn.
  assert (∀ l0, make_pref_index l0
                = foldl (λ d n, <[n := 0%nat]> d) ∅ (Student.name <$> l0)) as Hf.
  { intros l0. unfold make_pref_index. by rewrite foldl_fmap. }
  by rewrite !Hf, Hn.
Qed.

Lemma same_ranking_of_alike (l l' : list Student.t) :
  NoDup (Student.name <$> l) → ranked_alike l l' →
  same_ranking (make_student_dict l) (make_student_dict l').
Proof.
  intros Hnd [Hall Hord].
  assert (Student.name <$> l' = Student.name <$> l) as Hnames.
  { apply adjusted_names. eapply Forall2_impl; [done|]. by intros ? ? [? _]. }
  assert (∀ a e e', make_student_dict l !! a = Some e →
                    make_student_dict l' !! a = Some e' →
    ∃ i s s', l !! i = Some s ∧ l' !! i = Some s'
      ∧ score e = Student.score s ∧ score e' = Student.score s') as Hpos.
  { intros a e e' (s & Hs & Hsa & ->)%make_student_dict_lookup
      (s' & Hs' & Hsa' & ->)%make_student_dict_lookup.
    apply list_elem_of_lookup_1 in Hs as [i Hi].
    apply list_elem_of_lookup_1 in Hs' as [j Hj].
    assert (i = j) as <-.
    { eapply NoDup_lookup; [exact Hnd| |].
      - rewrite list_lookup_fmap, Hi. simpl. by rewrite Hsa.
      - rewrite <- Hnames, list_lookup_fmap, Hj. simpl. by rewrite Hsa'. }
    by exists i, s, s'. }
  split; [by apply student_dicts_alike|].
  intros a b ea eb ea' eb' Ha Hb Ha' Hb'.
  destruct (Hpos a ea ea' Ha Ha') as (i & s1 & s1' & ? & ? & -> & ->).
  destruct (Hpos b eb eb' Hb Hb') as (j & s2 & s2' & ? & ? & -> & ->).
  by eapply Hord.
Qed.

Lemma rescored_initial (app app' : App) :
  schools app' = schools app →
  Student.name <$> students app' = Student.name <$> students app →
  rescored (make_student_dict (students app)) (make_student_dict (students app'))
    (initial_state app) (initial_state app').
Proof.
  intros Hsch Hnames. split; simpl; try done.
  - by apply make_pref_index_names.
  - rewrite Hsch. unfold make_schools_dict. rewrite <- map_fmap_compose.
    by apply map_fmap_ext.
  - intros s d p. unfold make_schools_dict. rewrite lookup_fmap.
    destruct (schools app !! s); [|done]. intros [= <-]. simpl.
    by intros ?%elem_of_nil.
Qed.

Lemma engine_on_ranked_alike (app app' : App) (fuel : nat) :
  NoDup (Student.name <$> students app) →
  schools app' = schools app →
  ranked_alike (students app) (students app') →
  gale_shapley_matching fuel app' = gale_shapley_matching fuel app
  ∧ trace fuel app' = trace fuel app.
Proof.
  intros Hnd Hsch Halike.
  pose proof (same_ranking_of_alike _ _ Hnd Halike) as Hsr.
  assert (Student.name <$> students app' = Student.name <$> students app)
    as Hnames.
  { apply adjusted_names. destruct Halike as [Hall _].
    eapply Forall2_impl; [done|]. by intros ? ? [? _]. }
  pose proof (match_loop_rescored _ _ Hsr fuel _ _
                (rescored_initial app app' Hsch Hnames)) as Hloop.
  unfold gale_shapley_matching, trace.
  destruct (match_loop fuel (initial_state app)) as [[[evs st]|e]|].
  - destruct Hloop as (st' & -> & Hrs).
    by rewrite (format_results_rescored _ _ Hsr _ _ Hrs).
  - by rewrite Hloop.
  - by rewrite Hloop.
Qed.

(** X15: the engine reads the scores only to compare them.  Two inputs
    with the same schools whose students agree, position by position, on
    names and preferences and whose scores compare alike give the same
    result (allocation, exception or non-termination within the fuel) by
    the same iterations. *)
Theorem ranking_determines_allocation (app app' : App) (fuel : nat) :
  NoDup (Student.name <$> students app) →
  schools app' = schools app →
  ranked_alike (students app) (students app') →
  gale_shapley_matching fuel app' = gale_shapley_matching fuel app
  ∧ trace fuel app' = trace fuel app.
Proof. apply engine_on_ranked_alike. Qed.

(** X16: a factor that keeps the order of the scores (after the
    truncation to integers) changes nothing: the analysis returns the
    baseline allocation and restores the students, the count of changes
    is 0, and the text of the changes is the single no-changes line. *)
Theorem order_preserving_factor (app : App) (fuel : nat) (factor : spec_float)
    (adjusted : list Student.t) :
  well_typed app → (pop_bound app ≤ fuel)%nat →
  adjust_students factor (students app) = Ok adjusted →
  (∀ i j s1 s2 s1' s2',
     students app !! i = Some s1 → students app !! j = Some s2 →
     adjusted !! i = Some s1' → adjusted !! j = Some s2' →
     (Student.score s1 ≤ Student.score s2
      ↔ Student.score s1' ≤ Student.score s2')) →
  ∃ baseline,
    gale_shapley_matching fuel app = Some (Ok baseline)
    ∧ _run_adjusted_matching fuel factor app = Some (app, Ok baseline)
    ∧ _count_matching_changes baseline baseline = 0%nat
    ∧ _display_matching_changes baseline baseline = [LineNoChanges].
Proof.
  intros Hwt Hfuel Hadj Hord.
  destruct (match_loop_finishes app fuel Hwt Hfuel) as (evs & st & Hloop).
  exists (format_results (schools_dict st)).
  assert (Hbase : gale_shapley_matching fuel app
                  = Some (Ok (format_results (schools_dict st)))).
  { unfold gale_shapley_matching. by rewrite Hloop. }
  split; [done|]. split.
  - unfold _run_adjusted_matching. rewrite Hadj.
    destruct (engine_on_ranked_alike app (mkApp adjusted (schools app)) fuel)
      as [-> _]; [by destruct Hwt|done| |].
    + split; [|done]. apply adjust_students_spec in Hadj.
      eapply Forall2_impl; [done|]. by intros ? ? (? & ? & _).
    + rewrite Hbase. simpl. by destruct app.
  - split; [apply count_matching_changes_same|].
    apply display_count_spec, count_matching_changes_same.
Qed.

(** ** The charts of the sensitivity analysis *)


Lemma store_allocations_spec adjusted_matches allocations keys :
  NoDup keys → (∀ k, k ∈ keys → is_Some (allocations !! k)) →
  ∃ allocations',
    store_allocations adjusted_matches allocations keys = Ok allocations'
    ∧ ∀ k, allocations' !! k
           = if decide (k ∈ keys) then
               (λ counts, counts ++ [match adjusted_matches !! k with
                                     | Some names => length names
                                     | None => 0%nat
                                     end]) <$> allocations !! k
             else allocations !! k.
Proof.
  revert allocations. induction keys as [|school keys IH];
    intros allocations Hnd Hkeys; cbn [store_allocations].
  - exists allocations. split; [done|]. intros k.
    rewrite decide_False; [done|]. by intros ?%elem_of_nil.
  - apply NoDup_cons in Hnd as [Hnotin Hnd].
    destruct (Hkeys school) as [counts Hcounts]; [by left|].
    unfold store_allocation, getitem. rewrite Hcounts. unfold_bind. cbn.
    destruct (IH (<[school := counts ++ [match adjusted_matches !! school with
                                         | Some names => length names
                                         | None => 0%nat
                                         end]]> allocations) Hnd)
      as (allocations' & -> & Hspec).
    { intros k Hk. destruct (decide (school = k)) as [<-|Hne].
      - rewrite lookup_insert_eq. eauto.
      - rewrite lookup_insert_ne by done. apply Hkeys. by right. }
    exists allocations'. split; [done|]. intros k. rewrite Hspec.
    destruct (decide (school = k)) as [<-|Hne].
    + rewrite decide_False by done. rewrite decide_True by by left.
      by rewrite lookup_insert_eq, Hcounts.
    + rewrite lookup_insert_ne by done.
      destruct (decide (k ∈ keys)) as [Hin|Hout].
      * rewrite decide_True by by right. done.
      * rewrite decide_False; [done|].
        intros [?|?]%elem_of_cons; [by subst|done].
Qed.

(** The analysis on scores that convert: it returns, restores the
    students, and gives no school more students than it has places. *)
Lemma adjusted_matching_bounded app fuel factor adjusted :
  well_typed app → (pop_bound app ≤ fuel)%nat →
  adjust_students factor (students app) = Ok adjusted →
  ∃ adjusted_matches,
    _run_adjusted_matching fuel factor app = Some (app, Ok adjusted_matches)
    ∧ ∀ s names, adjusted_matches !! s = Some names →
        ∃ school, schools app !! s = Some school
          ∧ Z.of_nat (length names) ≤ School.capacity school.
Proof.
  intros [Hnd Hpos] Hfuel Hadj. unfold _run_adjusted_matching. rewrite Hadj.
  pose proof (adjust_students_spec _ _ _ Hadj) as Hspec.
  assert (Student.name <$> adjusted = Student.name <$> students app) as Hnames.
  { apply adjusted_names. eapply Forall2_impl; [done|]. by intros ? ? (? & _). }
  set (app' := mkApp adjusted (schools app)).
  assert (well_typed app') as Hwt'.
  { split; simpl; [by rewrite Hnames|done]. }
  assert (pop_bound app' = pop_bound app) as Hbound.
  { unfold pop_bound. simpl. f_equal.
    - by rewrite <- (length_fmap Student.name adjusted), Hnames, length_fmap.
    - apply adjusted_preference_total. eapply Forall2_impl; [done|].
      by intros ? ? (_ & ? & _). }
  destruct (run_invariants app' fuel Hwt' ltac:(lia))
    as (evs & st & Hloop & _ & _ & Hc & _).
  unfold gale_shapley_matching. rewrite Hloop. simpl.
  exists (format_results (schools_dict st)).
  split; [by destruct app|].
  intros s names (d & Hd & -> & Hperm)%format_results_lookup.
  pose proof (cons_schools _ _ Hc s) as Hs. rewrite Hd in Hs. simpl in Hs.
  destruct (schools app !! s) as [school|]; [|done]. injection Hs as Hs.
  exists school. split; [done|]. rewrite <- Hs.
  rewrite length_fmap, (Permutation_length (sorted_Permutation true _)).
  by eapply cons_capacity.
Qed.

Lemma analyze_factors_charted app fuel original_matches factors n charts :
  well_typed app → (pop_bound app ≤ fuel)%nat →
  Forall (λ factor, ∃ adjusted,
            adjust_students factor (students app) = Ok adjusted) factors →
  charted app n charts →
  ∃ charts',
    analyze_factors fuel original_matches factors app charts
    = Some (app, Ok charts')
    ∧ charted app (n + length factors) charts'.
Proof.
  intros Hwt Hfuel Hall. revert n charts.
  induction Hall as [|factor factors [adjusted Hadj] _ IH];
    intros n charts Hch; simpl.
  - exists charts. split; [done|]. by rewrite Nat.add_0_r.
  - destruct (adjusted_matching_bounded app fuel factor adjusted Hwt Hfuel Hadj)
      as (m & -> & Hm).
    destruct Hch as [Hlen Hallocs].
    destruct (store_allocations_spec m (school_allocations charts)
                (elements (dom (schools app)))) as (allocs & -> & Hspec).
    { apply NoDup_elements. }
    { intros k Hk%elem_of_elements%elem_of_dom. specialize (Hallocs k).
      destruct Hk as [school Hk]. rewrite Hk in Hallocs.
      destruct Hallocs as (counts & -> & _). eauto. }
    destruct (IH (S n) (mkCharts (change_counts charts
                          ++ [_count_matching_changes original_matches m])
                          allocs)) as (charts' & -> & Hch').
    { split; simpl; [rewrite length_app; simpl; lia|].
      intros s. rewrite Hspec. specialize (Hallocs s).
      destruct (schools app !! s) as [school|] eqn:Hs.
      - destruct Hallocs as (counts & Hcounts & Hclen & Hcap).
        rewrite decide_True by (apply elem_of_elements, elem_of_dom; eauto).
        rewrite Hcounts. simpl. eexists. split; [done|].
        split; [rewrite length_app; simpl; lia|].
        apply Forall_app. split; [done|]. constructor; [|done].
        destruct (m !! s) as [names|] eqn:Hnames.
        + destruct (Hm s names Hnames) as (school' & Hs' & Hle).
          rewrite Hs in Hs'. by injection Hs' as <-.
        + destruct Hwt as [_ Hpos]. specialize (Hpos s school Hs).
          simpl in Hpos. lia.
      - rewrite decide_False; [done|].
        intros [? ?]%elem_of_elements%elem_of_dom. congruence. }
    exists charts'. split; [done|].
    by replace (n + S (length factors))%nat with (S n + length factors)%nat
      by lia.
Qed.

(** X17: on well-typed input, for factors on which every score converts,
    [update_charts] returns without raising and leaves the students as they
    were; it records one count of changes per factor and, for every school,
    one number of allocated students per factor, none of them above the
    capacity of the school. *)
Theorem charts_of_analysis (app : App) (fuel : nat)
    (original_matches : gmap string (list string))
    (factors_to_analyze : list spec_float) :
  well_typed app → (pop_bound app ≤ fuel)%nat →
  Forall (λ factor, ∃ adjusted,
            adjust_students factor (students app) = Ok adjusted)
    factors_to_analyze →
  ∃ charts,
    update_charts fuel original_matches factors_to_analyze app
    = Some (app, Ok charts)
    ∧ length (change_counts charts) = length factors_to_analyze
    ∧ dom (school_allocations charts) = dom (schools app)
    ∧ ∀ s school, schools app !! s = Some school →
        ∃ counts, school_allocations charts !! s = Some counts
          ∧ length counts = length factors_to_analyze
          ∧ Forall (λ c, Z.of_nat c ≤ School.capacity school) counts.
Proof.
  intros Hwt Hfuel Hall. unfold update_charts.
  destruct (analyze_factors_charted app fuel original_matches
              factors_to_analyze 0
              (mkCharts [] ((λ _, []) <$> schools app)) Hwt Hfuel Hall)
    as (charts & -> & Hlen & Hallocs).
  { split; simpl; [done|]. intros s. rewrite lookup_fmap.
    destruct (schools app !! s); simpl; [|done]. eexists. by split. }
  exists charts. split; [done|]. split; [done|]. split.
  - apply set_eq. intros s. rewrite !elem_of_dom. specialize (Hallocs s).
    destruct (schools app !! s) as [school|].
    + destruct Hallocs as (counts & -> & _). split; eauto.
    + rewrite Hallocs. split; intros [? ?]; done.
  - intros s school Hs. specialize (Hallocs s). by rewrite Hs in Hallocs.
Qed.

(** ** The [random] module never raises where the generator calls it *)

Lemma gen_bind_Ok {A B} (m : Gen A) (k : A → Gen B) r x r' :
  m r = Some (Ok (x, r')) → gen_bind m k r = k x r'.
Proof. intros H. unfold gen_bind. by rewrite H. Qed.

Lemma random_choice_spec {A} (seq : list A) r :
  seq ≠ [] →
  ∃ x r', random_choice seq r = Some (Ok (x, r')) ∧ x ∈ seq.
Proof.
  intros Hne. destruct seq as [|y seq]; [done|].
  unfold random_choice, gen_bind, draw.
  set (j := (tape r (cursor r) `mod` length (y :: seq))%nat).
  destruct (lookup_lt_is_Some_2 (y :: seq) j) as [x Hx].
  { apply Nat.mod_upper_bound. simpl. lia. }
  rewrite Hx. eexists _, _. split; [done|]. by eapply list_elem_of_lookup_2.
Qed.

Lemma random_randint_spec (a b : Z) r :
  a ≤ b →
  ∃ n r', random_randint a b r = Some (Ok (n, r')) ∧ a ≤ n ≤ b.
Proof.
  intros Hab. unfold random_randint. rewrite bool_decide_false by lia.
  unfold gen_bind, draw, gen_ret.
  set (j := (tape r (cursor r) `mod` Z.to_nat (b - a + 1))%nat).
  assert (j < Z.to_nat (b - a + 1))%nat by (apply Nat.mod_upper_bound; lia).
  eexists _, _. split; [done|]. lia.
Qed.

Lemma sample_from_spec {A} (k : nat) (population : list A) r :
  (k ≤ length population)%nat →
  ∃ l r', sample_from k population r = Some (Ok (l, r'))
    ∧ length l = k ∧ l ⊆+ population.
Proof.
  revert population r. induction k as [|k IH]; intros population r Hk; simpl.
  - exists [], r. split; [done|]. split; [done|]. apply submseteq_nil_l.
  - unfold gen_bind at 1. unfold draw.
    set (j := (tape r (cursor r) `mod` length population)%nat).
    assert (j < length population)%nat as Hj
      by (apply Nat.mod_upper_bound; lia).
    destruct (lookup_lt_is_Some_2 population j Hj) as [x Hx]. rewrite Hx.
    destruct (IH (delete j population) (mkRng (tape r) (S (cursor r))))
      as (l & r' & Hl & Hlen & Hsub).
    { rewrite length_delete by eauto. lia. }
    unfold gen_bind. rewrite Hl. exists (x :: l), r'.
    split; [done|]. split; [simpl; lia|].
    rewrite (delete_Permutation population j x Hx). by apply submseteq_skip.
Qed.

Lemma random_sample_spec {A} (population : list A) (k : Z) r :
  0 ≤ k ≤ Z.of_nat (length population) →
  ∃ l r', random_sample population k r = Some (Ok (l, r'))
    ∧ Z.of_nat (length l) = k ∧ l ⊆+ population.
Proof.
  intros Hk. unfold random_sample. rewrite bool_decide_false by lia.
  destruct (sample_from_spec (Z.to_nat k) population r) as (l & r' & ? & ? & ?);
    [lia|].
  exists l, r'. split; [done|]. split; [lia|done].
Qed.

(** An indexed invariant of a [for] loop whose body always returns. *)
Lemma for_range_inv {X} (P : nat → X → Prop) (body : X → Gen X) n :
  ∀ i s r,
  (∀ j s r, (i ≤ j < i + n)%nat → P j s →
     ∃ s' r', body s r = Some (Ok (s', r')) ∧ P (S j) s') →
  P i s →
  ∃ s' r', for_range n body s r = Some (Ok (s', r')) ∧ P (i + n)%nat s'.
Proof.
  induction n as [|n IH]; intros i s r Hbody HP; simpl.
  - exists s, r. split; [done|]. by rewrite Nat.add_0_r.
  - destruct (Hbody i s r) as (s1 & r1 & Hs1 & HP1); [lia|done|].
    rewrite (gen_bind_Ok _ _ _ _ _ Hs1).
    destruct (IH (S i) s1 r1) as (s' & r' & Hs' & HP'); [|done|].
    { intros j s2 r2 Hj. apply Hbody. lia. }
    exists s', r'. split; [done|].
    by replace (i + S n)%nat with (S i + n)%nat by lia.
Qed.

(** ** The loop that makes a name unique ends *)

Lemma with_space_inj base : Inj (=) (=) (λ k : nat, with_space base (pretty k)).
Proof.
  intros j k H. unfold with_space in H.
  apply (inj (String.app base)) in H. apply (inj (String.app " ")) in H.
  by apply (inj pretty) in H.
Qed.

Lemma unique_name_Some fuel taken base name attempt name' :
  unique_name fuel taken base name attempt = Some name' → taken name' = false.
Proof.
  revert name attempt. induction fuel as [|fuel IH]; intros name attempt; simpl.
  - destruct (taken name) eqn:Ht; [done|]. by intros [= <-].
  - destruct (taken name) eqn:Ht; [apply IH|]. by intros [= <-].
Qed.

Lemma unique_name_None fuel taken base name attempt :
  unique_name fuel taken base name attempt = None →
  ∀ k, (attempt ≤ k < attempt + fuel)%nat →
    taken (with_space base (pretty k)) = true.
Proof.
  revert name attempt. induction fuel as [|fuel IH]; intros name attempt; simpl.
  - intros _ k Hk. lia.
  - destruct (taken name) eqn:Ht; [|done]. intros Hnone k Hk.
    destruct (decide (k = attempt)) as [->|Hne].
    + destruct fuel; simpl in Hnone;
        by destruct (taken (with_space base (pretty attempt))).
    + apply (IH _ _ Hnone). lia.
Qed.

(** With more fuel than there are taken names the loop finds a free one. *)
Lemma unique_name_finds fuel taken (names : list string) base name attempt :
  (∀ n, taken n = true → n ∈ names) → (length names < fuel)%nat →
  ∃ name', unique_name fuel taken base name attempt = Some name'
           ∧ taken name' = false.
Proof.
  intros Htaken Hfuel.
  destruct (unique_name fuel taken base name attempt) as [name'|] eqn:Hu.
  - exists name'. split; [done|]. by apply unique_name_Some in Hu.
  - exfalso. pose proof (unique_name_None _ _ _ _ _ Hu) as Hall.
    set (tried := (λ k : nat, with_space base (pretty k)) <$> seq attempt fuel).
    assert (NoDup tried) as Hnd.
    { apply (NoDup_fmap_2 _). apply NoDup_seq. }
    assert (∀ x, x ∈ tried → x ∈ names) as Hsub.
    { intros x (k & -> & Hk%elem_of_seq)%list_elem_of_fmap.
      apply Htaken, Hall. lia. }
    pose proof (submseteq_length _ _ (NoDup_submseteq _ _ Hnd Hsub)) as Hlen.
    unfold tried in Hlen. rewrite length_fmap, length_seq in Hlen. lia.
Qed.

Lemma with_space_nonempty a b : with_space a b ≠ ""%string.
Proof. unfold with_space. by destruct a. Qed.

Lemma unique_name_nonempty fuel taken base name attempt name' :
  name ≠ ""%string →
  unique_name fuel taken base name attempt = Some name' → name' ≠ ""%string.
Proof.
  revert name attempt. induction fuel as [|fuel IH]; intros name attempt Hne;
    simpl; destruct (taken name); try done; try by intros [= <-].
  apply IH, with_space_nonempty.
Qed.

(** ** The generated schools *)

Lemma generate_school_spec fuel num_students j acc r :
  (j < fuel)%nat → schools_generated num_students j acc →
  ∃ acc' r', generate_school fuel num_students acc r = Some (Ok (acc', r'))
    ∧ schools_generated num_students (S j) acc'.
Proof.
  intros Hfuel (Hlen & Hnd & Hdom & Hall). destruct acc as [schools names].
  simpl in *. unfold generate_school.
  destruct (random_choice_spec school_prefixes r) as (prefix & r1 & H1 & _);
    [done|].
  rewrite (gen_bind_Ok _ _ _ _ _ H1).
  destruct (random_choice_spec school_suffixes r1) as (suffix & r2 & H2 & _);
    [done|].
  rewrite (gen_bind_Ok _ _ _ _ _ H2).
  destruct (unique_name_finds fuel (λ n, bool_decide (n ∈ dom schools)) names
              (with_space prefix suffix) (with_space prefix suffix) 1)
    as (name & Hname & Hfree).
  { intros n Hn%bool_decide_eq_true. rewrite Hdom in Hn.
    by apply elem_of_list_to_set in Hn. }
  { lia. }
  apply bool_decide_eq_false in Hfree.
  assert (name ≠ ""%string) as Hne
    by (eapply unique_name_nonempty; [apply with_space_nonempty|done]).
  unfold gen_bind at 1. unfold gen_fuel. rewrite Hname.
  destruct (random_randint_spec 1 (2 `max` (num_students `div` 3)) r2)
    as (capacity & r3 & H3 & Hcap); [lia|].
  rewrite (gen_bind_Ok _ _ _ _ _ H3).
  eexists _, r3. split; [done|]. unfold schools_generated. simpl.
  split; [rewrite length_app; simpl; lia|].
  split.
  { apply NoDup_app. split; [done|]. split; [|apply NoDup_singleton].
    intros x Hx ->%list_elem_of_singleton. apply Hfree. rewrite Hdom.
    by apply elem_of_list_to_set. }
  split.
  { rewrite dom_insert_L, Hdom, list_to_set_app_L. simpl.
    apply set_eq. intros x. rewrite !elem_of_union, elem_of_singleton,
      elem_of_empty. tauto. }
  intros key school. destruct (decide (name = key)) as [<-|Hkey].
  - rewrite lookup_insert_eq. intros [= <-]. simpl. done.
  - rewrite lookup_insert_ne by done. apply Hall.
Qed.

Lemma generate_random_school_names_spec fuel num_schools num_students r :
  (Z.to_nat num_schools ≤ fuel)%nat →
  ∃ schools school_names r',
    _generate_random_school_names fuel num_schools num_students ∅ r
    = Some (Ok ((schools, school_names), r'))
    ∧ schools_generated num_students (Z.to_nat num_schools)
        (schools, school_names).
Proof.
  intros Hfuel. unfold _generate_random_school_names.
  destruct (for_range_inv (schools_generated num_students)
              (generate_school fuel num_students) (Z.to_nat num_schools)
              0 (∅, []) r) as ([schools names] & r' & Hloop & Hinv).
  - intros j acc r0 Hj. apply generate_school_spec. lia.
  - unfold schools_generated. simpl. split; [done|]. split; [constructor|].
    split; [by rewrite dom_empty_L|]. intros key school.
    by rewrite lookup_empty.
  - by exists schools, names, r'.
Qed.

(** ** The generated students *)

Lemma generate_student_spec fuel school_names j students r :
  (j < fuel)%nat → students_generated school_names j students →
  ∃ students' r', generate_student fuel school_names students r
                  = Some (Ok (students', r'))
    ∧ students_generated school_names (S j) students'.
Proof.
  intros Hfuel (Hlen & Hnd & Hall). unfold generate_student.
  destruct (random_choice_spec first_names r) as (first_name & r1 & H1 & _);
    [done|].
  rewrite (gen_bind_Ok _ _ _ _ _ H1).
  destruct (random_choice_spec last_names r1) as (last_name & r2 & H2 & _);
    [done|].
  rewrite (gen_bind_Ok _ _ _ _ _ H2).
  destruct (unique_name_finds fuel
              (λ n, bool_decide (n ∈ Student.name <$> students))
              (Student.name <$> students)
              (with_space first_name last_name)
              (with_space first_name last_name) 1)
    as (name & Hname & Hfree).
  { by intros n Hn%bool_decide_eq_true. }
  { rewrite length_fmap. lia. }
  apply bool_decide_eq_false in Hfree.
  assert (name ≠ ""%string) as Hne
    by (eapply unique_name_nonempty; [apply with_space_nonempty|done]).
  unfold gen_bind at 1. unfold gen_fuel. rewrite Hname.
  destruct (random_randint_spec 50 100 r2) as (score & r3 & H3 & Hscore);
    [lia|].
  rewrite (gen_bind_Ok _ _ _ _ _ H3).
  destruct (random_randint_spec 1 5 r3) as (n & r4 & H4 & Hn); [lia|].
  rewrite (gen_bind_Ok _ _ _ _ _ H4).
  destruct (random_sample_spec school_names
              (Z.of_nat (length school_names) `min` n) r4)
    as (preferences & r5 & H5 & Hplen & Hsub); [lia|].
  rewrite (gen_bind_Ok _ _ _ _ _ H5).
  eexists _, r5. split; [done|]. unfold students_generated.
  split; [rewrite length_app; simpl; lia|].
  split.
  { rewrite fmap_app. simpl. apply NoDup_app. split; [done|].
    split; [|apply NoDup_singleton].
    by intros x Hx ->%list_elem_of_singleton. }
  intros student [Hin| ->%list_elem_of_singleton]%elem_of_app; [by apply Hall|].
  simpl. split; [done|]. split; [done|]. split; [done|]. split; [lia|].
  intros Hnames Hnil. rewrite Hnil in Hplen. simpl in Hplen.
  destruct school_names; [done|]. simpl in Hplen. lia.
Qed.

Lemma generate_random_students_spec fuel num_students school_names r :
  (Z.to_nat num_students ≤ fuel)%nat →
  ∃ students r',
    _generate_random_students fuel num_students school_names r
    = Some (Ok (students, r'))
    ∧ students_generated school_names (Z.to_nat num_students) students.
Proof.
  intros Hfuel. unfold _generate_random_students.
  destruct (for_range_inv (students_generated school_names)
              (generate_student fuel school_names) (Z.to_nat num_students)
              0 [] r) as (students & r' & Hloop & Hinv).
  - intros j acc r0 Hj. apply generate_student_spec. lia.
  - unfold students_generated. simpl. split; [done|]. split; [constructor|].
    by intros student ?%elem_of_nil.
  - by exists students, r'.
Qed.

Lemma submseteq_NoDup {A} (l k : list A) : NoDup k → l ⊆+ k → NoDup l.
Proof.
  intros Hk (l2 & Hperm & Hsub)%submseteq_sublist_r.
  rewrite Hperm. by eapply sublist_NoDup.
Qed.

Lemma generate_random_data_inv fuel num_students num_schools app r :
  num_students ≠ 0 → num_schools ≠ 0 →
  (Z.to_nat num_students ≤ fuel)%nat → (Z.to_nat num_schools ≤ fuel)%nat →
  ∃ students schools school_names r',
    generate_random_data fuel (Some num_students) (Some num_schools) app r
    = Some (Ok (mkApp students schools, r'))
    ∧ schools_generated num_students (Z.to_nat num_schools)
        (schools, school_names)
    ∧ students_generated school_names (Z.to_nat num_students) students.
Proof.
  intros Hns Hnh Hfuel1 Hfuel2.
  assert (generate_random_data fuel (Some num_students) (Some num_schools) app
          = gen_bind (_generate_random_school_names fuel num_schools
                        num_students ∅) (λ '(schools, school_names),
            gen_bind (_generate_random_students fuel num_students school_names)
              (λ students, gen_ret (mkApp students schools)))) as ->.
  { unfold generate_random_data. destruct num_students; [done|..];
      by destruct num_schools. }
  destruct (generate_random_school_names_spec fuel num_schools num_students r)
    as (schools & school_names & r1 & Hschools & Hinv1); [done|].
  rewrite (gen_bind_Ok _ _ _ _ _ Hschools).
  destruct (generate_random_students_spec fuel num_students school_names r1)
    as (students & r2 & Hstudents & Hinv2); [done|].
  rewrite (gen_bind_Ok _ _ _ _ _ Hstudents).
  by exists students, schools, school_names, r2.
Qed.

(** X11: for answers of the two dialogs within their bounds, on every
    tape, [generate_random_data] returns without raising, with as many
    students and schools as asked for; student names differ and
    capacities are between 1 and max(2, num_students // 3); every score is
    between 50 and 100 and every preference list has between 1 and 5
    entries, all different, all of them generated schools. *)
Theorem random_data_spec (fuel : nat) (num_students num_schools : Z)
    (app : App) (r : Rng) :
  2 ≤ num_students ≤ 100 → 2 ≤ num_schools ≤ 20 → (100 ≤ fuel)%nat →
  ∃ app' r',
    generate_random_data fuel (Some num_students) (Some num_schools) app r
    = Some (Ok (app', r'))
    ∧ Z.of_nat (length (students app')) = num_students
    ∧ Z.of_nat (size (schools app')) = num_schools
    ∧ well_typed app'
    ∧ (∀ key school, schools app' !! key = Some school →
         School.name school = key
         ∧ 1 ≤ School.capacity school ≤ 2 `max` (num_students `div` 3))
    ∧ (∀ student, student ∈ students app' →
         50 ≤ Student.score student ≤ 100
         ∧ NoDup (Student.preferences student)
         ∧ (1 ≤ length (Student.preferences student) ≤ 5)%nat
         ∧ ∀ p, p ∈ Student.preferences student → p ∈ dom (schools app')).
Proof.
  intros Hns Hnh Hfuel.
  destruct (generate_random_data_inv fuel num_students num_schools app r)
    as (students & schools & school_names & r2 & Hgen
        & (Hlen & Hnd & Hdom & Hall) & (Hslen & Hsnd & Hsall));
    [lia..|].
  simpl in Hlen, Hnd, Hdom, Hall.
  exists (mkApp students schools), r2. split; [done|]. simpl.
  split; [lia|]. split.
  { rewrite <- size_dom, Hdom, size_list_to_set by done. lia. }
  split.
  { split; [done|]. intros key school Hkey. simpl.
    destruct (Hall key school Hkey) as (_ & _ & _ & ?). lia. }
  split.
  { intros key school Hkey. destruct (Hall key school Hkey) as (? & _ & _ & ?).
    done. }
  intros student Hin.
  destruct (Hsall student Hin) as (_ & Hscore & Hsub & Hfive & Hne).
  split; [done|]. split; [exact (submseteq_NoDup _ _ Hnd Hsub)|]. split.
  - split; [|done].
    assert (Student.preferences student ≠ []) as Hp.
    { apply Hne. intros ->. simpl in Hlen. lia. }
    destruct (Student.preferences student); [done|simpl; lia].
  - intros p Hp. rewrite Hdom. apply elem_of_list_to_set.
    by eapply elem_of_submseteq.
Qed.

(** ** Every way of entering data keeps it well formed *)

Lemma entered_empty : entered empty_app.
Proof.
  split; simpl.
  - split; simpl; [constructor|]. apply map_Forall_empty.
  - by intros student ?%elem_of_nil.
  - intros key school. by rewrite lookup_empty.
Qed.

Lemma entered_sample app : entered (load_sample_data app).
Proof.
  split.
  - apply (bool_decide_unpack _). by vm_compute.
  - assert (Forall (λ student,
        Student.name student ≠ ""%string
        ∧ Student.preferences student ≠ []
        ∧ Forall (λ p, p ≠ ""%string) (Student.preferences student))
      (students (load_sample_data app))) as Hall.
    { apply (bool_decide_unpack _). by vm_compute. }
    intros student Hin. rewrite Forall_forall in Hall.
    destruct (Hall student Hin) as (? & ? & Hp).
    split; [done|]. split; [done|]. by rewrite Forall_forall in Hp.
  - assert (map_Forall (λ key school,
        School.name school = key ∧ key ≠ ""%string
        ∧ School.accepted school = [])
      (schools (load_sample_data app))) as Hall.
    { apply (bool_decide_unpack _). by vm_compute. }
    intros key school Hkey. by apply Hall.
Qed.

Lemma entered_add_student py_strip py_split py_int form app :
  entered app → entered (add_student py_strip py_split py_int form app).
Proof.
  intros [[Hnd Hcap] Hst Hsc]. unfold add_student, _validate_student_input.
  case_bool_decide as Hreq; [done|].
  destruct (py_int _) as [score|]; [|done].
  case_bool_decide as Hdup; [done|].
  assert (py_strip (student_name form) ≠ ""%string) as Hname
    by (intros ?; apply Hreq; by left).
  assert (py_strip <$> filter (λ p, py_strip p ≠ ""%string)
            (py_split (student_preferences form)) ≠ []) as Hprefs
    by (intros ?; apply Hreq; by right).
  split; simpl.
  - split; simpl; [|done]. rewrite fmap_app. simpl.
    apply NoDup_app. split; [done|]. split; [|apply NoDup_singleton].
    intros x (student & -> & Hin)%list_elem_of_fmap Heq%list_elem_of_singleton.
    apply Hdup, Exists_exists. eauto.
  - intros student [Hin| ->%list_elem_of_singleton]%elem_of_app;
      [by apply Hst|]. simpl.
    split; [done|]. split; [done|].
    intros p (p0 & -> & Hp0)%list_elem_of_fmap.
    by apply list_elem_of_filter in Hp0 as [? _].
  - done.
Qed.

Lemma entered_add_school py_strip py_int form app :
  entered app → entered (add_school py_strip py_int form app).
Proof.
  intros [[Hnd Hcap] Hst Hsc]. unfold add_school, _validate_school_input.
  case_bool_decide as Hname; [done|].
  destruct (py_int _) as [capacity|]; [|done].
  case_bool_decide as Hpos; [done|].
  case_bool_decide as Hdup; [done|].
  split; simpl.
  - split; simpl; [done|]. apply map_Forall_insert_2; [simpl; lia|done].
  - done.
  - intros key school.
    destruct (decide (py_strip (school_name form) = key)) as [<-|Hne].
    + rewrite lookup_insert_eq. by intros [= <-].
    + rewrite lookup_insert_ne by done. apply Hsc.
Qed.

Lemma entered_generated fuel num_students num_schools app r :
  dialog_range 2 100 num_students → dialog_range 2 20 num_schools →
  (100 ≤ fuel)%nat → entered app →
  ∃ app' r', generate_random_data fuel num_students num_schools app r
             = Some (Ok (app', r')) ∧ entered app'.
Proof.
  intros Hns Hnh Hfuel Happ.
  destruct num_students as [ns|]; [|by exists app, r].
  destruct num_schools as [nh|].
  2:{ exists app, r. split; [|done]. simpl in Hns. by destruct ns. }
  simpl in Hns, Hnh.
  destruct (generate_random_data_inv fuel ns nh app r)
    as (students & schools & school_names & r2 & Hgen
        & (Hlen & Hnd & Hdom & Hall) & (Hslen & Hsnd & Hsall));
    [lia..|].
  simpl in Hlen, Hnd, Hdom, Hall.
  exists (mkApp students schools), r2. split; [done|]. split; simpl.
  - split; [done|]. intros key school Hkey. simpl.
    destruct (Hall key school Hkey) as (_ & _ & _ & ?). lia.
  - intros student Hin.
    destruct (Hsall student Hin) as (Hname & _ & Hsub & _ & Hne).
    split; [done|]. split.
    + apply Hne. intros ->. simpl in Hlen. lia.
    + intros p Hp. pose proof (elem_of_submseteq _ _ _ Hp Hsub) as Hp'.
      apply (elem_of_list_to_set (C:=gset string)) in Hp'.
      rewrite <- Hdom in Hp'. apply elem_of_dom in Hp' as [school Hschool].
      by destruct (Hall p school Hschool) as (_ & ? & _).
  - intros key school Hkey.
    by destruct (Hall key school Hkey) as (? & ? & ? & _).
Qed.

Lemma entered_perform py_strip py_split py_int fuel act app r :
  in_dialog_range act → (100 ≤ fuel)%nat → entered app →
  ∃ app' r', perform py_strip py_split py_int fuel act app r
             = Some (Ok (app', r')) ∧ entered app'.
Proof.
  intros Hrange Hfuel Happ. destruct act as [form|form| | |ns nh]; simpl.
  - eexists _, r. split; [done|]. by apply entered_add_student.
  - eexists _, r. split; [done|]. by apply entered_add_school.
  - eexists _, r. split; [done|]. apply entered_sample.
  - eexists _, r. split; [done|]. apply entered_empty.
  - destruct Hrange. by apply entered_generated.
Qed.

Lemma perform_all_entered
    (py_strip : string → string) (py_split : string → list string)
    (py_int : string → option Z) (fuel : nat) (acts : list Action) (r : Rng) :
  Forall in_dialog_range acts → (100 ≤ fuel)%nat →
  ∃ app r',
    perform_all py_strip py_split py_int fuel acts empty_app r
    = Some (Ok (app, r'))
    ∧ entered app.
Proof.
  intros Hrange Hfuel. generalize entered_empty. generalize empty_app.
  revert r. induction Hrange as [|act acts Hact _ IH]; intros r app Happ; simpl.
  - by exists app, r.
  - destruct (entered_perform py_strip py_split py_int fuel act app r
                Hact Hfuel Happ) as (app1 & r1 & Hperf & Happ1).
    rewrite (gen_bind_Ok _ _ _ _ _ Hperf). by apply IH.
Qed.

(** X12: whatever the user does to the data of the main window (the two
    forms with any contents, the sample data, clearing, the random
    generator with any outcome of its draws), no action raises and the
    data stays well formed: student names differ and are not empty, every
    student lists at least one preference and no empty one, capacities are
    positive, and every school is filed under its own, non-empty name with
    nobody accepted. *)
Theorem data_entry_keeps_well_formed
    (py_strip : string → string) (py_split : string → list string)
    (py_int : string → option Z) (fuel : nat) (acts : list Action) (r : Rng) :
  Forall in_dialog_range acts → (100 ≤ fuel)%nat →
  ∃ app r',
    perform_all py_strip py_split py_int fuel acts empty_app r
    = Some (Ok (app, r'))
    ∧ entered app.
Proof. apply perform_all_entered. Qed.

(** X13: after any such sequence of actions, [run_matching] does not
    raise: it shows the error box exactly when there is no student or no
    school, and otherwise displays the allocation of the engine, with one
    entry for every school. *)
Theorem run_matching_after_entry
    (py_strip : string → string) (py_split : string → list string)
    (py_int : string → option Z) (fuel : nat) (acts : list Action) (r : Rng) :
  Forall in_dialog_range acts → (100 ≤ fuel)%nat →
  ∃ app r',
    perform_all py_strip py_split py_int fuel acts empty_app r
    = Some (Ok (app, r'))
    ∧ ∀ fuel', (pop_bound app ≤ fuel')%nat →
        ∃ outcome, run_matching fuel' app = Some (Ok outcome)
          ∧ match outcome with
            | NoStudentsOrSchools => students app = [] ∨ schools app = ∅
            | Displayed matches =>
              students app ≠ [] ∧ schools app ≠ ∅
              ∧ gale_shapley_matching fuel' app = Some (Ok matches)
              ∧ dom matches = dom (schools app)
            end.
Proof.
  intros Hrange Hfuel.
  destruct (perform_all_entered py_strip py_split py_int fuel acts r
              Hrange Hfuel) as (app & r' & Hall & [Hwt _ _]).
  exists app, r'. split; [done|]. intros fuel' Hfuel'. unfold run_matching.
  case_bool_decide as Hempty.
  - by exists NoStudentsOrSchools.
  - destruct (match_loop_finishes app fuel' Hwt Hfuel') as (evs & st & Hloop).
    pose proof (match_loop_steps _ _ _ _ Hloop) as (Hsteps & _ & _).
    unfold gale_shapley_matching. rewrite Hloop.
    eexists (Displayed _). split; [done|].
    split; [by intros ?; apply Hempty; left|].
    split; [by intros ?; apply Hempty; right|]. split; [done|].
    unfold format_results. rewrite dom_fmap_L.
    assert (consistent app st) as Hc
      by (eapply consistent_steps; [by apply consistent_initial|done]).
    apply set_eq. intros s. rewrite !elem_of_dom.
    pose proof (cons_schools _ _ Hc s) as Hs.
    destruct (schools_dict st !! s), (schools app !! s); simpl in Hs;
      try done; split; intros [? ?]; eauto.
Qed.

(** X14: submitting a form twice with the same contents changes the
    data as submitting it once does: the second submission of an accepted
    student or school is refused as a duplicate, and a refused form stays
    refused. *)
Theorem submitting_twice
    (py_strip : string → string) (py_split : string → list string)
    (py_int : string → option Z) (app : App) :
  (∀ form,
     add_student py_strip py_split py_int form
       (add_student py_strip py_split py_int form app)
     = add_student py_strip py_split py_int form app)
  ∧ (∀ form,
       add_school py_strip py_int form (add_school py_strip py_int form app)
       = add_school py_strip py_int form app).
Proof.
  split; intros form.
  - unfold add_student at 2. unfold _validate_student_input.
    case_bool_decide as Hreq; [done|].
    destruct (py_int _) as [score|] eqn:Hint; [|done].
    case_bool_decide as Hdup; [done|].
    unfold add_student, _validate_student_input.
    rewrite !(bool_decide_false _ Hreq), Hint. simpl students.
    rewrite (bool_decide_false _ Hdup). rewrite bool_decide_true; [done|].
    apply Exists_app. right. by apply Exists_cons_hd.
  - unfold add_school at 2. unfold _validate_school_input.
    case_bool_decide as Hname; [done|].
    destruct (py_int _) as [capacity|] eqn:Hint; [|done].
    case_bool_decide as Hpos; [done|].
    case_bool_decide as Hdup; [done|].
    unfold add_school, _validate_school_input.
    rewrite !(bool_decide_false _ Hname), Hint.
    rewrite !(bool_decide_false _ Hpos). simpl schools.
    rewrite (bool_decide_false _ Hdup). rewrite bool_decide_true; [done|].
    rewrite dom_insert_L. apply elem_of_union. left.
    by apply elem_of_singleton.
Qed.

(** ** The rounds of the network simulation *)



Lemma for_each_inv {X A} (P : X → Prop) (body : X → A → Gen X) (l : list A) :
  ∀ s r,
  (∀ x s r, x ∈ l → P s →
     ∃ s' r', body s x r = Some (Ok (s', r')) ∧ P s') →
  P s →
  ∃ s' r', for_each l body s r = Some (Ok (s', r')) ∧ P s'.
Proof.
  induction l as [|x l IH]; intros s r Hbody HP; simpl.
  - by exists s, r.
  - destruct (Hbody x s r) as (s1 & r1 & Hs1 & HP1); [by left|done|].
    rewrite (gen_bind_Ok _ _ _ _ _ Hs1). apply IH; [|done].
    intros y s2 r2 Hy. apply Hbody. by right.
Qed.

Lemma initialize_strategies_on_graph graph r :
  ∃ strategies r',
    initialize_strategies graph r = Some (Ok (strategies, r'))
    ∧ on_graph graph strategies.
Proof.
  unfold initialize_strategies, on_graph.
  assert (∀ l (acc : gmap nat string) r,
    (∀ node strategy, acc !! node = Some strategy → strategy ∈ strategy_names) →
    ∃ strategies r',
      for_each l
        (λ strategies node,
           gen_bind (random_choice strategy_names) (λ strategy,
           gen_ret (<[node := strategy]> strategies))) acc r
      = Some (Ok (strategies, r'))
      ∧ (∀ node, is_Some (strategies !! node)
                 ↔ node ∈ l ∨ is_Some (acc !! node))
      ∧ ∀ node strategy, strategies !! node = Some strategy →
          strategy ∈ strategy_names) as Hloop.
  { induction l as [|x l IH]; intros acc r0 Hacc; simpl.
    - exists acc, r0. split; [done|]. split; [|done].
      intros node. rewrite elem_of_nil. tauto.
    - destruct (random_choice_spec strategy_names r0) as (s & r1 & Hs & Hin);
        [done|].
      unfold gen_bind at 1. rewrite (gen_bind_Ok _ _ _ _ _ Hs).
      unfold gen_ret at 1.
      destruct (IH (<[x := s]> acc) r1) as (strategies & r' & Hrun & Hdom & Hval).
      { intros node strategy. destruct (decide (x = node)) as [<-|Hne].
        - rewrite lookup_insert_eq. by intros [= <-].
        - rewrite lookup_insert_ne by done. apply Hacc. }
      exists strategies, r'. split; [exact Hrun|]. split; [|done].
      intros node. rewrite Hdom, elem_of_cons.
      destruct (decide (x = node)) as [<-|Hne].
      + rewrite lookup_insert_eq. split; [by left; left|eauto].
      + rewrite lookup_insert_ne by done. split; [tauto|].
        intros [[?|?]|?]; [by subst|tauto|tauto]. }
  destruct (Hloop (nodes graph) ∅ r) as (strategies & r' & Hrun & Hdom & Hval).
  { intros node strategy. by rewrite lookup_empty. }
  exists strategies, r'. split; [done|]. split; [|done].
  intros node. rewrite Hdom, lookup_empty.
  split; [tauto|]. intros [?|[? ?]]; done.
Qed.

Lemma update_node_imitates graph strategies new_strategies node r :
  closed graph → on_graph graph strategies → node ∈ nodes graph →
  imitates graph strategies new_strategies →
  ∃ new_strategies' r',
    update_node graph strategies new_strategies node r
    = Some (Ok (new_strategies', r'))
    ∧ imitates graph strategies new_strategies'.
Proof.
  intros Hclosed [Hdom Hval] Hnode Him. unfold update_node.
  destruct (neighbors graph node) as [|n0 ns] eqn:Hns.
  { by exists new_strategies, r. }
  destruct (random_choice_spec (n0 :: ns) r) as (opponent & r1 & Hch & Hin);
    [done|].
  rewrite (gen_bind_Ok _ _ _ _ _ Hch).
  destruct (proj1 (Hdom node) Hnode) as [mine Hmine].
  assert (opponent ∈ nodes graph) as Hopp
    by (eapply Hclosed; [exact Hnode|by rewrite Hns]).
  destruct (proj1 (Hdom opponent) Hopp) as [theirs Htheirs].
  unfold gen_bind, gen_result, getitem_nat. rewrite Hmine, Htheirs.
  case_bool_decide as Hlost.
  - eexists _, r1. split; [done|]. intros node'.
    destruct (decide (node = node')) as [<-|Hne].
    + right. exists opponent, mine, theirs. rewrite Hns, lookup_insert_eq. done.
    + rewrite lookup_insert_ne by done. apply Him.
  - by exists new_strategies, r1.
Qed.

Lemma update_strategies_imitates graph strategies r :
  closed graph → on_graph graph strategies →
  ∃ new_strategies r',
    update_strategies graph strategies r = Some (Ok (new_strategies, r'))
    ∧ imitates graph strategies new_strategies.
Proof.
  intros Hclosed Hon. unfold update_strategies.
  apply (for_each_inv (imitates graph strategies)).
  - intros node s r0 Hnode Him. by apply update_node_imitates.
  - intros node. by left.
Qed.

Lemma imitates_on_graph graph strategies new_strategies :
  on_graph graph strategies → imitates graph strategies new_strategies →
  on_graph graph new_strategies.
Proof.
  intros [Hdom Hval] Him. split.
  - intros node. rewrite Hdom.
    destruct (Him node) as [->|(opp & mine & theirs & _ & -> & _ & _ & ->)];
      [done|]. split; eauto.
  - intros node strategy Hs.
    destruct (Him node) as [Heq|(opp & mine & theirs & _ & _ & Ht & _ & Hn)].
    + rewrite Heq in Hs. by eapply Hval.
    + rewrite Hn in Hs. injection Hs as <-. by eapply Hval.
Qed.

Lemma imitates_values graph strategies new_strategies strategy :
  imitates graph strategies new_strategies →
  strategy ∈ (map_to_list new_strategies).*2 →
  strategy ∈ (map_to_list strategies).*2.
Proof.
  intros Him ([node s] & -> & Hin%elem_of_map_to_list)%list_elem_of_fmap.
  simpl in *.
  destruct (Him node) as [Heq|(opp & mine & theirs & _ & _ & Ht & _ & Hn)].
  - rewrite Heq in Hin. apply list_elem_of_fmap. exists (node, s).
    split; [done|]. by apply elem_of_map_to_list.
  - rewrite Hn in Hin. injection Hin as <-. apply list_elem_of_fmap.
    exists (opp, theirs). split; [done|]. by apply elem_of_map_to_list.
Qed.

(** ** Counting *)

Lemma tally_cons strategy x values :
  tally strategy (x :: values)
  = ((if decide (x = strategy) then 1 else 0) + tally strategy values)%nat.
Proof. unfold tally. rewrite filter_cons. by destruct (decide (x = strategy)). Qed.

Lemma tally_zero strategy values :
  tally strategy values = 0%nat ↔ strategy ∉ values.
Proof.
  induction values as [|x values IH].
  - split; [intros _ ?%elem_of_nil; done|done].
  - rewrite tally_cons, not_elem_of_cons.
    destruct (decide (x = strategy)) as [->|Hne]; simpl.
    + split; [done|]. by intros [? _].
    + rewrite IH. split; [by split|by intros [_ ?]].
Qed.

Lemma tally_total values :
  Forall (λ x, x ∈ strategy_names) values →
  (tally "rock" values + tally "scissors" values + tally "paper" values)%nat
  = length values.
Proof.
  induction 1 as [|x values Hx _ IH]; [done|].
  rewrite !tally_cons. simpl length. rewrite <- IH.
  unfold strategy_names in Hx.
  repeat (apply elem_of_cons in Hx as [->|Hx]); [..|by apply elem_of_nil in Hx];
    repeat match goal with
           | |- context [decide (?a = ?b)] =>
             destruct (decide (a = b)) as [Heq|Hne];
               [try discriminate Heq|try (exfalso; by apply Hne)]
           end; simpl; lia.
Qed.

Lemma count_strategies_tally counts values :
  Forall (λ x, x ∈ strategy_names) values →
  (∀ s, s ∈ strategy_names → is_Some (counts !! s)) →
  ∃ counts',
    count_strategies counts values = Ok counts'
    ∧ ∀ s, counts' !! s = (λ n, (n + tally s values)%nat) <$> counts !! s.
Proof.
  intros Hall. revert counts.
  induction Hall as [|x values Hx _ IH]; intros counts Hkeys;
    cbn [count_strategies].
  - exists counts. split; [done|]. intros s. unfold tally. simpl.
    destruct (counts !! s); simpl; [|done]. f_equal. lia.
  - destruct (Hkeys x Hx) as [n Hn].
    destruct (IH (<[x := (n + 1)%nat]> counts)) as (counts' & Hrun & Hspec).
    { intros s Hs. destruct (decide (x = s)) as [<-|Hne].
      - rewrite lookup_insert_eq. eauto.
      - rewrite lookup_insert_ne by done. by apply Hkeys. }
    exists counts'. split.
    + unfold count_strategy, getitem. rewrite Hn. exact Hrun.
    + intros s. rewrite Hspec, tally_cons.
      destruct (decide (x = s)) as [<-|Hne].
      * rewrite lookup_insert_eq, Hn. simpl. f_equal. lia.
      * rewrite lookup_insert_ne by done. done.
Qed.

(** The entry [record_strategy_counts] appends: for each of the three
    names the number of nodes that play it. *)
Lemma record_strategy_counts_spec graph strategies strategy_history :
  on_graph graph strategies →
  ∃ counts,
    record_strategy_counts strategies strategy_history
    = Ok (strategy_history ++ [counts])
    ∧ counts_of strategies counts.
Proof.
  intros [_ Hval]. unfold record_strategy_counts.
  set (zero := ({[ "rock"%string := 0%nat; "scissors"%string := 0%nat;
                   "paper"%string := 0%nat ]} : gmap string nat)).
  assert (∀ s, zero !! s = if decide (s ∈ strategy_names) then Some 0%nat
                           else None) as Hzero.
  { intros s. unfold zero, strategy_names.
    destruct (decide (s = "rock"%string)) as [->|H1]; [done|].
    rewrite lookup_insert_ne by done.
    destruct (decide (s = "scissors"%string)) as [->|H2]; [done|].
    rewrite lookup_insert_ne by done.
    destruct (decide (s = "paper"%string)) as [->|H3]; [done|].
    rewrite lookup_singleton_ne by done.
    rewrite decide_False; [done|].
    intros Hin. repeat (apply elem_of_cons in Hin as [?|Hin]; [done|]).
    by apply elem_of_nil in Hin. }
  destruct (count_strategies_tally zero (map_to_list strategies).*2)
    as (counts & -> & Hspec).
  { apply Forall_forall.
    intros s ([node s'] & -> & Hin%elem_of_map_to_list)%list_elem_of_fmap.
    by eapply Hval. }
  { intros s Hs. rewrite Hzero, decide_True by done. eauto. }
  unfold_bind. cbv beta iota. exists counts. split; [done|].
  intros s. rewrite Hspec, Hzero. by destruct (decide (s ∈ strategy_names)).
Qed.

Lemma on_graph_size graph strategies :
  NoDup (nodes graph) → on_graph graph strategies →
  length (map_to_list strategies).*2 = length (nodes graph).
Proof.
  intros Hnd [Hdom _]. rewrite length_fmap, length_map_to_list, <- size_dom.
  replace (dom strategies) with (list_to_set (nodes graph) : gset nat).
  - by apply size_list_to_set.
  - apply set_eq. intros node.
    by rewrite elem_of_list_to_set, elem_of_dom, Hdom.
Qed.

Lemma on_graph_values graph strategies :
  on_graph graph strategies →
  Forall (λ x, x ∈ strategy_names) (map_to_list strategies).*2.
Proof.
  intros [_ Hval]. apply Forall_forall.
  intros s ([node s'] & -> & Hin%elem_of_map_to_list)%list_elem_of_fmap.
  by eapply Hval.
Qed.

Lemma played_snoc graph states history strategies new_strategies counts :
  played graph states history → last states = Some strategies →
  on_graph graph new_strategies → imitates graph strategies new_strategies →
  counts_of new_strategies counts →
  played graph (states ++ [new_strategies]) (history ++ [counts]).
Proof.
  intros [Hon Hcounts Hvalues] Hlast Hnew Him Hc. split.
  - apply Forall_app. split; [done|by constructor].
  - apply Forall2_app; [done|by constructor].
  - intros i j mi mj s Hij Hi Hj Hs.
    destruct (decide (j < length states)%nat) as [Hlt|Hge].
    + rewrite lookup_app_l in Hi by lia. rewrite lookup_app_l in Hj by lia.
      exact (Hvalues i j mi mj s Hij Hi Hj Hs).
    + assert (j = length states) as ->.
      { apply lookup_lt_Some in Hj. rewrite length_app in Hj. simpl in Hj. lia. }
      rewrite list_lookup_middle in Hj by done. injection Hj as <-.
      destruct (decide (i = length states)) as [->|Hne].
      * rewrite list_lookup_middle in Hi by done. by injection Hi as <-.
      * rewrite lookup_app_l in Hi by lia.
        apply (Hvalues i (pred (length states)) mi strategies s);
          [lia|done| |by eapply imitates_values].
        by rewrite <- last_lookup.
Qed.

Lemma run_simulation_played graph rounds r :
  closed graph →
  ∃ strategies history r' states,
    run_simulation graph rounds r = Some (Ok ((strategies, history), r'))
    ∧ length states = S rounds
    ∧ last states = Some strategies
    ∧ played graph states history.
Proof.
  intros Hclosed. unfold run_simulation.
  destruct (initialize_strategies_on_graph graph r)
    as (strategies0 & r0 & Hinit & Hon0).
  rewrite (gen_bind_Ok _ _ _ _ _ Hinit).
  destruct (record_strategy_counts_spec graph strategies0 [] Hon0)
    as (counts0 & Hrec0 & Hc0).
  unfold gen_bind at 1. unfold gen_result at 1. rewrite Hrec0. simpl app.
  destruct (for_range_inv
    (λ k (acc : gmap nat string * list (gmap string nat)),
       ∃ states, length states = S k ∧ last states = Some acc.1
         ∧ played graph states acc.2)
    (λ '(strategies, history),
       gen_bind (update_strategies graph strategies) (λ strategies',
       gen_bind (gen_result (record_strategy_counts strategies' history))
         (λ history', gen_ret (strategies', history'))))
    rounds 0 (strategies0, [counts0]) r0)
    as ([strategies history] & r' & Hloop & states & Hlen & Hlast & Hplayed).
  - intros k [strategies history] r1 _ (states & Hlen & Hlast & Hplayed).
    simpl in Hlast, Hplayed.
    assert (on_graph graph strategies) as Hon.
    { pose proof (played_on_graph _ _ _ Hplayed) as Hall.
      rewrite Forall_forall in Hall. apply Hall.
      rewrite last_lookup in Hlast. by eapply list_elem_of_lookup_2. }
    destruct (update_strategies_imitates graph strategies r1 Hclosed Hon)
      as (new_strategies & r2 & Hup & Him).
    rewrite (gen_bind_Ok _ _ _ _ _ Hup).
    pose proof (imitates_on_graph _ _ _ Hon Him) as Hnew.
    destruct (record_strategy_counts_spec graph new_strategies history Hnew)
      as (counts & Hrec & Hc).
    unfold gen_bind, gen_result. rewrite Hrec.
    eexists (_, _), r2. split; [done|]. simpl.
    exists (states ++ [new_strategies]).
    split; [rewrite length_app; simpl; lia|].
    split; [by rewrite last_snoc|]. by eapply played_snoc.
  - exists [strategies0]. split; [done|]. split; [done|]. split; simpl.
    + by constructor.
    + by repeat constructor.
    + intros [|i] [|j] mi mj s Hij; simpl; try done.
      by intros [= <-] [= <-].
  - exists strategies, history, r', states. by rewrite Nat.add_0_l in Hlen.
Qed.

(** X18: one round on a graph whose neighbours are nodes, from strategies
    set on its nodes: [update_strategies] does not raise; afterwards every
    node still has one of the three strategies, and it has kept its own
    or taken the one of a neighbour that has just beaten it.  So a
    strategy that no node plays is played by no node after the round. *)
Theorem update_strategies_spec (graph : Graph) (strategies : gmap nat string)
    (r : Rng) :
  closed graph → on_graph graph strategies →
  ∃ new_strategies r',
    update_strategies graph strategies r = Some (Ok (new_strategies, r'))
    ∧ on_graph graph new_strategies
    ∧ imitates graph strategies new_strategies
    ∧ ∀ s, (∀ node, strategies !! node ≠ Some s) →
           ∀ node, new_strategies !! node ≠ Some s.
Proof.
  intros Hclosed Hon.
  destruct (update_strategies_imitates graph strategies r Hclosed Hon)
    as (new_strategies & r' & Hup & Him).
  exists new_strategies, r'. split; [done|].
  split; [by eapply imitates_on_graph|]. split; [done|].
  intros s Hnone node Hnode.
  destruct (Him node) as [Heq|(opp & mine & theirs & _ & _ & Ht & _ & Hn)].
  - rewrite Heq in Hnode. by eapply Hnone.
  - rewrite Hn in Hnode. injection Hnode as <-. by eapply Hnone.
Qed.

(** X19: [run_simulation] on a graph with distinct nodes whose
    neighbours are nodes does not raise; it leaves [rounds + 1] entries in
    the history; every entry has a count for each of the three strategies
    and the three counts add up to the number of nodes; and a strategy
    whose count is 0 in an entry has count 0 in every later entry. *)
Theorem simulation_history (graph : Graph) (rounds : nat) (r : Rng) :
  closed graph → NoDup (nodes graph) →
  ∃ strategies history r',
    run_simulation graph rounds r = Some (Ok ((strategies, history), r'))
    ∧ on_graph graph strategies
    ∧ length history = S rounds
    ∧ (∀ i counts, history !! i = Some counts →
         ∃ rock scissors paper,
           counts !! "rock"%string = Some rock
           ∧ counts !! "scissors"%string = Some scissors
           ∧ counts !! "paper"%string = Some paper
           ∧ (rock + scissors + paper)%nat = length (nodes graph))
    ∧ (∀ i j ci cj s,
         (i ≤ j)%nat → history !! i = Some ci → history !! j = Some cj →
         ci !! s = Some 0%nat → cj !! s = Some 0%nat).
Proof.
  intros Hclosed Hnd.
  destruct (run_simulation_played graph rounds r Hclosed)
    as (strategies & history & r' & states & Hrun & Hlen & Hlast
        & [Hon Hcounts Hvalues]).
  exists strategies, history, r'. split; [done|].
  rewrite Forall_forall in Hon.
  split.
  { apply Hon. rewrite last_lookup in Hlast. by eapply list_elem_of_lookup_2. }
  split; [by rewrite <- (Forall2_length _ _ _ Hcounts)|].
  split.
  - intros i counts Hi.
    destruct (Forall2_lookup_r _ _ _ _ _ Hcounts Hi) as (m & Hm & Hc).
    assert (on_graph graph m) as Hmon
      by (apply Hon; by eapply list_elem_of_lookup_2).
    exists (tally "rock" (map_to_list m).*2),
      (tally "scissors" (map_to_list m).*2),
      (tally "paper" (map_to_list m).*2).
    rewrite !Hc. split; [done|]. split; [done|]. split; [done|].
    rewrite tally_total by by eapply on_graph_values.
    by apply on_graph_size.
  - intros i j ci cj s Hij Hi Hj Hzero.
    destruct (Forall2_lookup_r _ _ _ _ _ Hcounts Hi) as (mi & Hmi & Hci).
    destruct (Forall2_lookup_r _ _ _ _ _ Hcounts Hj) as (mj & Hmj & Hcj).
    rewrite Hci in Hzero. rewrite Hcj.
    destruct (decide (s ∈ strategy_names)); [|done].
    injection Hzero as Hzero. f_equal. apply tally_zero.
    intros Hin. apply tally_zero in Hzero. apply Hzero.
    by eapply Hvalues.
Qed.

(** * The theorems on the scenarios *)

Lemma scenario1_well_typed : well_typed scenario1.
Proof. apply (bool_decide_unpack _). by vm_compute. Qed.

Lemma allocation_is_matching_witness :
  well_typed scenario2 ∧ (pop_bound scenario2 ≤ 4)%nat
  ∧ ∃ alloc, gale_shapley_matching 4 scenario2 = Some (Ok alloc)
      ∧ (∀ s names, alloc !! s = Some names →
           NoDup names
           ∧ (∃ school, schools scenario2 !! s = Some school
                ∧ Z.of_nat (length names) ≤ School.capacity school)
           ∧ (∃ pairs, names = pairs.*1
                ∧ Sorted (λ x y : string * Z, y.2 ≤ x.2) pairs
                ∧ ∀ a sc, (a, sc) ∈ pairs →
                    ∃ stu, stu ∈ students scenario2 ∧ Student.name stu = a
                      ∧ Student.score stu = sc ∧ s ∈ Student.preferences stu))
      ∧ (∀ s1 s2 a, s1 ≠ s2 → assigned alloc a s1 → ¬ assigned alloc a s2).
Proof.
  split; [exact scenario2_well_typed|]. split; [vm_compute; lia|].
  apply (allocation_is_matching scenario2 4 scenario2_well_typed).
  vm_compute; lia.
Defined.

Lemma allocation_is_stable_witness :
  well_typed scenario1 ∧ (pop_bound scenario1 ≤ 6)%nat
  ∧ ∃ alloc, gale_shapley_matching 6 scenario1 = Some (Ok alloc)
      ∧ ∀ stu k s, stu ∈ students scenario1 →
          Student.preferences stu !! k = Some s → s ∈ dom (schools scenario1) →
          assigned alloc (Student.name stu) s
          ∨ (∃ k' s', (k' < k)%nat ∧ Student.preferences stu !! k' = Some s'
               ∧ assigned alloc (Student.name stu) s')
          ∨ (∃ names school, alloc !! s = Some names
               ∧ schools scenario1 !! s = Some school
               ∧ Z.of_nat (length names) = School.capacity school
               ∧ ∀ other, other ∈ students scenario1 →
                   Student.name other ∈ names →
                   Student.score stu ≤ Student.score other).
Proof.
  split; [exact scenario1_well_typed|]. split; [vm_compute; lia|].
  apply (allocation_is_stable scenario1 6 scenario1_well_typed).
  vm_compute; lia.
Defined.



Lemma rejected_panel_witness :
  well_typed scenario2
  ∧ ∃ w,
    handle_all scenario2 (opened scenario2) [PressStep; PressStep; PressStep]
    = Ok w
    ∧ "A"%string ∈ rejected_students (w_state w)
    ∧ ("A"%string ∉ Animation.unmatched (w_state w))
    ∧ ∃ stu i, stu ∈ students scenario2 ∧ Student.name stu = "A"%string
        ∧ Animation.pref_index (w_state w) !! "A"%string = Some i
        ∧ ((∃ s d, Animation.schools_dict (w_state w) !! s = Some d
                   ∧ "A"%string ∈ (accepted d).*1)
           ∨ (length (Student.preferences stu) ≤ i)%nat).
Proof.
  split; [exact scenario2_well_typed|].
  eexists. split; [vm_compute; reflexivity|].
  assert ("A"%string ∈ rejected_students
            (w_state
               (match handle_all scenario2 (opened scenario2)
                        [PressStep; PressStep; PressStep] with
                | Ok w => w
                | Raise _ => opened scenario2
                end))) as Hin.
  { apply (bool_decide_unpack _). vm_compute. reflexivity. }
  split; [exact Hin|].
  exact (rejected_panel scenario2 [PressStep; PressStep; PressStep] _ "A"
           scenario2_well_typed eq_refl Hin).
Defined.

Lemma random_data_spec_witness :
  ∃ app' r',
    generate_random_data 100 (Some 2) (Some 2) empty_app (mkRng (λ n, n) 0)
    = Some (Ok (app', r'))
    ∧ Z.of_nat (length (students app')) = 2
    ∧ Z.of_nat (size (schools app')) = 2
    ∧ well_typed app'
    ∧ (∀ key school, schools app' !! key = Some school →
         School.name school = key
         ∧ 1 ≤ School.capacity school ≤ 2 `max` (2 `div` 3))
    ∧ (∀ student, student ∈ students app' →
         50 ≤ Student.score student ≤ 100
         ∧ NoDup (Student.preferences student)
         ∧ (1 ≤ length (Student.preferences student) ≤ 5)%nat
         ∧ ∀ p, p ∈ Student.preferences student → p ∈ dom (schools app')).
Proof.
  apply (random_data_spec 100 2 2 empty_app (mkRng (λ n, n) 0)); lia.
Defined.

Lemma data_entry_keeps_well_formed_witness :
  ∃ app r',
    perform_all (λ s, s) (λ s, [s]) (λ _, Some 3) 100
      [AddSchool (mkSchoolForm "X" "3");
       AddStudent (mkStudentForm "A" "3" "X");
       AddStudent (mkStudentForm "A" "3" "X");
       GenerateRandomData (Some 2) None;
       LoadSampleData]
      empty_app (mkRng (λ n, n) 0)
    = Some (Ok (app, r'))
    ∧ entered app.
Proof.
  apply (data_entry_keeps_well_formed (λ s, s) (λ s, [s]) (λ _, Some 3) 100);
    [|lia].
  repeat constructor; simpl; lia.
Defined.

Lemma run_matching_after_entry_witness :
  ∃ app r',
    perform_all (λ s, s) (λ s, [s]) (λ _, Some 3) 100
      [AddSchool (mkSchoolForm "X" "3");
       AddStudent (mkStudentForm "A" "3" "X")]
      empty_app (mkRng (λ n, n) 0)
    = Some (Ok (app, r'))
    ∧ ∀ fuel', (pop_bound app ≤ fuel')%nat →
        ∃ outcome, run_matching fuel' app = Some (Ok outcome)
          ∧ match outcome with
            | NoStudentsOrSchools => students app = [] ∨ schools app = ∅
            | Displayed matches =>
              students app ≠ [] ∧ schools app ≠ ∅
              ∧ gale_shapley_matching fuel' app = Some (Ok matches)
              ∧ dom matches = dom (schools app)
            end.
Proof.
  apply (run_matching_after_entry (λ s, s) (λ s, [s]) (λ _, Some 3) 100);
    [|lia].
  repeat constructor.
Defined.

Lemma ranking_determines_allocation_witness :
  NoDup (Student.name <$> students scenario2)
  ∧ ranked_alike (students scenario2)
      [Student.mk "A" ["X"%string] 7; Student.mk "B" ["X"%string] 9]
  ∧ gale_shapley_matching 4
      (mkApp [Student.mk "A" ["X"%string] 7; Student.mk "B" ["X"%string] 9]
         (schools scenario2))
    = gale_shapley_matching 4 scenario2
  ∧ trace 4
      (mkApp [Student.mk "A" ["X"%string] 7; Student.mk "B" ["X"%string] 9]
         (schools scenario2))
    = trace 4 scenario2.
Proof.
  assert (NoDup (Student.name <$> students scenario2)) as Hnd
    by exact (proj1 scenario2_well_typed).
  assert (ranked_alike (students scenario2)
            [Student.mk "A" ["X"%string] 7; Student.mk "B" ["X"%string] 9])
    as Halike.
  { split; [repeat constructor|].
    intros [|[|i]] [|[|j]] s1 s2 s1' s2'; simpl;
      intros [= <-] [= <-] [= <-] [= <-]; simpl; lia. }
  split; [exact Hnd|]. split; [exact Halike|].
  exact (ranking_determines_allocation scenario2
           (mkApp [Student.mk "A" ["X"%string] 7; Student.mk "B" ["X"%string] 9]
              (schools scenario2)) 4 Hnd eq_refl Halike).
Defined.

Lemma order_preserving_factor_witness :
  well_typed scenario2 ∧ (pop_bound scenario2 ≤ 4)%nat
  ∧ adjust_students float_half (students scenario2)
    = Ok [Student.mk "A" ["X"%string] 35; Student.mk "B" ["X"%string] 45]
  ∧ ∃ baseline,
    gale_shapley_matching 4 scenario2 = Some (Ok baseline)
    ∧ _run_adjusted_matching 4 float_half scenario2
      = Some (scenario2, Ok baseline)
    ∧ _count_matching_changes baseline baseline = 0%nat
    ∧ _display_matching_changes baseline baseline = [LineNoChanges].
Proof.
  assert (adjust_students float_half (students scenario2)
          = Ok [Student.mk "A" ["X"%string] 35; Student.mk "B" ["X"%string] 45])
    as Hadj by (vm_compute; reflexivity).
  split; [exact scenario2_well_typed|]. split; [vm_compute; lia|].
  split; [exact Hadj|].
  apply (order_preserving_factor scenario2 4 float_half
           [Student.mk "A" ["X"%string] 35; Student.mk "B" ["X"%string] 45]
           scenario2_well_typed); [vm_compute; lia|exact Hadj|].
  intros [|[|i]] [|[|j]] s1 s2 s1' s2'; simpl;
    intros [= <-] [= <-] [= <-] [= <-]; simpl; lia.
Defined.

Lemma charts_of_analysis_witness :
  well_typed scenario2 ∧ (pop_bound scenario2 ≤ 4)%nat
  ∧ ∃ charts,
    update_charts 4 ∅ [float_half; float_one] scenario2
    = Some (scenario2, Ok charts)
    ∧ length (change_counts charts) = length [float_half; float_one]
    ∧ dom (school_allocations charts) = dom (schools scenario2)
    ∧ ∀ s school, schools scenario2 !! s = Some school →
        ∃ counts, school_allocations charts !! s = Some counts
          ∧ length counts = length [float_half; float_one]
          ∧ Forall (λ c, Z.of_nat c ≤ School.capacity school) counts.
Proof.
  split; [exact scenario2_well_typed|]. split; [vm_compute; lia|].
  apply (charts_of_analysis scenario2 4 ∅ [float_half; float_one]
           scenario2_well_typed); [vm_compute; lia|].
  repeat constructor; eexists; vm_compute; reflexivity.
Defined.

Lemma two_players_closed : closed two_players.
Proof.
  intros node opponent Hnode Hopp. simpl in *.
  assert (opponent = 0%nat ∨ opponent = 1%nat) as [->| ->].
  { destruct node as [|node]; apply list_elem_of_singleton in Hopp; auto. }
  - by left.
  - right. by left.
Qed.

Lemma two_players_on_graph :
  on_graph two_players {[ 0%nat := "rock"%string; 1%nat := "paper"%string ]}.
Proof.
  split.
  - intros [|[|node]]; simpl.
    + rewrite lookup_insert_eq. split; [eauto|]. intros _. by left.
    + rewrite lookup_insert_ne, lookup_singleton_eq by done.
      split; [eauto|]. intros _. right. by left.
    + rewrite lookup_insert_ne, lookup_singleton_ne by done. split.
      * intros Hin. repeat (apply elem_of_cons in Hin as [?|Hin]; [done|]).
        by apply elem_of_nil in Hin.
      * by intros [? ?].
  - intros [|[|node]] strategy.
    + rewrite lookup_insert_eq. intros [= <-]. by left.
    + rewrite lookup_insert_ne, lookup_singleton_eq by done.
      intros [= <-]. right. right. by left.
    + by rewrite lookup_insert_ne, lookup_singleton_ne by done.
Qed.

Lemma update_strategies_spec_witness :
  closed two_players
  ∧ on_graph two_players {[ 0%nat := "rock"%string; 1%nat := "paper"%string ]}
  ∧ ∃ new_strategies r',
    update_strategies two_players
      {[ 0%nat := "rock"%string; 1%nat := "paper"%string ]} (mkRng (λ n, n) 0)
    = Some (Ok (new_strategies, r'))
    ∧ on_graph two_players new_strategies
    ∧ imitates two_players
        {[ 0%nat := "rock"%string; 1%nat := "paper"%string ]} new_strategies
    ∧ ∀ s, (∀ node, ({[ 0%nat := "rock"%string; 1%nat := "paper"%string ]}
                       : gmap nat string) !! node ≠ Some s) →
           ∀ node, new_strategies !! node ≠ Some s.
Proof.
  split; [exact two_players_closed|]. split; [exact two_players_on_graph|].
  exact (update_strategies_spec two_players _ (mkRng (λ n, n) 0)
           two_players_closed two_players_on_graph).
Defined.

Lemma simulation_history_witness :
  closed two_players ∧ NoDup (nodes two_players)
  ∧ ∃ strategies history r',
    run_simulation two_players 10 (mkRng (λ n, n) 0)
    = Some (Ok ((strategies, history), r'))
    ∧ on_graph two_players strategies
    ∧ length history = 11%nat
    ∧ (∀ i counts, history !! i = Some counts →
         ∃ rock scissors paper,
           counts !! "rock"%string = Some rock
           ∧ counts !! "scissors"%string = Some scissors
           ∧ counts !! "paper"%string = Some paper
           ∧ (rock + scissors + paper)%nat = length (nodes two_players))
    ∧ (∀ i j ci cj s,
         (i ≤ j)%nat → history !! i = Some ci → history !! j = Some cj →
         ci !! s = Some 0%nat → cj !! s = Some 0%nat).
Proof.
  assert (NoDup (nodes two_players)) as Hnd.
  { apply (bool_decide_unpack _). by vm_compute. }
  split; [exact two_players_closed|]. split; [exact Hnd|].
  exact (simulation_history two_players 10 (mkRng (λ n, n) 0)
           two_players_closed Hnd).
Defined.

(** * The session, the keys of the allocation and the ordinary branches *)

Lemma two_places_well_typed : well_typed two_places.
Proof. apply (bool_decide_unpack _). by vm_compute. Qed.

Lemma first_choice_well_typed : well_typed first_choice.
Proof. apply (bool_decide_unpack _). by vm_compute. Qed.

Lemma ghost_then_full_well_typed : well_typed ghost_then_full.
Proof. apply (bool_decide_unpack _). by vm_compute. Qed.

(** ** The session and the engine *)

(** C1, as it stands, fails where a school admits the lower score first:
    with A (70) and B (90) and two places at X, the finished session holds
    A before B in the accepted list of X, in the order of admission, while
    the engine returns B before A. *)
Lemma session_lists_are_not_sorted :
  ∃ state,
    drive_steps 4 (_animation_reset two_places blank_state) = Some (Ok state)
    ∧ Animation.unmatched state = []
    ∧ accepted <$> Animation.schools_dict state !! "X"%string
      = Some [("A"%string, 70); ("B"%string, 90)]
    ∧ gale_shapley_matching 4 two_places
      = Some (Ok {[ "X"%string := ["B"%string; "A"%string] ]})
    ∧ (([("A"%string, 70); ("B"%string, 90)] : list (string * Z)).*1
       ≠ ["B"%string; "A"%string]).
Proof.
  eexists. split; [vm_compute; reflexivity|]. split; [reflexivity|].
  split; [vm_compute; reflexivity|]. split; [vm_compute; reflexivity|].
  discriminate.
Qed.

(** C1, amended: for well-typed input, pressing Step from the initialized
    animation state until the queue is empty ends, without raising, in a
    state whose per-school accepted lists are exactly the lists the
    engine's loop ends with: the same students with the same scores, in
    the order of admission.  The allocation the engine returns has the
    same schools and, for each, the names of that list sorted by
    descending score, ties in the order of admission. *)
Theorem session_matches_engine (app : App) (fuel : nat) :
  well_typed app → (pop_bound app ≤ fuel)%nat →
  ∃ state evs st alloc,
    drive_steps fuel (_animation_reset app blank_state) = Some (Ok state)
    ∧ Animation.unmatched state = []
    ∧ match_loop fuel (initial_state app) = Some (Ok (evs, st))
    ∧ steps (initial_state app) evs st
    ∧ Animation.schools_dict state = schools_dict st
    ∧ Animation.history state = mjoin (recorded <$> evs)
    ∧ gale_shapley_matching fuel app = Some (Ok alloc)
    ∧ dom alloc = dom (Animation.schools_dict state)
    ∧ ∀ s d, Animation.schools_dict state !! s = Some d →
        ∃ names, alloc !! s = Some names
          ∧ names ≡ₚ (accepted d).*1
          ∧ names = (sorted true (accepted d)).*1
          ∧ Sorted (λ x y : string * Z, y.2 ≤ x.2) (sorted true (accepted d)).
Proof.
  intros Hwt Hfuel.
  destruct (match_loop_finishes app fuel Hwt Hfuel) as (evs & st & Hloop).
  pose proof (drive_steps_sim fuel (_animation_reset app blank_state)) as Hsim.
  change (engine_state (_animation_reset app blank_state))
    with (initial_state app) in Hsim.
  rewrite Hloop in Hsim. destruct Hsim as (state & Hdrive & Hst & Hhist).
  destruct (match_loop_steps _ _ _ _ Hloop) as (Hsteps & Hq & _).
  assert (Animation.schools_dict state = schools_dict st) as Hsd
    by by rewrite <- Hst.
  exists state, evs, st, (format_results (schools_dict st)).
  split; [done|]. split; [by rewrite <- Hst in Hq|]. split; [done|].
  split; [done|]. split; [done|]. split; [done|].
  split; [unfold gale_shapley_matching; by rewrite Hloop|].
  split; [unfold format_results; by rewrite dom_fmap_L, Hsd|].
  intros s d Hd. rewrite Hsd in Hd.
  exists ((sorted true (accepted d)).*1).
  split; [unfold format_results; by rewrite lookup_fmap, Hd|].
  split; [by rewrite sorted_Permutation|]. split; [done|].
  eapply Sorted_weaken; [|apply (sorted_Sorted true)].
  intros x y. unfold key_le. by rewrite bool_decide_eq_true.
Qed.

Lemma session_matches_engine_witness :
  well_typed two_places ∧ (pop_bound two_places ≤ 4)%nat
  ∧ ∃ state evs st alloc,
    drive_steps 4 (_animation_reset two_places blank_state) = Some (Ok state)
    ∧ Animation.unmatched state = []
    ∧ match_loop 4 (initial_state two_places) = Some (Ok (evs, st))
    ∧ steps (initial_state two_places) evs st
    ∧ Animation.schools_dict state = schools_dict st
    ∧ Animation.history state = mjoin (recorded <$> evs)
    ∧ gale_shapley_matching 4 two_places = Some (Ok alloc)
    ∧ dom alloc = dom (Animation.schools_dict state)
    ∧ ∀ s d, Animation.schools_dict state !! s = Some d →
        ∃ names, alloc !! s = Some names
          ∧ names ≡ₚ (accepted d).*1
          ∧ names = (sorted true (accepted d)).*1
          ∧ Sorted (λ x y : string * Z, y.2 ≤ x.2) (sorted true (accepted d)).
Proof.
  split; [exact two_places_well_typed|]. split; [vm_compute; lia|].
  apply (session_matches_engine two_places 4);
    [exact two_places_well_typed | vm_compute; lia].
Defined.

(** ** The shape of the returned allocation *)

Lemma applied_to_snoc evs ev s :
  applied_to (evs ++ [ev]) s
  ↔ applied_to evs s
    ∨ ∃ a, ev = Accepted a s ∨ (∃ r, ev = Replaced a s r) ∨ ev = Rejected a s.
Proof.
  unfold applied_to. split.
  - intros (a & H). rewrite !elem_of_app, !list_elem_of_singleton in H.
    destruct H as [[?|?]|[(r & H)|[?|?]]].
    + left. eauto.
    + right. eauto.
    + rewrite elem_of_app, list_elem_of_singleton in H.
      destruct H as [?|?]; [left|right]; exists a; eauto.
    + left. eauto.
    + right. eauto.
  - intros [(a & H)|(a & H)]; exists a.
    + destruct H as [?|[(r & ?)|?]].
      * left. apply elem_of_app. by left.
      * right. left. exists r. apply elem_of_app. by left.
      * right. right. apply elem_of_app. by left.
    + destruct H as [-> | [(r & ->) | ->]].
      * left. apply elem_of_app. right. by left.
      * right. left. exists r. apply elem_of_app. right. by left.
      * right. right. apply elem_of_app. right. by left.
Qed.

Lemma empty_until_applied_iteration app evs st ev st' :
  well_typed app → consistent app st →
  empty_until_applied evs st → iteration st ev st' →
  empty_until_applied (evs ++ [ev]) st'.
Proof.
  intros Hwt Hc Hinv Hit s' d'. rewrite applied_to_snoc.
  destruct Hit as [a q e i Hq He Hi Hlen | a q e i s Hq He Hi Hs Hd
    | a q e i s d Hq He Hi Hs Hd Hlt
    | a q e i s d l1 low l2 Hq He Hi Hs Hd Hfull Hsplit H1 H2 Hlt
    | a q e i s d l1 low l2 Hq He Hi Hs Hd Hfull Hsplit H1 H2 Hlt]; simpl.
  - intros Hd'. rewrite (Hinv _ _ Hd'). split.
    + intros Hn [?|(a0 & [?|[(r & ?)|?]])]; done.
    + intros Hn ?. apply Hn. by left.
  - intros Hd'. rewrite (Hinv _ _ Hd'). split.
    + intros Hn [?|(a0 & [?|[(r & ?)|?]])]; done.
    + intros Hn ?. apply Hn. by left.
  - destruct (decide (s = s')) as [<-|Hne].
    + rewrite lookup_insert_eq. intros [= <-]. simpl. split.
      * intros Hnil. by destruct (accepted d).
      * intros Hn. exfalso. apply Hn. right. exists a. by left.
    + rewrite lookup_insert_ne by done. intros Hd'. rewrite (Hinv _ _ Hd').
      split.
      * intros Hn [?|(a0 & [Heq|[(r & Heq)|Heq]])]; [done|..]; congruence.
      * intros Hn ?. apply Hn. by left.
  - destruct (decide (s = s')) as [<-|Hne].
    + rewrite lookup_insert_eq. intros [= <-]. simpl. split.
      * intros Hnil. by destruct (l1 ++ l2).
      * intros Hn. exfalso. apply Hn. right. exists a. right. left. eauto.
    + rewrite lookup_insert_ne by done. intros Hd'. rewrite (Hinv _ _ Hd').
      split.
      * intros Hn [?|(a0 & [Heq|[(r & Heq)|Heq]])]; [done|..]; congruence.
      * intros Hn ?. apply Hn. by left.
  - intros Hd'. destruct (decide (s = s')) as [<-|Hne].
    + rewrite Hd in Hd'. injection Hd' as <-. split.
      * intros Hnil.
        pose proof (consistent_capacity_positive _ _ _ _ Hwt Hc Hd) as Hpos.
        rewrite Hnil in Hfull. simpl in Hfull. lia.
      * intros Hn. exfalso. apply Hn. right. exists a. by right; right.
    + rewrite (Hinv _ _ Hd'). split.
      * intros Hn [?|(a0 & [Heq|[(r & Heq)|Heq]])]; [done|..]; congruence.
      * intros Hn ?. apply Hn. by left.
Qed.

Lemma empty_until_applied_steps app st evs st' :
  well_typed app → steps st evs st' → ∀ pre,
  consistent app st → empty_until_applied pre st →
  empty_until_applied (pre ++ evs) st'.
Proof.
  intros Hwt. induction 1 as [st|st ev st1 evs st2 Hit _ IH]; intros pre Hc Hinv.
  - by rewrite app_nil_r.
  - apply match_iteration_spec in Hit.
    replace (pre ++ ev :: evs) with ((pre ++ [ev]) ++ evs)
      by by rewrite <- app_assoc.
    apply IH; [by eapply consistent_iteration|].
    by eapply empty_until_applied_iteration.
Qed.

Lemma empty_until_applied_initial app : empty_until_applied [] (initial_state app).
Proof.
  intros s d. simpl. unfold make_schools_dict. rewrite lookup_fmap.
  destruct (schools app !! s); [|done]. intros [= <-]. simpl.
  split; [|done]. intros _ (a & [H|[(r & H)|H]]); by apply elem_of_nil in H.
Qed.

(** C10: for well-typed input the returned allocation has the input school
    names as its keys, no more and no fewer.  A school is mapped to the
    empty list exactly when no student applied to it during the run; this
    is so in particular for a school that is in no student's preference
    list, and also for a listed school that no student got to. *)
Theorem allocation_keys (app : App) (fuel : nat) :
  well_typed app → (pop_bound app ≤ fuel)%nat →
  ∃ alloc evs st,
    gale_shapley_matching fuel app = Some (Ok alloc)
    ∧ match_loop fuel (initial_state app) = Some (Ok (evs, st))
    ∧ steps (initial_state app) evs st
    ∧ dom alloc = dom (schools app)
    ∧ (∀ s, s ∈ dom (schools app) →
         (alloc !! s = Some [] ↔ ¬ applied_to evs s))
    ∧ (∀ s, s ∈ dom (schools app) →
         (∀ stu, stu ∈ students app → s ∉ Student.preferences stu) →
         alloc !! s = Some []).
Proof.
  intros Hwt Hfuel.
  destruct (match_loop_finishes app fuel Hwt Hfuel) as (evs & st & Hloop).
  destruct (match_loop_steps _ _ _ _ Hloop) as (Hsteps & _ & _).
  assert (Hc : consistent app st).
  { eapply consistent_steps; [|done]. by apply consistent_initial. }
  pose proof (empty_until_applied_steps app _ _ _ Hwt Hsteps []
                (consistent_initial app Hwt) (empty_until_applied_initial app))
    as Hinv. simpl in Hinv.
  exists (format_results (schools_dict st)), evs, st.
  split; [unfold gale_shapley_matching; by rewrite Hloop|].
  split; [done|]. split; [done|].
  split; [unfold format_results; rewrite dom_fmap_L; by apply consistent_dom|].
  split.
  - intros s Hs. rewrite <- (consistent_dom _ _ Hc) in Hs.
    apply elem_of_dom in Hs as [d Hd].
    rewrite <- (Hinv s d Hd). unfold format_results. rewrite lookup_fmap, Hd.
    simpl. split.
    + intros [= Hnil]. apply fmap_nil_inv in Hnil.
      apply Permutation_nil_r. by rewrite <- Hnil, sorted_Permutation.
    + by intros ->.
  - intros s Hs Hnone. rewrite <- (consistent_dom _ _ Hc) in Hs.
    apply elem_of_dom in Hs as [d Hd].
    unfold format_results. rewrite lookup_fmap, Hd. simpl.
    destruct (accepted d) as [|[a sc] l] eqn:Hacc; [done|]. exfalso.
    destruct (cons_accepted _ _ Hc s d a sc Hd) as (e & He & _ & Hin & _).
    { rewrite Hacc. by left. }
    rewrite (cons_students _ _ Hc) in He.
    apply make_student_dict_lookup in He as (stu & Hstu & _ & ->).
    by apply (Hnone stu).
Qed.

Lemma allocation_keys_witness :
  well_typed first_choice ∧ (pop_bound first_choice ≤ 3)%nat
  ∧ gale_shapley_matching 3 first_choice
    = Some (Ok {[ "X"%string := ["A"%string]; "Y"%string := [] ]})
  ∧ trace 3 first_choice = Some [Accepted "A" "X"]
  ∧ ∃ alloc evs st,
    gale_shapley_matching 3 first_choice = Some (Ok alloc)
    ∧ match_loop 3 (initial_state first_choice) = Some (Ok (evs, st))
    ∧ steps (initial_state first_choice) evs st
    ∧ dom alloc = dom (schools first_choice)
    ∧ (∀ s, s ∈ dom (schools first_choice) →
         (alloc !! s = Some [] ↔ ¬ applied_to evs s))
    ∧ (∀ s, s ∈ dom (schools first_choice) →
         (∀ stu, stu ∈ students first_choice → s ∉ Student.preferences stu) →
         alloc !! s = Some []).
Proof.
  split; [exact first_choice_well_typed|]. split; [vm_compute; lia|].
  split; [vm_compute; reflexivity|]. split; [vm_compute; reflexivity|].
  apply (allocation_keys first_choice 3);
    [exact first_choice_well_typed | vm_compute; lia].
Defined.

(** ** Exhausted preferences, unknown schools, empty queue *)

(** What the run does where an iteration finds no preference left or an
    unknown school. *)
Lemma ordinary_branch_iteration app st1 ev st2 :
  consistent app st1 → iteration st1 ev st2 → ordinary_branch app st1 ev st2.
Proof.
  intros Hc Hit.
  destruct Hit as [a q e i Hq He Hi Hlen | a q e i s Hq He Hi Hs Hd
    | a q e i s d Hq He Hi Hs Hd Hlt
    | a q e i s d l1 low l2 Hq He Hi Hs Hd Hfull Hsplit H1 H2 Hlt
    | a q e i s d l1 low l2 Hq He Hi Hs Hd Hfull Hsplit H1 H2 Hlt];
    simpl; try done.
  - by exists q, e, i.
  - exists q, e, i. split; [done|]. split; [done|]. split; [done|].
    split; [done|]. split; [|done].
    rewrite <- (consistent_dom _ _ Hc). by apply not_elem_of_dom.
Qed.

(** C9: for well-typed input the engine ends without raising, by iterating
    the body of its loop from the initial state until the queue is empty.
    Wherever in that run a student is popped with no preference left (also
    one whose list was empty from the start), the student leaves the queue
    and nothing else changes; from then on the student is in no queue and
    in no accepted list, and no later iteration admits it.  Wherever a
    student's current preference is not a known school, its preference
    index is advanced, it goes to the tail of the queue and nothing else
    changes.  With an empty queue the loop ends at once. *)
Theorem engine_raises_nothing (app : App) (fuel : nat) :
  well_typed app → (pop_bound app ≤ fuel)%nat →
  ∃ evs st,
    match_loop fuel (initial_state app) = Some (Ok (evs, st))
    ∧ steps (initial_state app) evs st
    ∧ gale_shapley_matching fuel app
      = Some (Ok (format_results (schools_dict st)))
    ∧ unmatched st = []
    ∧ (∀ evs1 ev evs2, evs = evs1 ++ ev :: evs2 →
         ∃ st1 st2,
           steps (initial_state app) evs1 st1
           ∧ match_iteration st1 = Ok (ev, st2)
           ∧ steps st2 evs2 st
           ∧ ordinary_branch app st1 ev st2
           ∧ ∀ a, ev = NoPrefsLeft a →
               ∀ evs3 st3, steps st2 evs3 st3 →
                 absent a st3 ∧ ∀ ev', ev' ∈ evs3 → ¬ admits ev' a)
    ∧ (∀ evs1 a evs2, evs = evs1 ++ NoPrefsLeft a :: evs2 →
         (∀ ev, ev ∈ evs2 → ¬ admits ev a)
         ∧ (∀ s d, schools_dict st !! s = Some d → a ∉ (accepted d).*1))
    ∧ (∀ st1 a q e i,
         unmatched st1 = a :: q → student_dict st1 !! a = Some e →
         pref_index st1 !! a = Some i →
         ((length (prefs e) ≤ i)%nat →
          match_iteration st1
          = Ok (NoPrefsLeft a,
                {| student_dict := student_dict st1;
                   schools_dict := schools_dict st1;
                   unmatched := q; pref_index := pref_index st1 |}))
         ∧ (∀ s, prefs e !! i = Some s → schools_dict st1 !! s = None →
            match_iteration st1
            = Ok (UnknownSchool a s,
                  {| student_dict := student_dict st1;
                     schools_dict := schools_dict st1;
                     unmatched := q ++ [a];
                     pref_index := <[a := S i]> (pref_index st1) |})))
    ∧ (∀ n st0, unmatched st0 = [] → match_loop n st0 = Some (Ok ([], st0))).
Proof.
  intros Hwt Hfuel.
  destruct (match_loop_finishes app fuel Hwt Hfuel) as (evs & st & Hloop).
  destruct (match_loop_steps _ _ _ _ Hloop) as (Hsteps & Hq & _).
  exists evs, st. split; [done|]. split; [done|].
  split; [unfold gale_shapley_matching; by rewrite Hloop|]. split; [done|].
  assert (Hrun : ∀ evs1 ev evs2, evs = evs1 ++ ev :: evs2 →
    ∃ st1 st2,
      steps (initial_state app) evs1 st1
      ∧ match_iteration st1 = Ok (ev, st2)
      ∧ steps st2 evs2 st
      ∧ ordinary_branch app st1 ev st2
      ∧ ∀ a, ev = NoPrefsLeft a →
          ∀ evs3 st3, steps st2 evs3 st3 →
            absent a st3 ∧ ∀ ev', ev' ∈ evs3 → ¬ admits ev' a).
  { intros evs1 ev evs2 ->.
    apply steps_app_inv in Hsteps as (st1 & Hpre & Hpost).
    inversion Hpost as [|? ? st2 ? ? Hit Hrest]; subst.
    assert (Hc1 : consistent app st1).
    { eapply consistent_steps; [|done]. by apply consistent_initial. }
    assert (Hdist : distinct st1).
    { eapply distinct_steps; [|done]. by apply distinct_initial. }
    exists st1, st2. split; [done|]. split; [done|]. split; [done|].
    pose proof (match_iteration_spec _ _ _ Hit) as Hiter.
    split; [by apply (ordinary_branch_iteration app)|].
    intros a -> evs3 st3 Hlater.
    pose proof (dropped_absent _ _ _ Hdist Hiter) as Habs.
    by apply (absent_steps _ _ _ _ Habs Hlater). }
  split; [exact Hrun|]. split; [|split].
  - intros evs1 a evs2 Hevs.
    destruct (Hrun _ _ _ Hevs) as (st1 & st2 & _ & _ & Hrest & _ & Hdrop).
    destruct (Hdrop a eq_refl evs2 st Hrest) as [[_ Hacc] Hadm]. done.
  - intros st1 a q e i Hq1 He Hi. split.
    + by apply match_iteration_no_prefs.
    + intros s. by apply match_iteration_unknown.
  - intros n st0. apply match_loop_empty.
Qed.

Lemma engine_raises_nothing_witness :
  well_typed ghost_then_full ∧ (pop_bound ghost_then_full ≤ 5)%nat
  ∧ trace 5 ghost_then_full
    = Some [UnknownSchool "C" "Ghost"; Accepted "D" "Y"; Rejected "C" "Y";
            NoPrefsLeft "C"]
  ∧ ∃ evs st,
    match_loop 5 (initial_state ghost_then_full) = Some (Ok (evs, st))
    ∧ steps (initial_state ghost_then_full) evs st
    ∧ gale_shapley_matching 5 ghost_then_full
      = Some (Ok (format_results (schools_dict st)))
    ∧ unmatched st = []
    ∧ (∀ evs1 ev evs2, evs = evs1 ++ ev :: evs2 →
         ∃ st1 st2,
           steps (initial_state ghost_then_full) evs1 st1
           ∧ match_iteration st1 = Ok (ev, st2)
           ∧ steps st2 evs2 st
           ∧ ordinary_branch ghost_then_full st1 ev st2
           ∧ ∀ a, ev = NoPrefsLeft a →
               ∀ evs3 st3, steps st2 evs3 st3 →
                 absent a st3 ∧ ∀ ev', ev' ∈ evs3 → ¬ admits ev' a)
    ∧ (∀ evs1 a evs2, evs = evs1 ++ NoPrefsLeft a :: evs2 →
         (∀ ev, ev ∈ evs2 → ¬ admits ev a)
         ∧ (∀ s d, schools_dict st !! s = Some d → a ∉ (accepted d).*1))
    ∧ (∀ st1 a q e i,
         unmatched st1 = a :: q → student_dict st1 !! a = Some e →
         pref_index st1 !! a = Some i →
         ((length (prefs e) ≤ i)%nat →
          match_iteration st1
          = Ok (NoPrefsLeft a,
                {| student_dict := student_dict st1;
                   schools_dict := schools_dict st1;
                   unmatched := q; pref_index := pref_index st1 |}))
         ∧ (∀ s, prefs e !! i = Some s → schools_dict st1 !! s = None →
            match_iteration st1
            = Ok (UnknownSchool a s,
                  {| student_dict := student_dict st1;
                     schools_dict := schools_dict st1;
                     unmatched := q ++ [a];
                     pref_index := <[a := S i]> (pref_index st1) |})))
    ∧ (∀ n st0, unmatched st0 = [] → match_loop n st0 = Some (Ok ([], st0))).
Proof.
  split; [exact ghost_then_full_well_typed|]. split; [vm_compute; lia|].
  split; [vm_compute; reflexivity|].
  apply (engine_raises_nothing ghost_then_full 5);
    [exact ghost_then_full_well_typed | vm_compute; lia].
Defined.
